(** * Improved shortest augmenting path (ISAP) max-flow and the
      feasible-flow reduction: a shallow embedding and its properties.

    The C++ sources embedded here are [isap.h], [isap.cc] (class [Isap]:
    constructor, [add_edge], [bfs], [isap]) and [isap_feasible_flow.cc]
    ([has_feasible_flow]).

    Modelling conventions.
    - A C++ [int] is a [Z].  Arithmetic on labels, counters, flows and
      demands goes through [int], which reports a result outside
      [-2^31, 2^31) as [Fault Overflow] (signed overflow is undefined
      behaviour in C++).  Container sizes and the cursor increment
      [cur[u]++] are bounded by a container size and are left unchecked.
    - A [std::vector] is a [list]; [v[i]] is [at_], [v[i] = x] is [set_].
      An index outside the vector is undefined behaviour in C++ and is
      reported as [Fault (OutOfRange which i)].
    - The two [while] loops ([bfs] queue loop, [isap] main loop) take a
      fuel argument; running out of it is the separate outcome
      [OutOfFuel].  The [for] loops run over a list and are structural. *)

From stdpp Require Import base list relations.
From Stdlib Require Import ZArith Lia.
Local Open Scope Z_scope.

(** ** Outcomes *)

Inductive Vec := Vadj | Vrow | Vlevel | Vgap | Vcur | Vdemand.

Inductive Err :=
| OutOfRange (which : Vec) (i : Z)
| Overflow
| BadLength.

Inductive Res (A : Type) :=
| Ret (a : A)
| Fault (e : Err)
| OutOfFuel.
Arguments Ret {A} a.
Arguments Fault {A} e.
Arguments OutOfFuel {A}.

Definition bind {A B} (m : Res A) (k : A -> Res B) : Res B :=
  match m with
  | Ret a => k a
  | Fault e => Fault e
  | OutOfFuel => OutOfFuel
  end.

Notation "'do' x <- m ; k" := (bind m (fun x => k))
  (at level 10, x binder, m at level 100, k at level 200).

Definition INT_MIN : Z := - 2 ^ 31.
Definition INT_MAX : Z := 2 ^ 31 - 1.

Definition int (z : Z) : Res Z :=
  if (INT_MIN <=? z) && (z <=? INT_MAX) then Ret z else Fault Overflow.

Definition size {A} (l : list A) : Z := Z.of_nat (length l).

Definition at_ {A} (which : Vec) (l : list A) (i : Z) : Res A :=
  if 0 <=? i then
    match l !! Z.to_nat i with
    | Some x => Ret x
    | None => Fault (OutOfRange which i)
    end
  else Fault (OutOfRange which i).

Definition set_ {A} (which : Vec) (l : list A) (i : Z) (x : A) : Res (list A) :=
  if (0 <=? i) && (i <? size l) then Ret (<[Z.to_nat i := x]> l)
  else Fault (OutOfRange which i).

(** [vector<T>(k, x)]: a negative [int] converts to a huge [size_t] and the
    allocation throws. *)
Definition vector {A} (k : Z) (x : A) : Res (list A) :=
  if 0 <=? k then Ret (replicate (Z.to_nat k) x) else Fault BadLength.

(** ** isap.h *)

Definition INF : Z := 1000000000.

Record Edge := mkEdge { to : Z; cap : Z; flow : Z; rev : Z }.

Record Isap := mkIsap {
  n : Z;
  adj : list (list Edge);
  level : list Z;
  gap : list Z
}.

Definition set_flow (e : Edge) (f : Z) : Edge := mkEdge (to e) (cap e) f (rev e).

(** [a[u][i]] and [a[u][i] = e] on the adjacency lists. *)
Definition edge_at (a : list (list Edge)) (u i : Z) : Res Edge :=
  do row <- at_ Vadj a u; at_ Vrow row i.

Definition set_edge (a : list (list Edge)) (u i : Z) (e : Edge)
  : Res (list (list Edge)) :=
  do row <- at_ Vadj a u;
  do row' <- set_ Vrow row i e;
  set_ Vadj a u row'.

(** ** isap.cc *)

(** [Isap::Isap(int n) : adj(n), level(n), gap(n)] *)
Definition create (k : Z) : Res Isap :=
  do a <- vector k [];
  do lv <- vector k 0;
  do gp <- vector k 0;
  Ret (mkIsap k a lv gp).

(** [Isap::add_edge]: the reverse index of the forward record is
    [adj[v].size()] read before the first [push_back]; that of the
    reverse record is [adj[u].size() - 1] read after it. *)
Definition add_edge (g : Isap) (u v c : Z) : Res Isap :=
  do au <- at_ Vadj (adj g) u;
  do av <- at_ Vadj (adj g) v;
  do a1 <- set_ Vadj (adj g) u (au ++ [mkEdge v c 0 (size av)]);
  do av1 <- at_ Vadj a1 v;
  do au1 <- at_ Vadj a1 u;
  do a2 <- set_ Vadj a1 v (av1 ++ [mkEdge u 0 0 (size au1 - 1)]);
  Ret (mkIsap (n g) a2 (level g) (gap g)).

(** The [for (auto& e : adj[u])] loop of [Isap::bfs]; the queue grows at
    its back.  The reverse record [adj[v][e.rev]] is read only when
    [level[v] == -1] (short-circuit [&&]). *)
Fixpoint bfs_edges (a : list (list Edge)) (u : Z) (es : list Edge)
    (lv gp q : list Z) : Res (list Z * list Z * list Z) :=
  match es with
  | [] => Ret (lv, gp, q)
  | e :: es' =>
    let v := to e in
    do lvv <- at_ Vlevel lv v;
    if lvv =? -1 then
      do r <- edge_at a v (rev e);
      if flow r <? cap r then
        do lvu <- at_ Vlevel lv u;
        do d <- int (lvu + 1);
        do lv' <- set_ Vlevel lv v d;
        do gd <- at_ Vgap gp d;
        do gd' <- int (gd + 1);
        do gp' <- set_ Vgap gp d gd';
        bfs_edges a u es' lv' gp' (q ++ [v])
      else bfs_edges a u es' lv gp q
    else bfs_edges a u es' lv gp q
  end.

(** The [while (!q.empty())] loop of [Isap::bfs]. *)
Fixpoint bfs_loop (fuel : nat) (a : list (list Edge)) (lv gp q : list Z)
  : Res (list Z * list Z) :=
  match q with
  | [] => Ret (lv, gp)
  | u :: q' =>
    match fuel with
    | O => OutOfFuel
    | S fuel' =>
      do au <- at_ Vadj a u;
      do '(lv', gp', q'') <- bfs_edges a u au lv gp q';
      bfs_loop fuel' a lv' gp' q''
    end
  end.

(** [Isap::bfs] *)
Definition bfs (fuel : nat) (g : Isap) (t : Z) : Res Isap :=
  let lv0 := replicate (length (level g)) (-1) in
  let gp0 := replicate (length (gap g)) 0 in
  do lv1 <- set_ Vlevel lv0 t 0;
  do gp1 <- set_ Vgap gp0 0 1;
  do '(lv, gp) <- bfs_loop fuel (adj g) lv1 gp1 [t];
  Ret (mkIsap (n g) (adj g) lv gp).

(** The state of the main loop of [Isap::isap]: the members [adj],
    [level], [gap] and the locals [cur], [path], [u], [flow]. *)
Record Walk := mkWalk {
  w_adj : list (list Edge);
  w_level : list Z;
  w_gap : list Z;
  w_cur : list Z;
  w_path : list Z;
  w_u : Z;
  w_flow : Z
}.

(** First [for] loop of the augmentation: the bottleneck [f]. *)
Fixpoint bottleneck (a : list (list Edge)) (cur : list Z) (ps : list Z) (f : Z)
  : Res Z :=
  match ps with
  | [] => Ret f
  | p :: ps' =>
    do c <- at_ Vcur cur p;
    do e <- edge_at a p c;
    do r <- int (cap e - flow e);
    bottleneck a cur ps' (Z.min f r)
  end.

(** Second [for] loop of the augmentation: push [f] along the path. *)
Fixpoint push (a : list (list Edge)) (cur : list Z) (ps : list Z) (f : Z)
  : Res (list (list Edge)) :=
  match ps with
  | [] => Ret a
  | p :: ps' =>
    do c <- at_ Vcur cur p;
    do e <- edge_at a p c;
    let rv := rev e in
    do fl <- int (flow e + f);
    do a1 <- set_edge a p c (set_flow e fl);
    do e1 <- edge_at a1 p c;
    do r <- edge_at a1 (to e1) rv;
    do fr <- int (flow r - f);
    do a2 <- set_edge a1 (to e1) rv (set_flow r fr);
    push a2 cur ps' f
  end.

(** The scan [for (; cur[u] < adj[u].size(); cur[u]++)] over the records
    from the current arc on: the final cursor and the admissible record
    found, if any.  [level[e.to]] is read only when [e.cap > e.flow]. *)
Fixpoint scan (lv : list Z) (u : Z) (es : list Edge) (c : Z)
  : Res (Z * option Edge) :=
  match es with
  | [] => Ret (c, None)
  | e :: es' =>
    if flow e <? cap e then
      do lu <- at_ Vlevel lv u;
      do lt <- at_ Vlevel lv (to e);
      do d <- int (lt + 1);
      if lu =? d then Ret (c, Some e) else scan lv u es' (c + 1)
    else scan lv u es' (c + 1)
  end.

(** The relabel loop [for (auto &e : adj[u])] computing [min_level]. *)
Fixpoint min_level (lv : list Z) (es : list Edge) (m : Z) : Res Z :=
  match es with
  | [] => Ret m
  | e :: es' =>
    if flow e <? cap e then
      do lt <- at_ Vlevel lv (to e);
      min_level lv es' (Z.min m lt)
    else min_level lv es' m
  end.

(** The [if (u == t)] block. *)
Definition augment (s t : Z) (w : Walk) : Res Walk :=
  if w_u w =? t then
    do f <- bottleneck (w_adj w) (w_cur w) (w_path w) INF;
    do a <- push (w_adj w) (w_cur w) (w_path w) f;
    do fl <- int (w_flow w + f);
    Ret (mkWalk a (w_level w) (w_gap w) (w_cur w) [] s fl)
  else Ret w.

Inductive Next := Continue (w : Walk) | Break (w : Walk).

(** The retreat block [if (!advanced)], entered with the cursor of [u]
    already at the end. *)
Definition retreat (nn : Z) (w : Walk) : Res Next :=
  let u := w_u w in
  do au <- at_ Vadj (w_adj w) u;
  do ml <- min_level (w_level w) au nn;
  do lu <- at_ Vlevel (w_level w) u;
  do gl <- at_ Vgap (w_gap w) lu;
  do gl' <- int (gl - 1);
  do gp1 <- set_ Vgap (w_gap w) lu gl';
  if gl' =? 0 then
    Ret (Break (mkWalk (w_adj w) (w_level w) gp1 (w_cur w) (w_path w) u (w_flow w)))
  else
    do nl <- int (ml + 1);
    do lv1 <- set_ Vlevel (w_level w) u nl;
    do g2 <- at_ Vgap gp1 nl;
    do g2' <- int (g2 + 1);
    do gp2 <- set_ Vgap gp1 nl g2';
    do cur1 <- set_ Vcur (w_cur w) u 0;
    match last (w_path w) with
    | Some p =>
      Ret (Continue (mkWalk (w_adj w) lv1 gp2 cur1 (removelast (w_path w)) p (w_flow w)))
    | None =>
      Ret (Continue (mkWalk (w_adj w) lv1 gp2 cur1 [] u (w_flow w)))
    end.

(** One iteration of [while (level[s] < n)]. *)
Definition step (s t nn : Z) (w0 : Walk) : Res Next :=
  do w <- augment s t w0;
  let u := w_u w in
  do cu <- at_ Vcur (w_cur w) u;
  do au <- at_ Vadj (w_adj w) u;
  do '(c, found) <- scan (w_level w) u (drop (Z.to_nat cu) au) cu;
  do cur1 <- set_ Vcur (w_cur w) u c;
  match found with
  | Some e =>
    Ret (Continue (mkWalk (w_adj w) (w_level w) (w_gap w) cur1
                          (w_path w ++ [u]) (to e) (w_flow w)))
  | None =>
    retreat nn (mkWalk (w_adj w) (w_level w) (w_gap w) cur1
                       (w_path w) u (w_flow w))
  end.

(** How the main loop was left. *)
Inductive Exit := LabelOverflow | GapEmpty.

Fixpoint run (fuel : nat) (s t nn : Z) (w : Walk) : Res (Exit * Walk) :=
  do ls <- at_ Vlevel (w_level w) s;
  if ls <? nn then
    match fuel with
    | O => OutOfFuel
    | S fuel' =>
      do nx <- step s t nn w;
      match nx with
      | Continue w' => run fuel' s t nn w'
      | Break w' => Ret (GapEmpty, w')
      end
    end
  else Ret (LabelOverflow, w).

(** [Isap::isap]: the flow returned and the object as the call leaves it. *)
Definition isap (fuel : nat) (g : Isap) (s t : Z) : Res (Z * Isap) :=
  do g1 <- bfs fuel g t;
  do ls <- at_ Vlevel (level g1) s;
  if ls =? -1 then Ret (0, g1)
  else
    do cur <- vector (n g1) 0;
    do r <- run fuel s t (n g1)
                (mkWalk (adj g1) (level g1) (gap g1) cur [] s 0);
    let w := snd r in
    Ret (w_flow w, mkIsap (n g1) (w_adj w) (w_level w) (w_gap w)).

(** A graph built as the drivers do: the constructor, then one
    [add_edge] per triple [(u, v, cap)]. *)
Fixpoint add_edges (g : Isap) (es : list (Z * Z * Z)) : Res Isap :=
  match es with
  | [] => Ret g
  | (u, v, c) :: es' => do g' <- add_edge g u v c; add_edges g' es'
  end.

Definition build (k : Z) (es : list (Z * Z * Z)) : Res Isap :=
  do g <- create k; add_edges g es.

Definition max_flow (fuel : nat) (k : Z) (es : list (Z * Z * Z)) (s t : Z)
  : Res Z :=
  do g <- build k es;
  do r <- isap fuel g s t;
  Ret (fst r).

(** ** isap_feasible_flow.cc *)

Record OriginalEdge := mkOriginalEdge { u : Z; v : Z; lower : Z; upper : Z }.

(** The loop accumulating [demand]. *)
Fixpoint demands (edges : list OriginalEdge) (demand : list Z) : Res (list Z) :=
  match edges with
  | [] => Ret demand
  | e :: es =>
    do du <- at_ Vdemand demand (u e);
    do x <- int (du - lower e);
    do d1 <- set_ Vdemand demand (u e) x;
    do dv <- at_ Vdemand d1 (v e);
    do y <- int (dv + lower e);
    do d2 <- set_ Vdemand d1 (v e) y;
    demands es d2
  end.

(** Loop 1: the edges for the adjustable flow [upper - lower]. *)
Fixpoint slack_edges (g : Isap) (edges : list OriginalEdge) : Res Isap :=
  match edges with
  | [] => Ret g
  | e :: es =>
    do c <- int (upper e - lower e);
    if 0 <? c then
      do g' <- add_edge g (u e) (v e) c;
      slack_edges g' es
    else slack_edges g es
  end.

(** Loops 2 and 3, over the nodes [i = 0 .. n-1]. *)
Fixpoint demand_edges (g : Isap) (SS TT : Z) (demand : list Z) (nodes : list Z)
    (total : Z) : Res (Isap * Z) :=
  match nodes with
  | [] => Ret (g, total)
  | i :: nodes' =>
    do d <- at_ Vdemand demand i;
    if 0 <? d then
      do g' <- add_edge g SS i d;
      do total' <- int (total + d);
      demand_edges g' SS TT demand nodes' total'
    else if d <? 0 then
      do m <- int (- d);
      do g' <- add_edge g i TT m;
      demand_edges g' SS TT demand nodes' total
    else demand_edges g SS TT demand nodes' total
  end.

Definition iota (k : Z) : list Z := map Z.of_nat (seq 0 (Z.to_nat k)).

Section Reducer.
(** The max-flow computation called on the auxiliary graph. *)
Variable engine : Isap -> Z -> Z -> Res (Z * Isap).

Definition has_feasible_flow_with (nn s t : Z) (edges : list OriginalEdge)
  : Res bool :=
  if existsb (fun e => upper e <? lower e) edges then Ret false
  else
    do demand0 <- vector nn 0;
    do demand <- demands edges demand0;
    let SS := nn in
    do TT <- int (nn + 1);
    do k <- int (nn + 2);
    do g0 <- create k;
    do g1 <- slack_edges g0 edges;
    do r <- demand_edges g1 SS TT demand (iota nn) 0;
    do g2 <- add_edge (fst r) t s INF;
    do mf <- engine g2 SS TT;
    Ret (fst mf =? snd r).

End Reducer.

(** [has_feasible_flow] *)
Definition has_feasible_flow (fuel : nat) (nn s t : Z) (edges : list OriginalEdge)
  : Res bool :=
  has_feasible_flow_with (isap fuel) nn s t edges.


(** ** Networks and flows, as the claims speak of them *)

Definition sumZ (l : list Z) : Z := foldr Z.add 0 l.

(** Net outflow of node [w] under a list of [(from, to, amount)]. *)
Definition net_out (l : list (Z * Z * Z)) (w : Z) : Z :=
  sumZ (map (fun '(a, b, x) => (if a =? w then x else 0) - (if b =? w then x else 0)) l).

Definition assign (es : list (Z * Z * Z)) (xs : list Z) : list (Z * Z * Z) :=
  zip_with (fun '(a, b, _) x => (a, b, x)) es xs.

(** [xs] gives every edge [(u, v, cap)] of [es] an amount within its
    capacity, conserved at every node other than [s] and [t]. *)
Definition is_flow (es : list (Z * Z * Z)) (s t : Z) (xs : list Z) : Prop :=
  Forall2 (fun '(_, _, c) x => 0 <= x <= c) es xs /\
  forall w, w <> s -> w <> t -> net_out (assign es xs) w = 0.

Definition flow_value (es : list (Z * Z * Z)) (s : Z) (xs : list Z) : Z :=
  net_out (assign es xs) s.

Definition bounded (edges : list OriginalEdge) (fs : list Z) : list (Z * Z * Z) :=
  zip_with (fun e f => (u e, v e, f)) edges fs.

(** [fs] gives every bounded edge an amount between its bounds, conserved
    at every node other than [s] and [t]. *)
Definition is_feasible (edges : list OriginalEdge) (s t : Z) (fs : list Z) : Prop :=
  Forall2 (fun e f => lower e <= f <= upper e) edges fs /\
  forall w, w <> s -> w <> t -> net_out (bounded edges fs) w = 0.

(** The graphs of [isap_test.cc] and the bounded networks of
    [test_has_feasible_flow]. *)
Definition graph1 : list (Z * Z * Z) :=
  [(0,1,10); (0,2,2); (1,2,6); (1,3,8); (2,3,10)].
Definition graph2 : list (Z * Z * Z) :=
  [(0,1,16); (0,2,13); (1,2,10); (1,3,12); (2,1,4); (2,4,14);
   (3,2,9); (3,5,20); (4,3,7); (4,5,4)].

Definition oe (x : Z * Z * Z * Z) : OriginalEdge :=
  let '(a, b, lo, up) := x in mkOriginalEdge a b lo up.

(** A source with one way on, through node 1, which has a dead end
    (node 2) beside its two ways to the sink 4. *)
Definition dead_end_graph : list (Z * Z * Z) :=
  [(0,1,2); (1,4,1); (1,2,1); (1,3,1); (3,4,1)].

(** Two nodes one step from the sink 2; the source 0 has a single edge. *)
Definition two_feeders : list (Z * Z * Z) := [(1,2,2); (0,2,2)].

(** Two calls of [isap] in a row on the same object. *)
Definition isap_twice (fuel : nat) (k : Z) (es : list (Z * Z * Z)) (s t : Z)
  : Res (Z * Z) :=
  do g <- build k es;
  do r1 <- isap fuel g s t;
  do r2 <- isap fuel (snd r1) s t;
  Ret (fst r1, fst r2).

(** The labels and gap counts a call of [isap] leaves behind. *)
Definition labels_after (fuel : nat) (k : Z) (es : list (Z * Z * Z)) (s t : Z)
  : Res (list Z * list Z) :=
  do g <- build k es;
  do r <- isap fuel g s t;
  Ret (level (snd r), gap (snd r)).

Definition labels_of_bfs (fuel : nat) (k : Z) (es : list (Z * Z * Z)) (t : Z)
  : Res (list Z) :=
  do g <- build k es;
  do g1 <- bfs fuel g t;
  Ret (level g1).

(** A dead end (node 2) beside the source 0, and a second node (1) at the
    source's distance from the sink 3. *)
Definition dead_end_at_source : list (Z * Z * Z) := [(1,3,3); (0,2,2); (0,3,2)].

(** A circulation 2 -> 1 -> 3 -> 2 with all bounds met by the amount 2, and
    the same network with the lower bound of 3 -> 2 relaxed from 2 to 0. *)
Definition cycle_tight : list OriginalEdge :=
  map oe [(2,1,1,2); (3,2,2,2); (1,3,2,2)].
Definition cycle_relaxed : list OriginalEdge :=
  map oe [(2,1,1,2); (3,2,0,2); (1,3,2,2)].

(** ** Reading the adjacency lists *)

Definition zlookup {A} (l : list A) (i : Z) : option A :=
  if 0 <=? i then l !! Z.to_nat i else None.

(** The record [a[x][i]], when both indices are in range. *)
Definition edge_of (a : list (list Edge)) (x i : Z) : option Edge :=
  match zlookup a x with
  | Some row => zlookup row i
  | None => None
  end.

(** Every record's [(to, rev)] names a record that points back to the
    record's owner, and back to the record itself unless the edge is a
    self-loop (for which [add_edge] stores the forward record's own index). *)
Definition paired (a : list (list Edge)) : Prop :=
  forall x i e, edge_of a x i = Some e ->
    exists r, edge_of a (to e) (rev e) = Some r /\ to r = x /\
              (to e <> x -> rev r = i).

(** Paired-flow symmetry and the capacity bound on every record. *)
Definition flows_ok (a : list (list Edge)) : Prop :=
  forall x i e r, edge_of a x i = Some e ->
    edge_of a (to e) (rev e) = Some r ->
    flow r = - flow e /\ flow e <= cap e.

(** The residual graph: an edge with capacity left. *)
Definition residual_edge (a : list (list Edge)) (x y : Z) : Prop :=
  exists i e, edge_of a x i = Some e /\ to e = y /\ flow e < cap e.

Definition reach (a : list (list Edge)) : Z -> Z -> Prop :=
  rtc (residual_edge a).

(** What [isap] never writes: a record without its flow. *)
Definition shape (a : list (list Edge)) : list (list (Z * Z * Z)) :=
  fmap (M := list) (fmap (M := list) (fun e => (to e, cap e, rev e))) a.

(** Net flow leaving node [x]: the sum of the flows of its records. *)
Definition excess (a : list (list Edge)) (x : Z) : Z :=
  match zlookup a x with
  | Some row => sumZ (map flow row)
  | None => 0
  end.

(** The objects a caller can hold: built by the constructor with an [int]
    node count, grown by [add_edge] with a non-negative capacity, and
    handed to [isap] any number of times. *)
Inductive reachable : Isap -> Prop :=
| reach_create k g :
    INT_MIN <= k <= INT_MAX -> create k = Ret g -> reachable g
| reach_add_edge g x y c g' :
    reachable g -> 0 <= c -> add_edge g x y c = Ret g' -> reachable g'
| reach_isap g fuel s t r :
    reachable g -> isap fuel g s t = Ret r -> reachable (snd r).

(** ** The walk of the main loop *)

(** A link of the path: the current arc of [p] is a record to [q] with at
    least [f] units of capacity left, and [p] lies one level above [q]. *)
Definition link (f : Z) (a : list (list Edge)) (lv cur : list Z) (p q : Z) : Prop :=
  exists c e lp lq,
    zlookup cur p = Some c /\ edge_of a p c = Some e /\ to e = q /\
    f <= cap e - flow e /\
    zlookup lv p = Some lp /\ zlookup lv q = Some lq /\ lp = lq + 1.

(** The path stack, front first, linked up to the current node [tip]. *)
Fixpoint chain (f : Z) (a : list (list Edge)) (lv cur : list Z)
    (ps : list Z) (tip : Z) : Prop :=
  match ps with
  | [] => True
  | p :: ps' => link f a lv cur p (hd tip ps') /\ chain f a lv cur ps' tip
  end.

(** What every iteration of the main loop keeps, relative to the
    adjacency lists [a0] the call started from. *)
Record walk_ok (a0 : list (list Edge)) (s t : Z) (w : Walk) : Prop := {
  wk_paired : paired (w_adj w);
  wk_flows : flows_ok (w_adj w);
  wk_chain : chain 1 (w_adj w) (w_level w) (w_cur w) (w_path w) (w_u w);
  wk_start : hd (w_u w) (w_path w) = s;
  wk_cur : forall x c, zlookup (w_cur w) x = Some c -> 0 <= c;
  wk_shape : shape (w_adj w) = shape a0;
  wk_inner : forall x, x <> s -> x <> t -> excess (w_adj w) x = excess a0 x;
  wk_value : s <> t -> excess (w_adj w) s = excess a0 s + w_flow w;
  wk_sink : s <> t -> excess (w_adj w) t = excess a0 t - w_flow w
}.

Definition next_walk (nx : Next) : Walk :=
  match nx with Continue w => w | Break w => w end.

(** [graph1] as built by the test, and as [isap(0, 3)] leaves it. *)
Definition graph1_built : Isap :=
  Eval vm_compute in
    match build 4 graph1 with
    | Ret g => g
    | _ => mkIsap 0 [] [] []
    end.

Definition graph1_after : Isap :=
  Eval vm_compute in
    match isap 100 graph1_built 0 3 with
    | Ret r => snd r
    | _ => mkIsap 0 [] [] []
    end.

(** ** The labeling *)

(** How many nodes still carry the label -1. *)
Fixpoint unlabelled (lv : list Z) : nat :=
  match lv with
  | [] => 0
  | l :: lv' => ((if (l =? -1)%Z then 1 else 0) + unlabelled lv')%nat
  end.

Definition labelled (lv : list Z) (x : Z) : Prop :=
  exists l, zlookup lv x = Some l /\ l <> -1.

(** What the queue loop of [bfs] keeps: the vectors keep their length,
    labels and gap counts stay below the number of labelled nodes, and
    every labelled node has a residual path to the sink. *)
Record bfs_ok (a : list (list Edge)) (t : Z) (lv gp : list Z) : Prop := {
  bo_len_lv : length lv = length a;
  bo_len_gp : length gp = length a;
  bo_level : forall x l, zlookup lv x = Some l ->
               l = -1 \/ 0 <= l < size a - Z.of_nat (unlabelled lv);
  bo_gap : forall d c, zlookup gp d = Some c ->
               0 <= c <= size a - Z.of_nat (unlabelled lv);
  bo_reach : forall x, labelled lv x -> reach a x t
}.

(** The vectors of an object have the length the constructor gave them. *)
Definition sized (g : Isap) : Prop :=
  0 <= n g <= INT_MAX /\ size (adj g) = n g /\
  size (level g) = n g /\ size (gap g) = n g.

(** The third graph of the test: 3 nodes, the single edge 0 -> 1. *)
Definition graph3_built : Isap :=
  Eval vm_compute in
    match build 3 [(0,1,10)] with
    | Ret g => g
    | _ => mkIsap 0 [] [] []
    end.

(** ** Reading the flows of a built graph back, call by call *)

Definition rowlen (a : list (list Edge)) (w : Z) : nat :=
  match zlookup a w with
  | Some row => length row
  | None => 0%nat
  end.

(** The flows of the first [k] records of node [w]. *)
Definition pre (a : list (list Edge)) (w : Z) (k : nat) : Z :=
  match zlookup a w with
  | Some row => sumZ (map flow (take k row))
  | None => 0
  end.

(** ** The reduction, as lists of [add_edge] calls *)

Definition lowers (edges : list OriginalEdge) : list (Z * Z * Z) :=
  map (fun e => (u e, v e, lower e)) edges.

Definition slack_calls (edges : list OriginalEdge) : list (Z * Z * Z) :=
  flat_map (fun e => if 0 <? upper e - lower e
                     then [(u e, v e, upper e - lower e)] else []) edges.

Definition demand_call (SS TT i d : Z) : list (Z * Z * Z) :=
  if 0 <? d then [(SS, i, d)] else if d <? 0 then [(i, TT, - d)] else [].

Definition demand_at (demand : list Z) (i : Z) : Z :=
  match zlookup demand i with
  | Some d => d
  | None => 0
  end.

Definition demand_calls (SS TT : Z) (demand : list Z) (nodes : list Z)
  : list (Z * Z * Z) :=
  flat_map (fun i => demand_call SS TT i (demand_at demand i)) nodes.

(** The amounts on the bounded edges: the lower bound, plus the flow of
    the edge's slack record when it has one. *)
Fixpoint merge (edges : list OriginalEdge) (xs : list Z) : list Z :=
  match edges with
  | [] => []
  | e :: es =>
    if 0 <? upper e - lower e then
      match xs with
      | x :: xs' => (lower e + x) :: merge es xs'
      | [] => lower e :: merge es []
      end
    else lower e :: merge es xs
  end.

Definition cap3 (c : Z * Z * Z) : Z := snd c.

(** The sum of the positive demands. *)
Definition pos_sum (demand : list Z) (nodes : list Z) : Z :=
  sumZ (map (fun i => Z.max (demand_at demand i) 0) nodes).


(** A call of the demand loops: from the supersource, or to the supersink,
    with the other end an original node. *)
Definition dform (SS TT : Z) (c : Z * Z * Z) : Prop :=
  let '(a, b, _) := c in
  (a = SS /\ b <> SS /\ b <> TT) \/ (b = TT /\ a <> SS /\ a <> TT).

Definition within (f : Z) (c : Z * Z * Z) : Prop := 0 <= f <= cap3 c.

(** A single bounded edge from the sink 1 back to the source 0. *)
Definition backward_edge : list OriginalEdge := map oe [(1,0,1,1)].

Definition bounded_test1 : list OriginalEdge :=
  map oe [(0,1,5,10); (0,2,2,8); (1,3,3,6); (2,3,4,9)].

(** Every label is a valid index of [gap] or is the -1 of an unlabelled
    node: the labels stay below the length of [gap]. *)
Definition below (lv gp : list Z) : Prop :=
  forall x l, zlookup lv x = Some l -> l < size gp.

(** [graph1_built] as [bfs] from the sink 3 leaves it. *)
Definition graph1_labelled : Isap :=
  Eval vm_compute in
    match bfs 100 graph1_built 3 with Ret g => g | _ => graph1_built end.

(** The capacity left on the records of node [x]. *)
Definition residual_out (a : list (list Edge)) (x : Z) : Z :=
  match zlookup a x with
  | Some row => sumZ (map (fun e => cap e - flow e) row)
  | None => 0
  end.

(** [dead_end_graph] as built, and as a first and a second [isap(0, 4)]
    leave it. *)
Definition dead_end_built : Isap :=
  Eval vm_compute in
    match build 5 dead_end_graph with Ret g => g | _ => mkIsap 0 [] [] [] end.

Definition dead_end_after1 : Isap :=
  Eval vm_compute in
    match isap 100 dead_end_built 0 4 with Ret r => snd r | _ => dead_end_built end.

Definition dead_end_after2 : Isap :=
  Eval vm_compute in
    match isap 100 dead_end_after1 0 4 with Ret r => snd r | _ => dead_end_after1 end.

(** ** The labels as distances *)

(** The number of nodes labelled [d]. *)
Fixpoint count (d : Z) (lv : list Z) : Z :=
  match lv with
  | [] => 0
  | l :: lv' => (if l =? d then 1 else 0) + count d lv'
  end.

(** [k] residual edges lead from [x] to [y]. *)
Definition dist (a : list (list Edge)) : nat -> Z -> Z -> Prop :=
  nsteps (residual_edge a).

(** Node [y] is settled: every node with a residual edge into [y] is
    labelled, at most one above [y]. *)
Definition settled (a : list (list Edge)) (lv : list Z) (y : Z) : Prop :=
  forall x, residual_edge a x y ->
    exists dx dy, zlookup lv x = Some dx /\ dx <> -1 /\
                  zlookup lv y = Some dy /\ dx <= dy + 1.

(** The queue of [bfs], front first: labelled nodes, their labels
    ascending from [low]. *)
Fixpoint ascending (lv : list Z) (low : Z) (q : list Z) : Prop :=
  match q with
  | [] => True
  | y :: q' => exists d, zlookup lv y = Some d /\ low <= d /\ ascending lv d q'
  end.

(** What [bfs] keeps while the records of the dequeued node [u], labelled
    [L], are visited and [q] is the rest of the queue. *)
Record scan_inv (a : list (list Edge)) (t : Z) (lv q : list Z) (u L : Z) : Prop := {
  si_u : zlookup lv u = Some L;
  si_L : 0 <= L;
  si_queue : ascending lv L q;
  si_bound : forall y d, zlookup lv y = Some d -> -1 <= d <= L + 1;
  si_path : forall y d, zlookup lv y = Some d -> d <> -1 -> dist a (Z.to_nat d) y t;
  si_settled : forall y d, zlookup lv y = Some d -> d <> -1 ->
                 y = u \/ In y q \/ settled a lv y
}.

(** The records of the dequeued node visited so far: the node behind each
    of them is labelled if its reverse record has capacity left. *)
Definition seen (a : list (list Edge)) (lv : list Z) (done : list Edge) : Prop :=
  forall e r, In e done -> edge_of a (to e) (rev e) = Some r -> flow r < cap r ->
    exists d, zlookup lv (to e) = Some d /\ d <> -1.

(** What holds when the queue is empty. *)
Definition final (a : list (list Edge)) (t : Z) (lv : list Z) : Prop :=
  forall y d, zlookup lv y = Some d ->
    -1 <= d /\ (d <> -1 -> dist a (Z.to_nat d) y t /\ settled a lv y).

Definition loop_inv (a : list (list Edge)) (t : Z) (lv q : list Z) : Prop :=
  match q with
  | [] => final a t lv
  | u :: q' => exists L, scan_inv a t lv q' u L
  end.

(** [gap[d]] is the number of nodes labelled [d], for every index [d] of
    [gap]. *)
Definition counted (lv gp : list Z) : Prop :=
  forall d c, zlookup gp d = Some c -> c = count d lv.

(** The main loop of [isap(0, 3)] on [graph1_labelled], as it starts and
    as it is left. *)
Definition graph1_start : Walk :=
  mkWalk (adj graph1_labelled) (level graph1_labelled) (gap graph1_labelled)
         [0; 0; 0; 0] [] 0 0.

Definition graph1_left : Walk :=
  Eval vm_compute in
    match run 100 0 3 4 graph1_start with Ret r => snd r | _ => graph1_start end.

(** ** The labels during the main loop *)

(** The labels are valid: a residual edge goes down by at most one label. *)
Definition valid (a : list (list Edge)) (lv : list Z) : Prop :=
  forall x i e dx dy,
    edge_of a x i = Some e -> flow e < cap e ->
    zlookup lv x = Some dx -> zlookup lv (to e) = Some dy -> dx <= dy + 1.

(** The current arcs: no record before the cursor of a node is
    admissible. *)
Definition arcs (a : list (list Edge)) (lv cur : list Z) : Prop :=
  forall x c i e dx dy,
    zlookup cur x = Some c -> i < c ->
    edge_of a x i = Some e -> flow e < cap e ->
    zlookup lv x = Some dx -> zlookup lv (to e) = Some dy -> dx <> dy + 1.

(** What the main loop keeps when [bfs] has labelled every node. *)
Record tidy (t : Z) (w : Walk) : Prop := {
  td_size : length (w_level w) = length (w_adj w);
  td_nonneg : forall x d, zlookup (w_level w) x = Some d -> 0 <= d;
  td_sink : zlookup (w_level w) t = Some 0;
  td_valid : valid (w_adj w) (w_level w);
  td_arcs : arcs (w_adj w) (w_level w) (w_cur w)
}.

(** The walk at the [break]: the cursor of the current node is past its
    last record, and no other node carries its label. *)
Record stuck (t : Z) (w : Walk) : Prop := {
  sk_tidy : tidy t w;
  sk_u : w_u w <> t;
  sk_done : forall row, zlookup (w_adj w) (w_u w) = Some row ->
              exists c, zlookup (w_cur w) (w_u w) = Some c /\ size row <= c;
  sk_last : exists l, zlookup (w_level w) (w_u w) = Some l /\
                      count l (w_level w) = 1
}.

(** The nodes on the source side at the [break]: the current node [u] and
    the nodes labelled above [l]. *)
Definition above (lv : list Z) (u l x : Z) : bool :=
  (x =? u) || match zlookup lv x with Some d => l <? d | None => false end.

(** No residual edge leaves the set [S]. *)
Definition closed_cut (a : list (list Edge)) (S : Z -> bool) : Prop :=
  forall x y, residual_edge a x y -> S x = true -> S y = true.

(** ** Cuts *)

(** What a list of [(from, to, amount)] carries out of the node set [S],
    less what it carries in. *)
Definition cut_net (S : Z -> bool) (l : list (Z * Z * Z)) : Z :=
  sumZ (map (fun '(a, b, x) => (if S a then x else 0) - (if S b then x else 0)) l).

(** The capacity of the edges leaving [S]. *)
Definition cut_cap (S : Z -> bool) (es : list (Z * Z * Z)) : Z :=
  sumZ (map (fun '(a, b, c) => if S a && negb (S b) then c else 0) es).

(** ** Which vector can be overrun *)

(** The computation indexes no vector out of range. *)
Definition in_range {A} (m : Res A) : Prop :=
  forall w i, m <> Fault (OutOfRange w i).

(** The computation indexes no vector other than [gap] out of range. *)
Definition only_gap {A} (m : Res A) : Prop :=
  forall w i, m = Fault (OutOfRange w i) -> w = Vgap.

(** The vectors [level] and [cur] have the length of [adj]. *)
Definition roomy (w : Walk) : Prop :=
  length (w_level w) = length (w_adj w) /\ length (w_cur w) = length (w_adj w).

(** [two_feeders] as built. *)
Definition two_feeders_built : Isap :=
  Eval vm_compute in
    match build 3 two_feeders with Ret g => g | _ => mkIsap 0 [] [] [] end.

(** ** A bound on the iterations of the main loop *)

(** The number of records. *)
Definition records (a : list (list Edge)) : Z :=
  sumZ (map (fun row : list Edge => size row) a).

(** The quantity every iteration of the main loop raises: the labels
    (weighted so that a relabel outweighs the reset of a cursor), the
    cursors, the flow (weighted so that an augmentation outweighs the
    reset of the path) and the length of the path. *)
Definition progress (a0 : list (list Edge)) (nn : Z) (w : Walk) : Z :=
  (records a0 + 2) * sumZ (w_level w) + sumZ (w_cur w)
  + nn * w_flow w + size (w_path w).

(** The cursors stay within the rows. *)
Definition cursors_ok (a0 : list (list Edge)) (cur : list Z) : Prop :=
  Forall2 (fun c (row : list Edge) => 0 <= c <= size row) cur a0.

(** Iterations of the main loop that suffice for [isap(s, _)] on [g]. *)
Definition iterations (g : Isap) (s : Z) : Z :=
  (records (adj g) + 2) * (n g * n g) + records (adj g)
  + n g * residual_out (adj g) s + n g + 1.

(** The computation does not go on for ever. *)
Definition halts {A} (m : Res A) : Prop := m <> OutOfFuel.

(** What the main loop keeps from one iteration to the next when [bfs]
    has labelled every node. *)
Record steady (a0 : list (list Edge)) (s t nn : Z) (w : Walk) : Prop := {
  st_walk : walk_ok a0 s t w;
  st_tidy : tidy t w;
  st_counted : counted (w_level w) (w_gap w);
  st_below : below (w_level w) (w_gap w);
  st_gap : size (w_gap w) <= nn;
  st_cursors : cursors_ok a0 (w_cur w)
}.

(** ** The main loop on any labeling *)











(** * Properties *)

(** ** The drivers' expectations *)

Example test1 : max_flow 100 4 graph1 0 3 = Ret 12.
Proof. vm_compute. reflexivity. Qed.
Example test2 : max_flow 100 6 graph2 0 5 = Ret 23.
Proof. vm_compute. reflexivity. Qed.
Example test3 : max_flow 100 3 [(0,1,10)] 0 2 = Ret 0.
Proof. vm_compute. reflexivity. Qed.

Example feasible1 :
  has_feasible_flow 100 4 0 3 (map oe [(0,1,5,10); (0,2,2,8); (1,3,3,6); (2,3,4,9)])
  = Ret true.
Proof. vm_compute. reflexivity. Qed.
Example feasible2 :
  has_feasible_flow 100 3 0 2 (map oe [(0,1,5,3); (1,2,1,4)]) = Ret false.
Proof. vm_compute. reflexivity. Qed.
Example feasible3 :
  has_feasible_flow 100 4 0 3 (map oe [(0,1,6,10); (0,2,4,8); (1,3,1,3); (2,3,2,3)])
  = Ret false.
Proof. vm_compute. reflexivity. Qed.
Example feasible4 :
  has_feasible_flow 100 4 0 3 (map oe [(0,1,2,5); (0,2,1,3); (1,3,1,3); (2,3,2,4)])
  = Ret true.
Proof. vm_compute. reflexivity. Qed.

(** ** Evaluations at the inputs where the code leaves its description *)

(** C1.  On [dead_end_graph] the network carries 2 units from 0 to 4
    (1 through 1->4 and 1 through 1->3->4), and [isap(0, 4)] on the freshly
    built graph returns 1, whatever fuel it is given beyond 20 iterations.
    The 6-node graph of the test does return 23. *)
Theorem isap_returns_1_where_2_units_flow :
  (forall fuel, max_flow (20 + fuel) 5 dead_end_graph 0 4 = Ret 1) /\
  (exists xs, is_flow dead_end_graph 0 4 xs /\ flow_value dead_end_graph 0 xs = 2) /\
  (forall fuel, max_flow (30 + fuel) 6 graph2 0 5 = Ret 23).
Proof.
  split; [intros fuel; vm_compute; reflexivity|].
  split; [|intros fuel; vm_compute; reflexivity].
  exists [2; 1; 0; 1; 1]. split; [|reflexivity].
  split.
  - repeat constructor; simpl; lia.
  - intros w Hs Ht. unfold net_out, assign, dead_end_graph, sumZ.
    cbn [zip_with map foldr].
    destruct (Z.eqb_spec 0 w), (Z.eqb_spec 1 w), (Z.eqb_spec 2 w),
      (Z.eqb_spec 3 w), (Z.eqb_spec 4 w); lia.
Qed.

(** C7.  On [dead_end_graph] the first call [isap(0, 4)] returns 1 and an
    immediate second call on the same object returns 1 again, not 0. *)
Theorem isap_second_call_returns_1 :
  forall fuel, isap_twice (20 + fuel) 5 dead_end_graph 0 4 = Ret (1, 1).
Proof. intros fuel. vm_compute. reflexivity. Qed.

(** C8.  [has_feasible_flow] accepts [cycle_tight]; with the lower bound of
    the edge 3 -> 2 lowered from 2 to 0 it rejects the network, although the
    amounts that met the tight bounds still meet the relaxed ones. *)
Theorem relaxing_a_lower_bound_loses_feasibility :
  (forall fuel, has_feasible_flow (20 + fuel) 4 0 2 cycle_tight = Ret true) /\
  (forall fuel, has_feasible_flow (20 + fuel) 4 0 2 cycle_relaxed = Ret false) /\
  is_feasible cycle_relaxed 0 2 [2; 2; 2].
Proof.
  split; [intros fuel; vm_compute; reflexivity|].
  split; [intros fuel; vm_compute; reflexivity|].
  split.
  - repeat constructor; simpl; lia.
  - intros w Hs Ht. unfold net_out, bounded, cycle_relaxed, sumZ.
    cbn [zip_with map foldr oe u v].
    destruct (Z.eqb_spec 1 w), (Z.eqb_spec 2 w), (Z.eqb_spec 3 w); lia.
Qed.

(** C9.  On [dead_end_graph] with sink 4, node 2 cannot reach the sink; the
    labeling gives it -1, not 5, and it still carries -1 when [isap(0, 4)]
    returns.  The relabel of node 1 took that -1 as the minimum and gave
    node 1 the label 0. *)
Theorem unreachable_node_keeps_label_minus_1 :
  forall fuel,
    labels_of_bfs (20 + fuel) 5 dead_end_graph 4 = Ret [2; 1; -1; 1; 0] /\
    labels_after (20 + fuel) 5 dead_end_graph 0 4
      = Ret ([2; 0; -1; 1; 0], [2; 1; 0; 0; 0]).
Proof. intros fuel. split; vm_compute; reflexivity. Qed.

(** C10.  Both accesses leave the vector: on [two_feeders] (3 nodes) the
    relabel increments [gap[4]]; on [dead_end_at_source] (4 nodes) the
    retreat from the dead end decrements [gap[-1]]. *)
Theorem gap_is_indexed_out_of_range :
  forall fuel,
    max_flow (20 + fuel) 3 two_feeders 0 2 = Fault (OutOfRange Vgap 4) /\
    max_flow (20 + fuel) 4 dead_end_at_source 0 3 = Fault (OutOfRange Vgap (-1)).
Proof. intros fuel. split; vm_compute; reflexivity. Qed.

(** ** The guard on the bounds *)

Lemma existsb_Exists {A} (f : A -> bool) (l : list A) :
  Exists (fun x => f x = true) l -> existsb f l = true.
Proof.
  induction 1 as [x l H|x l _ IH]; simpl.
  - rewrite H. reflexivity.
  - rewrite IH. apply orb_true_r.
Qed.

(** C6.  If some edge has [lower > upper], [has_feasible_flow] returns
    [false]; the result does not depend on the node count (no vector is
    allocated), on the engine (it is not called) or on the fuel. *)
Theorem lower_above_upper_returns_false (nn s t : Z) (edges : list OriginalEdge) :
  Exists (fun e => upper e < lower e) edges ->
  (forall engine, has_feasible_flow_with engine nn s t edges = Ret false) /\
  (forall fuel, has_feasible_flow fuel nn s t edges = Ret false).
Proof.
  intros H.
  assert (Hb : existsb (fun e => upper e <? lower e) edges = true).
  { apply existsb_Exists. eapply Exists_impl; [exact H|].
    intros e He. simpl. apply Z.ltb_lt. exact He. }
  split; intros; unfold has_feasible_flow, has_feasible_flow_with;
    rewrite Hb; reflexivity.
Qed.

Lemma lower_above_upper_returns_false_witness :
  Exists (fun e => upper e < lower e) (map oe [(0,1,5,3); (1,2,1,4)]) /\
  (forall engine,
      has_feasible_flow_with engine (-7) 0 2 (map oe [(0,1,5,3); (1,2,1,4)]) = Ret false) /\
  (forall fuel, has_feasible_flow fuel (-7) 0 2 (map oe [(0,1,5,3); (1,2,1,4)]) = Ret false).
Proof.
  assert (H : Exists (fun e => upper e < lower e) (map oe [(0,1,5,3); (1,2,1,4)])).
  { apply Exists_cons_hd. simpl. lia. }
  split; [exact H|].
  exact (lower_above_upper_returns_false (-7) 0 2 _ H).
Defined.

(** ** The outcome monad and the vector accesses *)

Lemma bind_Ret {A B} (m : Res A) (k : A -> Res B) (b : B) :
  bind m k = Ret b -> exists a, m = Ret a /\ k a = Ret b.
Proof. destruct m; simpl; intros H; try discriminate. eauto. Qed.

Lemma int_Ret (z z' : Z) :
  int z = Ret z' -> z' = z /\ INT_MIN <= z <= INT_MAX.
Proof.
  unfold int. destruct (Z.leb_spec INT_MIN z), (Z.leb_spec z INT_MAX);
    simpl; intros Heq; inversion Heq; lia.
Qed.

Lemma int_in_range (z : Z) : INT_MIN <= z <= INT_MAX -> int z = Ret z.
Proof.
  intros [H1 H2]. unfold int.
  destruct (Z.leb_spec INT_MIN z), (Z.leb_spec z INT_MAX); simpl; auto; lia.
Qed.

Lemma at_Ret {A} (w : Vec) (l : list A) (i : Z) (x : A) :
  at_ w l i = Ret x <-> zlookup l i = Some x.
Proof.
  unfold at_, zlookup. destruct (0 <=? i); [|split; discriminate].
  destruct (l !! Z.to_nat i); split; intros H; inversion H; reflexivity.
Qed.

Lemma at_zlookup {A} (w : Vec) (l : list A) (i : Z) (x : A) :
  zlookup l i = Some x -> at_ w l i = Ret x.
Proof. apply at_Ret. Qed.

Lemma zlookup_Some {A} (l : list A) (i : Z) (x : A) :
  zlookup l i = Some x <-> 0 <= i /\ l !! Z.to_nat i = Some x.
Proof.
  unfold zlookup. destruct (Z.leb_spec 0 i) as [Hi|Hi]; split.
  - auto.
  - intros [_ H']. exact H'.
  - discriminate.
  - intros [H' _]. lia.
Qed.

Lemma zlookup_lt {A} (l : list A) (i : Z) (x : A) :
  zlookup l i = Some x -> 0 <= i < size l.
Proof.
  intros [H1 H2]%zlookup_Some. apply lookup_lt_Some in H2. unfold size. lia.
Qed.

Lemma zlookup_in_range {A} (l : list A) (i : Z) :
  0 <= i < size l -> exists x, zlookup l i = Some x.
Proof.
  intros [H1 H2]. unfold size in H2.
  destruct (lookup_lt_is_Some_2 l (Z.to_nat i)) as [x Hx]; [lia|].
  exists x. apply zlookup_Some. auto.
Qed.

Lemma set_Ret {A} (w : Vec) (l : list A) (i : Z) (x : A) (l' : list A) :
  set_ w l i x = Ret l' <-> 0 <= i < size l /\ l' = <[Z.to_nat i := x]> l.
Proof.
  unfold set_.
  destruct (Z.leb_spec 0 i) as [Hi|Hi], (Z.ltb_spec i (size l)) as [Hs|Hs];
    simpl; split; intros Heq;
    try (inversion Heq; subst; auto; fail);
    try discriminate; destruct Heq as [? ->]; try reflexivity; lia.
Qed.

Lemma set_in_range {A} (w : Vec) (l : list A) (i : Z) (x : A) :
  0 <= i < size l -> set_ w l i x = Ret (<[Z.to_nat i := x]> l).
Proof. intros H. apply set_Ret. auto. Qed.

Lemma size_insert {A} (l : list A) (k : nat) (x : A) : size (<[k := x]> l) = size l.
Proof. unfold size. rewrite length_insert. reflexivity. Qed.

Lemma zlookup_insert_eq {A} (l : list A) (i : Z) (x : A) :
  0 <= i < size l -> zlookup (<[Z.to_nat i := x]> l) i = Some x.
Proof.
  intros H. apply zlookup_Some. split; [lia|].
  apply list_lookup_insert_eq. unfold size in H. lia.
Qed.

Lemma zlookup_insert_ne {A} (l : list A) (i j : Z) (x : A) :
  0 <= i -> i <> j -> zlookup (<[Z.to_nat i := x]> l) j = zlookup l j.
Proof.
  intros Hi Hne. unfold zlookup. destruct (Z.leb_spec 0 j); [|reflexivity].
  apply list_lookup_insert_ne. lia.
Qed.


(** Decompose a successful run of binds; the values take the names of the
    binders, the equations those names prefixed by [E]. *)
Ltac inv_ret H :=
  lazymatch type of H with
  | bind _ (fun x => _) = Ret _ =>
    let a := fresh x in let Ha := fresh "E" x in
    apply bind_Ret in H; destruct H as (a & Ha & H); cbv beta in H;
    inv_ret H
  | (let (_, _) := ?p in _) = Ret _ =>
    let x := fresh "x" in let y := fresh "y" in
    destruct p as [x y]; cbv beta iota in H; inv_ret H
  | Ret _ = Ret _ => inversion H; subst; clear H
  | Fault _ = Ret _ => discriminate H
  | OutOfFuel = Ret _ => discriminate H
  | _ => idtac
  end.

(** ** Records of the adjacency lists *)

Lemma edge_at_Ret (a : list (list Edge)) (x i : Z) (e : Edge) :
  edge_at a x i = Ret e <-> edge_of a x i = Some e.
Proof.
  unfold edge_at, edge_of. split.
  - intros H. inv_ret H. apply at_Ret in Erow. rewrite Erow. apply at_Ret in H. exact H.
  - intros H. destruct (zlookup a x) as [row|] eqn:Hrow; [|discriminate].
    rewrite (at_zlookup _ _ _ _ Hrow). simpl. apply at_zlookup. exact H.
Qed.

Lemma edge_of_row (a : list (list Edge)) (x i : Z) (e : Edge) :
  edge_of a x i = Some e ->
  exists row, zlookup a x = Some row /\ zlookup row i = Some e.
Proof.
  unfold edge_of. destruct (zlookup a x) as [row|]; [|discriminate]. eauto.
Qed.

Lemma set_edge_Ret (a : list (list Edge)) (x i : Z) (e' : Edge) (a' : list (list Edge)) :
  set_edge a x i e' = Ret a' ->
  exists row, zlookup a x = Some row /\ 0 <= i < size row /\
              a' = <[Z.to_nat x := <[Z.to_nat i := e']> row]> a.
Proof.
  unfold set_edge. intros H. inv_ret H.
  apply at_Ret in Erow. apply set_Ret in Erow' as [Hi ->]. apply set_Ret in H as [Hx ->].
  eauto.
Qed.

Lemma edge_of_set_edge_eq (a : list (list Edge)) (x i : Z) (e' : Edge) (a' : list (list Edge)) :
  set_edge a x i e' = Ret a' -> edge_of a' x i = Some e'.
Proof.
  intros (row & Hrow & Hi & ->)%set_edge_Ret. unfold edge_of.
  rewrite zlookup_insert_eq by (eapply zlookup_lt; eauto).
  apply zlookup_insert_eq. exact Hi.
Qed.

Lemma edge_of_set_edge_ne (a : list (list Edge)) (x i : Z) (e' : Edge)
    (a' : list (list Edge)) (y j : Z) :
  set_edge a x i e' = Ret a' -> (x <> y \/ i <> j) ->
  edge_of a' y j = edge_of a y j.
Proof.
  intros (row & Hrow & Hi & ->)%set_edge_Ret Hne. unfold edge_of.
  pose proof (zlookup_lt _ _ _ Hrow) as Hx.
  destruct (Z.eq_dec x y) as [<-|Hxy].
  - rewrite zlookup_insert_eq by exact Hx. rewrite Hrow.
    apply zlookup_insert_ne; [lia|]. destruct Hne; congruence.
  - rewrite zlookup_insert_ne by lia. reflexivity.
Qed.

Lemma edge_of_set_edge (a : list (list Edge)) (x i : Z) (e' : Edge)
    (a' : list (list Edge)) (y j : Z) (e : Edge) :
  set_edge a x i e' = Ret a' -> edge_of a' y j = Some e ->
  (x = y /\ i = j /\ e = e') \/ ((x <> y \/ i <> j) /\ edge_of a y j = Some e).
Proof.
  intros Hset He.
  destruct (Z.eq_dec x y) as [<-|Hxy]; [destruct (Z.eq_dec i j) as [<-|Hij]|].
  - left. rewrite (edge_of_set_edge_eq _ _ _ _ _ Hset) in He.
    inversion He. auto.
  - right. rewrite (edge_of_set_edge_ne _ _ _ _ _ x j Hset) in He by auto. auto.
  - right. rewrite (edge_of_set_edge_ne _ _ _ _ _ y j Hset) in He by auto. auto.
Qed.

Lemma sumZ_app (l1 l2 : list Z) : sumZ (l1 ++ l2) = sumZ l1 + sumZ l2.
Proof. unfold sumZ. induction l1 as [|x l1 IH]; simpl; [reflexivity|]. rewrite IH. lia. Qed.

Lemma sumZ_map_insert {A} (f : A -> Z) (l : list A) (k : nat) (x y : A) :
  l !! k = Some x ->
  sumZ (map f (<[k := y]> l)) = sumZ (map f l) - f x + f y.
Proof.
  unfold sumZ. revert k. induction l as [|z l IH]; intros k Hk; [discriminate|].
  destruct k as [|k]; simpl in *.
  - inversion Hk. subst. lia.
  - rewrite (IH k Hk). lia.
Qed.

Lemma fmap_insert_same {A B} (f : A -> B) (l : list A) (k : nat) (x y : A) :
  l !! k = Some x -> f y = f x -> f <$> <[k := y]> l = f <$> l.
Proof.
  intros Hk Hf. rewrite list_fmap_insert, Hf. apply list_insert_id.
  rewrite list_lookup_fmap, Hk. reflexivity.
Qed.

(** Writing a flow into a record leaves the shape alone and moves the
    excess of the record's owner by the difference. *)
Lemma shape_set_flow (a : list (list Edge)) (x i : Z) (e : Edge) (f : Z)
    (a' : list (list Edge)) :
  edge_of a x i = Some e -> set_edge a x i (set_flow e f) = Ret a' ->
  shape a' = shape a.
Proof.
  intros He (row & Hrow & Hi & ->)%set_edge_Ret.
  unfold edge_of in He. rewrite Hrow in He.
  apply zlookup_Some in Hrow as [Hx Hrow]. apply zlookup_Some in He as [_ He].
  unfold shape. eapply fmap_insert_same; [exact Hrow|].
  eapply fmap_insert_same; [exact He|]. reflexivity.
Qed.

Lemma excess_set_flow (a : list (list Edge)) (x i : Z) (e : Edge) (f : Z)
    (a' : list (list Edge)) (y : Z) :
  edge_of a x i = Some e -> set_edge a x i (set_flow e f) = Ret a' ->
  excess a' y = excess a y + (if y =? x then f - flow e else 0).
Proof.
  intros He (row & Hrow & Hi & ->)%set_edge_Ret.
  unfold edge_of in He. rewrite Hrow in He.
  pose proof (zlookup_lt _ _ _ Hrow) as Hx.
  unfold excess. destruct (Z.eqb_spec y x) as [->|Hne].
  - rewrite zlookup_insert_eq by exact Hx. rewrite Hrow.
    apply zlookup_Some in He as [_ He].
    rewrite (sumZ_map_insert flow row _ e _ He). simpl. lia.
  - rewrite zlookup_insert_ne by lia. lia.
Qed.

(** Pairing speaks of [to] and [rev] only. *)
Lemma shape_edge (a a' : list (list Edge)) (x i : Z) (e : Edge) :
  shape a = shape a' -> edge_of a x i = Some e ->
  exists e', edge_of a' x i = Some e' /\
             to e' = to e /\ cap e' = cap e /\ rev e' = rev e.
Proof.
  intros Hs (row & Hrow & He)%edge_of_row.
  apply zlookup_Some in Hrow as [Hx Hrow]. apply zlookup_Some in He as [Hi He].
  assert (H1 : shape a !! Z.to_nat x = Some ((fun e => (to e, cap e, rev e)) <$> row)).
  { unfold shape. rewrite list_lookup_fmap, Hrow. reflexivity. }
  rewrite Hs in H1. unfold shape in H1. rewrite list_lookup_fmap in H1.
  destruct (a' !! Z.to_nat x) as [row'|] eqn:Hrow'; [|discriminate].
  simpl in H1. inversion H1 as [H2].
  assert (H3 : ((fun e => (to e, cap e, rev e)) <$> row) !! Z.to_nat i
               = Some (to e, cap e, rev e)).
  { rewrite list_lookup_fmap, He. reflexivity. }
  rewrite <- H2, list_lookup_fmap in H3.
  destruct (row' !! Z.to_nat i) as [e'|] eqn:He'; [|discriminate].
  simpl in H3. inversion H3. exists e'. split; [|auto].
  unfold edge_of. rewrite (proj2 (zlookup_Some a' x row') (conj Hx Hrow')).
  apply zlookup_Some. auto.
Qed.

Lemma paired_shape (a a' : list (list Edge)) :
  shape a = shape a' -> paired a -> paired a'.
Proof.
  intros Hs Hp x i e' He'.
  destruct (shape_edge a' a x i e' (eq_sym Hs) He') as (e & He & Hto & _ & Hrev).
  destruct (Hp _ _ _ He) as (r & Hr & Hrto & Hrrev).
  destruct (shape_edge a a' _ _ r Hs Hr) as (r' & Hr' & Hto' & _ & Hrev').
  exists r'. rewrite <- Hto, <- Hrev in *. rewrite Hto', Hrev'. auto.
Qed.

(** ** The constructor and [add_edge] *)

Lemma zlookup_replicate {A} (k : nat) (x y : A) (i : Z) :
  zlookup (replicate k x) i = Some y -> y = x.
Proof.
  intros [_ H]%zlookup_Some. apply lookup_replicate in H as [-> _]. reflexivity.
Qed.

Lemma create_Ret (k : Z) (g : Isap) :
  create k = Ret g ->
  0 <= k /\ n g = k /\ adj g = replicate (Z.to_nat k) [] /\
  level g = replicate (Z.to_nat k) 0 /\ gap g = replicate (Z.to_nat k) 0.
Proof.
  unfold create, vector. destruct (Z.leb_spec 0 k) as [Hk|Hk]; simpl; intros H.
  - inversion H. subst. simpl. auto.
  - discriminate.
Qed.

Lemma edge_of_create (k : Z) (g : Isap) (x i : Z) :
  create k = Ret g -> edge_of (adj g) x i = None.
Proof.
  intros (_ & _ & -> & _)%create_Ret. unfold edge_of.
  destruct (zlookup _ x) as [row|] eqn:Hrow; [|reflexivity].
  apply zlookup_replicate in Hrow. subst.
  unfold zlookup. destruct (0 <=? i); reflexivity.
Qed.

Lemma zlookup_snoc {A} (l : list A) (x y : A) (j : Z) :
  zlookup (l ++ [x]) j = Some y <->
  zlookup l j = Some y \/ (j = size l /\ y = x).
Proof.
  rewrite !zlookup_Some. unfold size. split.
  - intros [Hj H]. apply lookup_app_Some in H as [H|[Hle H]]; [auto|].
    right. destruct (Z.to_nat j - length l)%nat as [|k] eqn:Hk; simpl in H.
    + inversion H. split; [lia|reflexivity].
    + discriminate.
  - intros [[Hj H]|[-> ->]].
    + split; [exact Hj|]. apply lookup_app_l_Some. exact H.
    + split; [lia|]. rewrite Nat2Z.id. apply list_lookup_middle. reflexivity.
Qed.

(** [adj[x].push_back(e)] *)
Lemma push_back_rows (a : list (list Edge)) (x : Z) (au : list Edge) (e : Edge)
    (a1 : list (list Edge)) :
  zlookup a x = Some au -> set_ Vadj a x (au ++ [e]) = Ret a1 ->
  length a1 = length a /\
  forall z, zlookup a1 z = if z =? x then Some (au ++ [e]) else zlookup a z.
Proof.
  intros Hau [Hx ->]%set_Ret. split; [apply length_insert|].
  intros z. destruct (Z.eqb_spec z x) as [->|Hne].
  - apply zlookup_insert_eq. exact Hx.
  - apply zlookup_insert_ne; lia.
Qed.

Lemma push_back_edges (a : list (list Edge)) (x : Z) (au : list Edge) (e : Edge)
    (a1 : list (list Edge)) (z j : Z) (e' : Edge) :
  zlookup a x = Some au -> set_ Vadj a x (au ++ [e]) = Ret a1 ->
  (edge_of a1 z j = Some e' <->
   edge_of a z j = Some e' \/ (z = x /\ j = size au /\ e' = e)).
Proof.
  intros Hau Hset. destruct (push_back_rows _ _ _ _ _ Hau Hset) as [_ Hrows].
  unfold edge_of. rewrite Hrows. destruct (Z.eqb_spec z x) as [->|Hne].
  - rewrite Hau. rewrite zlookup_snoc. intuition.
  - intuition.
Qed.

Lemma push_back_excess (a : list (list Edge)) (x : Z) (au : list Edge) (e : Edge)
    (a1 : list (list Edge)) (z : Z) :
  zlookup a x = Some au -> set_ Vadj a x (au ++ [e]) = Ret a1 ->
  excess a1 z = excess a z + (if z =? x then flow e else 0).
Proof.
  intros Hau Hset. destruct (push_back_rows _ _ _ _ _ Hau Hset) as [_ Hrows].
  unfold excess. rewrite Hrows. destruct (Z.eqb_spec z x) as [->|Hne].
  - rewrite Hau. rewrite map_app, sumZ_app. unfold sumZ. simpl. lia.
  - lia.
Qed.

(** The two [push_back]s of [add_edge], with the indices they store. *)
Lemma add_edge_Ret (g : Isap) (x y c : Z) (g' : Isap) :
  add_edge g x y c = Ret g' ->
  exists au av a1 av1,
    zlookup (adj g) x = Some au /\ zlookup (adj g) y = Some av /\
    set_ Vadj (adj g) x (au ++ [mkEdge y c 0 (size av)]) = Ret a1 /\
    zlookup a1 y = Some av1 /\
    size av1 = size av + (if x =? y then 1 else 0) /\
    set_ Vadj a1 y (av1 ++ [mkEdge x 0 0 (size au)]) = Ret (adj g') /\
    n g' = n g /\ level g' = level g /\ gap g' = gap g.
Proof.
  unfold add_edge. intros H. inv_ret H. simpl.
  apply at_Ret in Eau, Eav, Eav1, Eau1.
  destruct (push_back_rows _ _ _ _ _ Eau Ea1) as [_ Hrows].
  assert (Hau1 : size au1 - 1 = size au).
  { rewrite Hrows, Z.eqb_refl in Eau1. inversion Eau1. unfold size.
    rewrite length_app. simpl. lia. }
  rewrite Hau1 in Ea2.
  exists au, av, a1, av1. repeat split; auto.
  rewrite Hrows in Eav1. destruct (Z.eqb_spec y x) as [->|Hne].
  - rewrite Z.eqb_refl. inversion Eav1. rewrite Eau in Eav. inversion Eav.
    unfold size. rewrite length_app. simpl. lia.
  - destruct (Z.eqb_spec x y); [congruence|]. rewrite Eav in Eav1. inversion Eav1. lia.
Qed.

Lemma add_edge_edges (g : Isap) (x y c : Z) (g' : Isap) :
  add_edge g x y c = Ret g' ->
  exists su sv,
    (exists au, zlookup (adj g) x = Some au /\ su = size au) /\
    (exists av, zlookup (adj g) y = Some av /\ sv = size av) /\
    forall z j e,
      edge_of (adj g') z j = Some e <->
      edge_of (adj g) z j = Some e \/
      (z = x /\ j = su /\ e = mkEdge y c 0 sv) \/
      (z = y /\ j = sv + (if x =? y then 1 else 0) /\ e = mkEdge x 0 0 su).
Proof.
  intros (au & av & a1 & av1 & Hau & Hav & Hs1 & Hav1 & Hsz & Hs2 & _)%add_edge_Ret.
  exists (size au), (size av). split; [eauto|]. split; [eauto|].
  intros z j e.
  rewrite (push_back_edges _ _ _ _ _ z j e Hav1 Hs2).
  rewrite (push_back_edges _ _ _ _ _ z j e Hau Hs1).
  rewrite Hsz. intuition.
Qed.

Lemma add_edge_excess (g : Isap) (x y c : Z) (g' : Isap) (z : Z) :
  add_edge g x y c = Ret g' -> excess (adj g') z = excess (adj g) z.
Proof.
  intros (au & av & a1 & av1 & Hau & Hav & Hs1 & Hav1 & Hsz & Hs2 & _)%add_edge_Ret.
  rewrite (push_back_excess _ _ _ _ _ z Hav1 Hs2).
  rewrite (push_back_excess _ _ _ _ _ z Hau Hs1). simpl.
  destruct (z =? x), (z =? y); lia.
Qed.

Lemma edge_of_lt_row (a : list (list Edge)) (x i : Z) (e : Edge) (row : list Edge) :
  edge_of a x i = Some e -> zlookup a x = Some row -> 0 <= i < size row.
Proof.
  unfold edge_of. intros H Hrow. rewrite Hrow in H. eapply zlookup_lt; eauto.
Qed.

Lemma add_edge_paired (g : Isap) (x y c : Z) (g' : Isap) :
  paired (adj g) -> add_edge g x y c = Ret g' -> paired (adj g').
Proof.
  intros Hp Hadd.
  destruct (add_edge_edges _ _ _ _ _ Hadd) as (su & sv & (au & Hau & ->) & (av & Hav & ->) & Hspec).
  intros z j e He. apply Hspec in He as [He|[(-> & -> & ->)|(-> & -> & ->)]].
  - destruct (Hp _ _ _ He) as (r & Hr & Hto & Hrev).
    exists r. split; [|auto]. apply Hspec. auto.
  - simpl. destruct (Z.eqb_spec x y) as [->|Hne].
    + exists (mkEdge y c 0 (size av)). split; [|split; [reflexivity|congruence]].
      apply Hspec. right. left. rewrite Hau in Hav. inversion Hav. auto.
    + exists (mkEdge x 0 0 (size au)). split; [|split; reflexivity].
      apply Hspec. right. right. split; [reflexivity|]. split; [lia|reflexivity].
  - simpl. exists (mkEdge y c 0 (size av)). split; [|split; [reflexivity|]].
    + apply Hspec. right. left. auto.
    + simpl. intros Hne. destruct (Z.eqb_spec x y); [congruence|lia].
Qed.

Lemma add_edge_flows_ok (g : Isap) (x y c : Z) (g' : Isap) :
  paired (adj g) -> flows_ok (adj g) -> 0 <= c ->
  add_edge g x y c = Ret g' -> flows_ok (adj g').
Proof.
  intros Hp Hf Hc Hadd.
  destruct (add_edge_edges _ _ _ _ _ Hadd) as (su & sv & (au & Hau & ->) & (av & Hav & ->) & Hspec).
  assert (Hfresh_u : forall e, edge_of (adj g) x (size au) = Some e -> False).
  { intros e He. pose proof (edge_of_lt_row _ _ _ _ _ He Hau). lia. }
  assert (Hfresh_v : forall e, edge_of (adj g) y (size av) = Some e -> False).
  { intros e He. pose proof (edge_of_lt_row _ _ _ _ _ He Hav). lia. }
  intros z j e r He Hr.
  apply Hspec in He as [He|[(-> & -> & ->)|(-> & -> & ->)]].
  - destruct (Hp _ _ _ He) as (r0 & Hr0 & _).
    assert (Hr0' : edge_of (adj g') (to e) (rev e) = Some r0) by (apply Hspec; auto).
    rewrite Hr0' in Hr. inversion Hr. subst r0. eapply Hf; eauto.
  - simpl in Hr. apply Hspec in Hr as [Hr|[(_ & _ & ->)|(_ & _ & ->)]]; simpl.
    + exfalso. eauto.
    + split; lia.
    + split; lia.
  - simpl in Hr. apply Hspec in Hr as [Hr|[(_ & _ & ->)|(_ & _ & ->)]]; simpl.
    + exfalso. eauto.
    + split; lia.
    + split; lia.
Qed.

(** ** The path stack *)

Lemma link_weaken (f f' : Z) a lv cur p q :
  f' <= f -> link f a lv cur p q -> link f' a lv cur p q.
Proof.
  intros Hle (c & e & lp & lq & H1 & H2 & H3 & H4 & H5).
  exists c, e, lp, lq. repeat split; try tauto. lia.
Qed.

Lemma chain_weaken (f f' : Z) a lv cur ps tip :
  f' <= f -> chain f a lv cur ps tip -> chain f' a lv cur ps tip.
Proof.
  intros Hle. induction ps as [|p ps IH]; simpl; [auto|].
  intros [Hl Hc]. split; [eapply link_weaken; eauto|auto].
Qed.

(** Levels never rise along the path: its head carries the largest. *)
Lemma chain_le f a lv cur ps tip x lx lh :
  chain f a lv cur ps tip -> In x (ps ++ [tip]) ->
  zlookup lv x = Some lx -> zlookup lv (hd tip ps) = Some lh -> lx <= lh.
Proof.
  revert lh. induction ps as [|p ps IH]; simpl; intros lh Hc Hin Hx Hh.
  - destruct Hin as [<-|[]]. rewrite Hx in Hh. inversion Hh. lia.
  - destruct Hc as [(c & e & lp & lq & _ & _ & _ & _ & Hp & Hq & ->) Hc].
    rewrite Hp in Hh. inversion Hh. subst lh.
    destruct Hin as [<-|Hin].
    + rewrite Hx in Hp. inversion Hp. lia.
    + specialize (IH lq Hc Hin Hx Hq). lia.
Qed.

Lemma chain_lt f a lv cur p ps tip x lx lp :
  chain f a lv cur (p :: ps) tip -> In x (ps ++ [tip]) ->
  zlookup lv x = Some lx -> zlookup lv p = Some lp -> lx < lp.
Proof.
  simpl. intros [(c & e & lp' & lq & _ & _ & _ & _ & Hp & Hq & ->) Hc] Hin Hx Hp'.
  rewrite Hp in Hp'. inversion Hp'. subst lp.
  pose proof (chain_le _ _ _ _ _ _ _ _ _ Hc Hin Hx Hq). lia.
Qed.

Lemma chain_tip_level f a lv cur p ps tip :
  chain f a lv cur (p :: ps) tip -> exists lt, zlookup lv tip = Some lt.
Proof.
  revert p. induction ps as [|p' ps IH]; intros p [Hl Hc].
  - destruct Hl as (c & e & lp & lq & _ & _ & _ & _ & _ & Hq & _). eauto.
  - eapply IH. exact Hc.
Qed.

Lemma chain_In f a lv cur ps tip x :
  chain f a lv cur ps tip -> In x ps ->
  exists y, link f a lv cur x y /\
    exists lx lt, zlookup lv x = Some lx /\ zlookup lv tip = Some lt /\ lt < lx.
Proof.
  induction ps as [|p ps IH]; simpl; intros Hc Hin; [destruct Hin|].
  destruct Hin as [<-|Hin]; [|apply IH; tauto].
  exists (hd tip ps). split; [tauto|].
  destruct (chain_tip_level _ _ _ _ _ _ _ Hc) as [lt Ht].
  destruct Hc as [Hl Hc].
  pose proof Hl as (c & e & lp & lq & _ & _ & _ & _ & Hp & _).
  exists lp, lt. repeat split; auto.
  eapply (chain_lt f a lv cur p ps tip tip); simpl; eauto.
  apply in_or_app. right. left. reflexivity.
Qed.

Lemma chain_tip_notin f a lv cur ps tip :
  chain f a lv cur ps tip -> ~ In tip ps.
Proof.
  intros Hc Hin.
  destruct (chain_In _ _ _ _ _ _ _ Hc Hin) as (_ & _ & lx & lt & Hx & Ht & Hlt).
  rewrite Hx in Ht. inversion Ht. lia.
Qed.

(** The chain reads the cursors and records of the path nodes and the
    levels of the path nodes and the tip, nothing else. *)
Lemma chain_frame f a lv cur a' lv' cur' ps tip :
  chain f a lv cur ps tip ->
  (forall p, In p ps -> zlookup cur' p = zlookup cur p) ->
  (forall p c, In p ps -> zlookup cur p = Some c -> edge_of a' p c = edge_of a p c) ->
  (forall x, In x (ps ++ [tip]) -> zlookup lv' x = zlookup lv x) ->
  chain f a' lv' cur' ps tip.
Proof.
  induction ps as [|p ps IH]; simpl; [auto|].
  intros [Hl Hc] Hcur Hedge Hlv. split.
  - destruct Hl as (c & e & lp & lq & H1 & H2 & H3 & H4 & H5 & H6 & H7).
    assert (Hin : In (hd tip ps) (ps ++ [tip])) by (destruct ps; simpl; auto).
    exists c, e, lp, lq. rewrite Hcur by auto. rewrite (Hedge p c) by auto.
    rewrite (Hlv p) by auto. rewrite (Hlv (hd tip ps)) by auto.
    repeat split; auto.
  - apply IH; auto.
Qed.

Lemma hd_snoc {A} (l : list A) (x y : A) : hd y (l ++ [x]) = hd x l.
Proof. destruct l; reflexivity. Qed.

Lemma chain_snoc f a lv cur ps x y :
  chain f a lv cur ps x -> link f a lv cur x y -> chain f a lv cur (ps ++ [x]) y.
Proof.
  intros Hc Hl. induction ps as [|p ps IH]; simpl in *; [auto|].
  destruct Hc as [Hp Hc]. rewrite hd_snoc. auto.
Qed.

Lemma chain_snoc_inv f a lv cur ps x y :
  chain f a lv cur (ps ++ [x]) y -> chain f a lv cur ps x.
Proof.
  induction ps as [|p ps IH]; simpl; [auto|].
  rewrite hd_snoc. intros [Hp Hc]. auto.
Qed.

Lemma last_removelast {A} (l : list A) (x : A) :
  last l = Some x -> l = removelast l ++ [x].
Proof.
  intros [l' ->]%last_Some. rewrite removelast_last. reflexivity.
Qed.

(** ** Pushing flow through one record and its partner *)

(** Of a record [e] at [(p, c)] that is no self-loop and its partner, each
    is the only record whose partner is the other. *)
Lemma partner_pos (a : list (list Edge)) (p c : Z) (e r : Edge) (y j : Z) (x : Edge) :
  paired a -> edge_of a p c = Some e -> to e <> p ->
  edge_of a (to e) (rev e) = Some r -> edge_of a y j = Some x ->
  ((to x = p /\ rev x = c) -> (y = to e /\ j = rev e)) /\
  ((to x = to e /\ rev x = rev e) -> (y = p /\ j = c)).
Proof.
  intros Hp He Hne Hr Hx.
  destruct (Hp _ _ _ Hx) as (r0 & Hr0 & Hr0to & Hr0rev).
  destruct (Hp _ _ _ He) as (r1 & Hr1 & Hr1to & Hr1rev).
  rewrite Hr in Hr1. inversion Hr1. subst r1.
  split; intros [H1 H2]; rewrite H1, H2 in Hr0.
  - rewrite He in Hr0. inversion Hr0. subst r0.
    split; [congruence|]. symmetry. apply Hr0rev. congruence.
  - rewrite Hr in Hr0. inversion Hr0. subst r0.
    split; [congruence|]. rewrite <- Hr0rev, <- Hr1rev; congruence.
Qed.

Lemma push_step (a : list (list Edge)) (p c f : Z) (e : Edge)
    (a1 a2 : list (list Edge)) (r : Edge) :
  paired a -> flows_ok a ->
  edge_of a p c = Some e -> to e <> p -> 0 <= f <= cap e - flow e ->
  set_edge a p c (set_flow e (flow e + f)) = Ret a1 ->
  edge_of a1 (to e) (rev e) = Some r ->
  set_edge a1 (to e) (rev e) (set_flow r (flow r - f)) = Ret a2 ->
  paired a2 /\ flows_ok a2 /\ shape a2 = shape a /\
  (forall x, excess a2 x
             = excess a x + (if x =? p then f else 0) - (if x =? to e then f else 0)) /\
  (forall y j, (y <> p \/ j <> c) -> (y <> to e \/ j <> rev e) ->
               edge_of a2 y j = edge_of a y j).
Proof.
  intros Hp Hf He Hne Hfb Hs1 Hr1 Hs2.
  assert (Hr : edge_of a (to e) (rev e) = Some r).
  { rewrite <- Hr1. symmetry. eapply edge_of_set_edge_ne; eauto. }
  destruct (Hp _ _ _ He) as (r' & Hr' & Hrto & Hrrev).
  rewrite Hr in Hr'. inversion Hr'. subst r'. clear Hr'.
  specialize (Hrrev Hne).
  assert (Her : edge_of a (to r) (rev r) = Some e) by (rewrite Hrto, Hrrev; exact He).
  destruct (Hf _ _ _ _ He Hr) as [Hanti Hcap].
  destruct (Hf _ _ _ _ Hr Her) as [_ Hcapr].
  assert (Hsh : shape a2 = shape a).
  { rewrite (shape_set_flow _ _ _ _ _ _ Hr1 Hs2).
    exact (shape_set_flow _ _ _ _ _ _ He Hs1). }
  assert (Hframe : forall y j, (y <> p \/ j <> c) -> (y <> to e \/ j <> rev e) ->
                               edge_of a2 y j = edge_of a y j).
  { intros y j H1 H2.
    rewrite (edge_of_set_edge_ne _ _ _ _ _ y j Hs2) by (destruct H2; auto).
    apply (edge_of_set_edge_ne _ _ _ _ _ y j Hs1). destruct H1; auto. }
  assert (HA : edge_of a2 p c = Some (set_flow e (flow e + f))).
  { rewrite (edge_of_set_edge_ne _ _ _ _ _ p c Hs2) by auto.
    eapply edge_of_set_edge_eq; eauto. }
  assert (HB : edge_of a2 (to e) (rev e) = Some (set_flow r (flow r - f))).
  { eapply edge_of_set_edge_eq; eauto. }
  split; [eapply paired_shape; [symmetry; exact Hsh|exact Hp]|].
  split; [|split; [exact Hsh|split; [|exact Hframe]]].
  - intros y j x' r' Hx Hpart.
    destruct (decide (y = p /\ j = c)) as [[-> ->]|HnA].
    { rewrite HA in Hx. inversion Hx. subst x'. simpl in *.
      rewrite HB in Hpart. inversion Hpart. subst r'. simpl. lia. }
    destruct (decide (y = to e /\ j = rev e)) as [[-> ->]|HnB].
    { rewrite HB in Hx. inversion Hx. subst x'. simpl in *.
      rewrite Hrto, Hrrev, HA in Hpart. inversion Hpart. subst r'. simpl. lia. }
    rewrite Hframe in Hx by lia.
    destruct (partner_pos a p c e r y j x' Hp He Hne Hr Hx) as [H1 H2].
    rewrite Hframe in Hpart by lia.
    eapply Hf; eauto.
  - intros x.
    rewrite (excess_set_flow _ _ _ _ _ _ x Hr1 Hs2).
    rewrite (excess_set_flow _ _ _ _ _ _ x He Hs1).
    destruct (x =? p), (x =? to e); lia.
Qed.

(** ** The augmentation *)

Lemma push_cons_Ret (a : list (list Edge)) (cur : list Z) (p : Z) (ps : list Z)
    (f : Z) (a' : list (list Edge)) :
  push a cur (p :: ps) f = Ret a' ->
  exists c e a1 r a2,
    zlookup cur p = Some c /\ edge_of a p c = Some e /\
    set_edge a p c (set_flow e (flow e + f)) = Ret a1 /\
    edge_of a1 (to e) (rev e) = Some r /\
    set_edge a1 (to e) (rev e) (set_flow r (flow r - f)) = Ret a2 /\
    push a2 cur ps f = Ret a'.
Proof.
  simpl. intros H. inv_ret H.
  apply at_Ret in Ec. apply edge_at_Ret in Ee, Ee1, Er.
  apply int_Ret in Efl as [-> _]. apply int_Ret in Efr as [-> _].
  rewrite (edge_of_set_edge_eq _ _ _ _ _ Ea1) in Ee1. inversion Ee1. subst.
  simpl in *. exists c, e, a1, r, a2. auto 10.
Qed.

Lemma link_functional f a lv cur p q c e :
  link f a lv cur p q -> zlookup cur p = Some c -> edge_of a p c = Some e ->
  to e = q /\ f <= cap e - flow e /\
  exists lp lq, zlookup lv p = Some lp /\ zlookup lv q = Some lq /\ lp = lq + 1.
Proof.
  intros (c' & e' & lp & lq & H1 & H2 & H3 & H4 & H5 & H6 & H7) Hc He.
  rewrite Hc in H1. inversion H1. subst c'. rewrite He in H2. inversion H2. subst e'.
  eauto 10.
Qed.

Lemma push_chain (f : Z) (lv cur : list Z) (tip : Z) (ps : list Z) :
  forall a a',
    paired a -> flows_ok a -> 0 <= f -> chain f a lv cur ps tip ->
    push a cur ps f = Ret a' ->
    paired a' /\ flows_ok a' /\ shape a' = shape a /\
    forall x, excess a' x
              = excess a x + (if x =? hd tip ps then f else 0)
                - (if x =? tip then f else 0).
Proof.
  induction ps as [|p ps IH]; intros a a' Hp Hf Hf0 Hc Hpush.
  - simpl in Hpush. inversion Hpush. subst a'.
    split; [exact Hp|]. split; [exact Hf|]. split; [reflexivity|].
    intros x. simpl. destruct (x =? tip); lia.
  - apply push_cons_Ret in Hpush as (c & e & a1 & r & a2 & Hcur & He & Hs1 & Hr & Hs2 & Hpush).
    pose proof Hc as [Hl Hc'].
    destruct (link_functional _ _ _ _ _ _ _ _ Hl Hcur He)
      as (Hto & Hfe & lp & lq & Hlp & Hlq & Hlev).
    assert (Hne : to e <> p).
    { intros Heq. rewrite <- Heq, Hto, Hlq in Hlp. inversion Hlp. lia. }
    destruct (push_step a p c f e a1 a2 r Hp Hf He Hne (conj Hf0 Hfe) Hs1 Hr Hs2)
      as (Hp2 & Hf2 & Hsh2 & Hex2 & Hframe).
    assert (Hr0 : edge_of a (to e) (rev e) = Some r).
    { rewrite <- Hr. symmetry. eapply edge_of_set_edge_ne; eauto. }
    assert (Hc2 : chain f a2 lv cur ps tip).
    { eapply chain_frame; [exact Hc'|auto| |auto].
      intros pi ci Hin Hci.
      destruct (chain_In _ _ _ _ _ _ _ Hc' Hin) as (y & Hly & lx & lt & Hlx & _).
      assert (Hlt : lx < lp).
      { eapply (chain_lt f a lv cur p ps tip pi); eauto.
        apply in_or_app. auto. }
      apply Hframe.
      - left. intros ->. rewrite Hlx in Hlp. inversion Hlp. lia.
      - destruct (Z.eq_dec pi (to e)) as [->|]; [|auto]. right. intros ->.
        destruct (link_functional _ _ _ _ _ _ _ _ Hly Hci Hr0)
          as (Hy & _ & lp' & ly & Hlp' & Hly' & Hlev').
        destruct (Hp _ _ _ He) as (r' & Hr' & Hrto & _).
        rewrite Hr0 in Hr'. inversion Hr'. subst r'.
        rewrite <- Hy, Hrto, Hlp in Hly'. inversion Hly'. subst ly.
        rewrite Hlx in Hlp'. inversion Hlp'. lia. }
    destruct (IH a2 a' Hp2 Hf2 Hf0 Hc2 Hpush) as (Hp' & Hf' & Hsh' & Hex').
    split; [exact Hp'|]. split; [exact Hf'|]. split; [congruence|].
    intros x. rewrite Hex', Hex2, Hto. simpl.
    destruct (x =? p), (x =? hd tip ps), (x =? tip); lia.
Qed.

Lemma bottleneck_chain (a : list (list Edge)) (lv cur : list Z) (tip : Z) (ps : list Z) :
  forall f0 f,
    chain 1 a lv cur ps tip -> 0 < f0 -> bottleneck a cur ps f0 = Ret f ->
    0 < f <= f0 /\ chain f a lv cur ps tip.
Proof.
  induction ps as [|p ps IH]; intros f0 f Hc Hf0 Hb; simpl in Hb.
  - inversion Hb. subst. simpl. split; [lia|exact I].
  - inv_ret Hb. apply at_Ret in Ec. apply edge_at_Ret in Ee.
    apply int_Ret in Er as [-> _].
    destruct Hc as [Hl Hc].
    destruct (link_functional _ _ _ _ _ _ _ _ Hl Ec Ee) as (Hto & Hfe & Hlev).
    assert (Hmin : 0 < Z.min f0 (cap e - flow e)) by lia.
    destruct (IH _ _ Hc Hmin Hb) as [Hf Hcf].
    split; [lia|]. split; [|exact Hcf].
    destruct Hlev as (lp & lq & H1 & H2 & H3).
    exists c, e, lp, lq. repeat split; auto. lia.
Qed.

(** ** The scan for an admissible record *)

Lemma scan_Ret (lv : list Z) (x : Z) (es : list Edge) :
  forall c0 c found,
    scan lv x es c0 = Ret (c, found) ->
    c0 <= c /\
    match found with
    | Some e =>
      exists k, es !! k = Some e /\ c = c0 + Z.of_nat k /\ flow e < cap e /\
                exists lu lt, zlookup lv x = Some lu /\ zlookup lv (to e) = Some lt /\
                              lu = lt + 1
    | None => True
    end.
Proof.
  induction es as [|e es IH]; intros c0 c found H; simpl in H.
  - inversion H. subst. split; [lia|exact I].
  - assert (Hnext : scan lv x es (c0 + 1) = Ret (c, found) ->
                    c0 <= c /\
                    match found with
                    | Some e0 =>
                      exists k, (e :: es) !! k = Some e0 /\ c = c0 + Z.of_nat k /\
                        flow e0 < cap e0 /\
                        exists lu lt, zlookup lv x = Some lu /\
                          zlookup lv (to e0) = Some lt /\ lu = lt + 1
                    | None => True
                    end).
    { intros H'. destruct (IH _ _ _ H') as [Hle Hf]. split; [lia|].
      destruct found as [e0|]; [|exact I].
      destruct Hf as (k & Hk & -> & Hrest). exists (S k). split; [exact Hk|].
      split; [lia|exact Hrest]. }
    destruct (Z.ltb_spec (flow e) (cap e)) as [Hres|Hres]; [|auto].
    inv_ret H. apply at_Ret in Elu, Elt. apply int_Ret in Ed as [-> _].
    destruct (Z.eqb_spec lu (lt + 1)) as [->|Hneq]; [|auto].
    inversion H. subst. split; [lia|].
    exists 0%nat. split; [reflexivity|]. split; [lia|]. split; [exact Hres|].
    eauto.
Qed.

(** ** One iteration of the main loop keeps the walk in order *)

Lemma INF_pos : 0 < INF.
Proof. unfold INF. lia. Qed.

Lemma augment_ok a0 s t w w' :
  walk_ok a0 s t w -> augment s t w = Ret w' -> walk_ok a0 s t w'.
Proof.
  intros Hw H. unfold augment in H.
  destruct (Z.eqb_spec (w_u w) t) as [Hu|Hu]; [|inversion H; subst; exact Hw].
  inv_ret H. apply int_Ret in Efl as [-> _].
  destruct Hw as [Hp Hf Hc Hst Hcur Hsh Hin Hval Hsink].
  destruct (bottleneck_chain _ _ _ _ _ _ _ Hc INF_pos Ef) as [Hpos Hcf].
  assert (Hnn : 0 <= f) by lia.
  destruct (push_chain _ _ _ _ _ _ _ Hp Hf Hnn Hcf Ea)
    as (Hp' & Hf' & Hsh' & Hex').
  constructor; simpl; auto.
  - congruence.
  - intros x Hxs Hxt. rewrite Hex', Hst.
    destruct (Z.eqb_spec x s), (Z.eqb_spec x (w_u w)); try congruence.
    rewrite Hin by auto. lia.
  - intros Hne. rewrite Hex', Hst, Z.eqb_refl.
    destruct (Z.eqb_spec s (w_u w)); [congruence|]. rewrite Hval by auto. lia.
  - intros Hne. rewrite Hex', Hst, Z.eqb_refl.
    destruct (Z.eqb_spec (w_u w) s); [congruence|]. rewrite Hsink by auto. lia.
Qed.

Lemma set_zlookup_ne {A} w (l : list A) i x l' j :
  set_ w l i x = Ret l' -> i <> j -> zlookup l' j = zlookup l j.
Proof. intros [Hi ->]%set_Ret Hne. apply zlookup_insert_ne; lia. Qed.

Lemma set_zlookup_eq {A} w (l : list A) i x l' :
  set_ w l i x = Ret l' -> zlookup l' i = Some x.
Proof. intros [Hi ->]%set_Ret. apply zlookup_insert_eq. exact Hi. Qed.

Lemma set_zlookup {A} w (l : list A) i x l' j y :
  set_ w l i x = Ret l' -> zlookup l' j = Some y ->
  (j = i /\ y = x) \/ (j <> i /\ zlookup l j = Some y).
Proof.
  intros Hs Hj. destruct (Z.eq_dec i j) as [->|Hne].
  - rewrite (set_zlookup_eq _ _ _ _ _ Hs) in Hj. inversion Hj. auto.
  - rewrite (set_zlookup_ne _ _ _ _ _ _ Hs Hne) in Hj. auto.
Qed.

(** Moving the cursor of the current node leaves the path linked. *)
Lemma walk_ok_cursor a0 s t w c cur1 :
  walk_ok a0 s t w -> 0 <= c -> set_ Vcur (w_cur w) (w_u w) c = Ret cur1 ->
  walk_ok a0 s t (mkWalk (w_adj w) (w_level w) (w_gap w) cur1 (w_path w) (w_u w) (w_flow w)).
Proof.
  intros [Hp Hf Hc Hst Hcur Hsh Hin Hval Hsink] Hc0 Hset.
  constructor; simpl; auto.
  - eapply chain_frame; [exact Hc| |auto|auto].
    intros p Hinp. eapply set_zlookup_ne; [exact Hset|].
    intros <-. exact (chain_tip_notin _ _ _ _ _ _ Hc Hinp).
  - intros x c' Hx. destruct (set_zlookup _ _ _ _ _ _ _ Hset Hx) as [[_ ->]|[_ Hx']];
      [exact Hc0|eauto].
Qed.

Lemma retreat_Ret nn w nx :
  retreat nn w = Ret nx ->
  exists au ml lu gl gp1,
    zlookup (w_adj w) (w_u w) = Some au /\
    min_level (w_level w) au nn = Ret ml /\
    zlookup (w_level w) (w_u w) = Some lu /\
    zlookup (w_gap w) lu = Some gl /\
    set_ Vgap (w_gap w) lu (gl - 1) = Ret gp1 /\
    ((gl - 1 = 0 /\
      nx = Break (mkWalk (w_adj w) (w_level w) gp1 (w_cur w) (w_path w)
                         (w_u w) (w_flow w))) \/
     (gl - 1 <> 0 /\
      exists lv1 g2 gp2 cur1,
        set_ Vlevel (w_level w) (w_u w) (ml + 1) = Ret lv1 /\
        zlookup gp1 (ml + 1) = Some g2 /\
        set_ Vgap gp1 (ml + 1) (g2 + 1) = Ret gp2 /\
        set_ Vcur (w_cur w) (w_u w) 0 = Ret cur1 /\
        nx = Continue
               match last (w_path w) with
               | Some p => mkWalk (w_adj w) lv1 gp2 cur1 (removelast (w_path w)) p (w_flow w)
               | None => mkWalk (w_adj w) lv1 gp2 cur1 [] (w_u w) (w_flow w)
               end)).
Proof.
  intros H. unfold retreat in H. inv_ret H.
  apply at_Ret in Eau, Elu, Egl. apply int_Ret in Egl' as [-> _].
  exists au, ml, lu, gl, gp1. do 5 (split; [assumption|]).
  destruct (Z.eqb_spec (gl - 1) 0) as [Hz|Hz].
  - left. inversion H. auto.
  - right. split; [exact Hz|]. inv_ret H.
    apply int_Ret in Enl as [-> _]. apply at_Ret in Eg2. apply int_Ret in Eg2' as [-> _].
    exists lv1, g2, gp2, cur1. do 4 (split; [assumption|]).
    destruct (last (w_path w)); inversion H; reflexivity.
Qed.

Lemma retreat_ok a0 s t nn w nx :
  walk_ok a0 s t w -> retreat nn w = Ret nx -> walk_ok a0 s t (next_walk nx).
Proof.
  intros Hw (au & ml & lu & gl & gp1 & Hau & Hml & Hlu & Hgl & Hgp1 & Hcase)%retreat_Ret.
  destruct Hw as [Hp Hf Hc Hst Hcur Hsh Hin Hval Hsink].
  destruct Hcase as [[_ ->]|(_ & lv1 & g2 & gp2 & cur1 & Hlv1 & Hg2 & Hgp2 & Hcur1 & ->)];
    simpl.
  { constructor; simpl; auto. }
  assert (Hcur' : forall x c, zlookup cur1 x = Some c -> 0 <= c).
  { intros x c Hx. destruct (set_zlookup _ _ _ _ _ _ _ Hcur1 Hx) as [[_ ->]|[_ Hx']];
      [lia|eauto]. }
  destruct (last (w_path w)) as [p|] eqn:Hlast.
  - pose proof (last_removelast _ _ Hlast) as Hpath.
    assert (Hnotin : forall x, In x (w_path w) -> x <> w_u w).
    { intros x Hx ->. exact (chain_tip_notin _ _ _ _ _ _ Hc Hx). }
    rewrite Hpath in Hc, Hst, Hnotin.
    constructor; simpl; auto.
    + apply chain_snoc_inv in Hc.
      eapply chain_frame; [exact Hc| | |].
      * intros q Hq. eapply set_zlookup_ne; [exact Hcur1|].
        intros Heq. apply (Hnotin q); [apply in_or_app; auto|auto].
      * auto.
      * intros x Hx. eapply set_zlookup_ne; [exact Hlv1|].
        intros Heq. apply (Hnotin x); auto.
    + rewrite hd_snoc in Hst. exact Hst.
  - apply last_None in Hlast. rewrite Hlast in *.
    constructor; simpl; auto.
Qed.

Lemma step_ok a0 s t nn w nx :
  walk_ok a0 s t w -> step s t nn w = Ret nx -> walk_ok a0 s t (next_walk nx).
Proof.
  intros Hw H. unfold step in H. inv_ret H.
  pose proof (augment_ok _ _ _ _ _ Hw Ew) as Hw1. clear Hw Ew.
  apply at_Ret in Ecu, Eau.
  destruct (scan_Ret _ _ _ _ _ _ Epat) as [Hle Hfound].
  assert (Hc0 : 0 <= x) by (pose proof (wk_cur _ _ _ _ Hw1 _ _ Ecu); lia).
  pose proof (walk_ok_cursor _ _ _ _ _ _ Hw1 Hc0 Ecur1) as Hw2.
  destruct y as [e|]; [|eapply retreat_ok; eauto].
  inversion H. subst nx. simpl. clear H.
  destruct Hfound as (k & Hk & -> & Hres & lu & lt & Hlu & Hlt & Hlev).
  destruct Hw2 as [Hp Hf Hc Hst Hcur Hsh Hin Hval Hsink]. simpl in *.
  constructor; simpl; auto.
  - apply chain_snoc; [exact Hc|].
    exists (cu + Z.of_nat k), e, lu, lt.
    split; [eapply set_zlookup_eq; eauto|].
    split; [|repeat split; auto; lia].
    unfold edge_of. rewrite Eau. apply zlookup_Some. split; [lia|].
    rewrite lookup_drop in Hk. rewrite <- Hk. f_equal.
    pose proof (wk_cur _ _ _ _ Hw1 _ _ Ecu). lia.
  - rewrite hd_snoc. exact Hst.
Qed.

(** ** The whole loop and the whole call *)

Lemma run_ok a0 s t nn fuel :
  forall w r, walk_ok a0 s t w -> run fuel s t nn w = Ret r -> walk_ok a0 s t (snd r).
Proof.
  induction fuel as [|fuel IH]; intros w r Hw H; simpl in H; inv_ret H.
  - destruct (ls <? nn); [discriminate|]. inversion H. subst. exact Hw.
  - destruct (ls <? nn); [|inversion H; subst; exact Hw].
    inv_ret H. pose proof (step_ok _ _ _ _ _ _ Hw Enx) as Hw'.
    destruct nx as [w'|w']; simpl in *.
    + eapply IH; eauto.
    + inversion H. subst. exact Hw'.
Qed.

Lemma bfs_Ret fuel g t g1 :
  bfs fuel g t = Ret g1 -> n g1 = n g /\ adj g1 = adj g.
Proof. unfold bfs. intros H. inv_ret H. simpl. auto. Qed.

Lemma vector_Ret {A} (k : Z) (x : A) (l : list A) :
  vector k x = Ret l -> 0 <= k /\ l = replicate (Z.to_nat k) x.
Proof.
  unfold vector. destruct (Z.leb_spec 0 k) as [Hk|Hk]; intros H; inversion H. auto.
Qed.

(** A call of [isap] that returns leaves the records paired, every flow
    antisymmetric and within its capacity, the shape untouched, the excess
    of every node other than [s] and [t] as it was, and that of [s] grown
    by the flow returned. *)
Lemma isap_ok fuel g s t r :
  paired (adj g) -> flows_ok (adj g) -> isap fuel g s t = Ret r ->
  paired (adj (snd r)) /\ flows_ok (adj (snd r)) /\
  shape (adj (snd r)) = shape (adj g) /\
  n (snd r) = n g /\
  (forall x, x <> s -> x <> t -> excess (adj (snd r)) x = excess (adj g) x) /\
  (s <> t -> excess (adj (snd r)) s = excess (adj g) s + fst r) /\
  (s <> t -> excess (adj (snd r)) t = excess (adj g) t - fst r).
Proof.
  intros Hp Hf H. unfold isap in H. inv_ret H.
  destruct (bfs_Ret _ _ _ _ Eg1) as [Hn Ha].
  destruct (ls =? -1).
  { inversion H. subst r. simpl. rewrite Ha.
    split; [exact Hp|]. split; [exact Hf|]. do 3 (split; [auto|]).
    split; intros; lia. }
  inv_ret H. simpl.
  apply vector_Ret in Ecur as [_ ->].
  assert (Hw : walk_ok (adj g) s t
                 (mkWalk (adj g1) (level g1) (gap g1)
                         (replicate (Z.to_nat (n g1)) 0) [] s 0)).
  { rewrite Ha. constructor; simpl; auto.
    - intros x c Hx. apply zlookup_replicate in Hx. lia.
    - intros. lia.
    - intros. lia. }
  destruct (run_ok _ _ _ _ _ _ _ Hw Er) as [Hp' Hf' _ _ _ Hsh Hin Hval Hsink].
  split; [exact Hp'|]. split; [exact Hf'|]. do 3 (split; [auto|]).
  split; [exact Hval|exact Hsink].
Qed.

(** ** Paired-flow symmetry and the capacity bound *)

Lemma reachable_paired_flows g :
  reachable g -> paired (adj g) /\ flows_ok (adj g).
Proof.
  induction 1 as [k g Hk Hc|g x y c g' Hr [Hp Hf] Hc Hadd|g fuel s t r Hr [Hp Hf] Hi].
  - split.
    + intros x i e He. rewrite (edge_of_create _ _ _ _ Hc) in He. discriminate.
    + intros x i e r He. rewrite (edge_of_create _ _ _ _ Hc) in He. discriminate.
  - split; [eapply add_edge_paired|eapply add_edge_flows_ok]; eauto.
  - destruct (isap_ok _ _ _ _ _ Hp Hf Hi) as (Hp' & Hf' & _). auto.
Qed.

Lemma add_edges_reachable es :
  forall g g', reachable g -> Forall (fun '(_, _, c) => 0 <= c) es ->
               add_edges g es = Ret g' -> reachable g'.
Proof.
  induction es as [|[[x y] c] es IH]; intros g g' Hr Hcs H; simpl in H.
  - inversion H. subst. exact Hr.
  - inv_ret H. inversion Hcs as [|? ? Hc Hcs']. subst.
    eapply IH; [|exact Hcs'|exact H]. eapply reach_add_edge; eauto.
Qed.

Lemma build_reachable k es g :
  INT_MIN <= k <= INT_MAX -> Forall (fun '(_, _, c) => 0 <= c) es ->
  build k es = Ret g -> reachable g.
Proof.
  intros Hk Hcs H. unfold build in H. inv_ret H.
  eapply add_edges_reachable; [|exact Hcs|exact H]. eapply reach_create; eauto.
Qed.

(** C4.  On every object a caller can hold (after the constructor, after
    every [add_edge] with a non-negative capacity, after every call of
    [isap] that returns), every record [e] has its paired record [r] at
    [(e.to, e.rev)] with [r.flow == -e.flow], and
    [-r.cap <= e.flow <= e.cap].  So every edge handed to [add_edge] (the
    forward record, whose paired reverse record has capacity 0) satisfies
    [0 <= flow <= cap], and its reverse record holds the negated flow. *)
Theorem paired_flows_antisymmetric_and_bounded (g : Isap) :
  reachable g ->
  forall x i e, edge_of (adj g) x i = Some e ->
    exists r, edge_of (adj g) (to e) (rev e) = Some r /\
              flow r = - flow e /\
              - cap r <= flow e <= cap e /\
              (cap r = 0 -> 0 <= flow e <= cap e).
Proof.
  intros [Hp Hf]%reachable_paired_flows x i e He.
  destruct (Hp _ _ _ He) as (r & Hr & _).
  destruct (Hp _ _ _ Hr) as (r' & Hr' & _).
  destruct (Hf _ _ _ _ He Hr) as [Hanti Hcap].
  destruct (Hf _ _ _ _ Hr Hr') as [_ Hcapr].
  exists r. split; [exact Hr|]. split; [exact Hanti|]. split; lia.
Qed.

Lemma graph1_after_reachable : reachable graph1_after.
Proof.
  assert (Hb : reachable graph1_built).
  { apply (build_reachable 4 graph1).
    - unfold INT_MIN, INT_MAX. lia.
    - unfold graph1. repeat constructor; lia.
    - vm_compute. reflexivity. }
  exact (reach_isap graph1_built 100 0 3 (12, graph1_after) Hb eq_refl).
Qed.

Lemma paired_flows_antisymmetric_and_bounded_witness :
  exists r, edge_of (adj graph1_after) 1 0 = Some r /\
            flow r = - 10 /\ - cap r <= 10 <= 10 /\ (cap r = 0 -> 0 <= 10 <= 10).
Proof.
  exact (paired_flows_antisymmetric_and_bounded graph1_after graph1_after_reachable
           0 0 (mkEdge 1 10 10 0) eq_refl).
Defined.

(** ** The vectors keep their lengths *)

Lemma set_length {A} w (l : list A) i x l' :
  set_ w l i x = Ret l' -> length l' = length l.
Proof. intros [_ ->]%set_Ret. apply length_insert. Qed.

Lemma bfs_edges_length a x es :
  forall lv gp q r,
    bfs_edges a x es lv gp q = Ret r ->
    length (fst (fst r)) = length lv /\ length (snd (fst r)) = length gp.
Proof.
  induction es as [|e es IH]; intros lv gp q r H; simpl in H.
  - inversion H. auto.
  - inv_ret H. destruct (lvv =? -1); [|eauto].
    inv_ret H. destruct (flow r0 <? cap r0); [|eauto].
    inv_ret H. destruct (IH _ _ _ _ H) as [H1 H2].
    rewrite H1, H2. split; eapply set_length; eauto.
Qed.

Lemma bfs_loop_length a fuel :
  forall lv gp q r,
    bfs_loop fuel a lv gp q = Ret r ->
    length (fst r) = length lv /\ length (snd r) = length gp.
Proof.
  induction fuel as [|fuel IH]; intros lv gp q r H; simpl in H.
  - destruct q; [|discriminate]. inversion H. auto.
  - destruct q as [|x q]; [inversion H; auto|].
    inv_ret H. destruct (IH _ _ _ _ H) as [H1 H2].
    destruct (bfs_edges_length _ _ _ _ _ _ _ Epat) as [H3 H4]. simpl in *.
    split; congruence.
Qed.

Lemma bfs_length fuel g t g1 :
  bfs fuel g t = Ret g1 ->
  length (level g1) = length (level g) /\ length (gap g1) = length (gap g).
Proof.
  unfold bfs. intros H. inv_ret H. simpl.
  destruct (bfs_loop_length _ _ _ _ _ _ Epat) as [H1 H2]. simpl in *.
  rewrite H1, H2, (set_length _ _ _ _ _ Elv1), (set_length _ _ _ _ _ Egp1).
  rewrite !length_replicate. auto.
Qed.

Lemma augment_length s t w w' :
  augment s t w = Ret w' ->
  w_level w' = w_level w /\ w_gap w' = w_gap w.
Proof.
  unfold augment. destruct (w_u w =? t); intros H; inv_ret H; auto.
Qed.

Lemma retreat_length nn w nx :
  retreat nn w = Ret nx ->
  length (w_level (next_walk nx)) = length (w_level w) /\
  length (w_gap (next_walk nx)) = length (w_gap w).
Proof.
  intros (au & ml & lu & gl & gp1 & _ & _ & _ & _ & Hgp1 & Hcase)%retreat_Ret.
  pose proof (set_length _ _ _ _ _ Hgp1) as H1.
  destruct Hcase as [[_ ->]|(_ & lv1 & g2 & gp2 & cur1 & Hlv1 & _ & Hgp2 & _ & ->)];
    simpl; [auto|].
  pose proof (set_length _ _ _ _ _ Hlv1). pose proof (set_length _ _ _ _ _ Hgp2).
  destruct (last (w_path w)); simpl; split; congruence.
Qed.

Lemma step_length s t nn w nx :
  step s t nn w = Ret nx ->
  length (w_level (next_walk nx)) = length (w_level w) /\
  length (w_gap (next_walk nx)) = length (w_gap w).
Proof.
  unfold step. intros H. inv_ret H.
  destruct (augment_length _ _ _ _ Ew) as [H1 H2]. rewrite <- H1, <- H2.
  destruct y as [e|].
  - inversion H. simpl. auto.
  - apply retreat_length in H. simpl in H. exact H.
Qed.

Lemma run_length s t nn fuel :
  forall w r, run fuel s t nn w = Ret r ->
    length (w_level (snd r)) = length (w_level w) /\
    length (w_gap (snd r)) = length (w_gap w).
Proof.
  induction fuel as [|fuel IH]; intros w r H; simpl in H; inv_ret H.
  - destruct (ls <? nn); [discriminate|]. inversion H. auto.
  - destruct (ls <? nn); [|inversion H; auto].
    inv_ret H. destruct (step_length _ _ _ _ _ Enx) as [H1 H2].
    destruct nx as [w'|w']; simpl in *.
    + destruct (IH _ _ H) as [H3 H4]. split; congruence.
    + inversion H. simpl. auto.
Qed.

Lemma shape_length a a' : shape a = shape a' -> length a = length a'.
Proof.
  unfold shape. intros H. apply (f_equal length) in H.
  rewrite !length_fmap in H. exact H.
Qed.

Lemma reachable_sized g : reachable g -> sized g.
Proof.
  unfold sized, size.
  induction 1 as [k g Hk Hc|g x y c g' Hr IH Hc Hadd|g fuel s t r Hr IH Hi].
  - apply create_Ret in Hc as (H0 & -> & -> & -> & ->).
    rewrite !length_replicate. lia.
  - destruct (add_edge_Ret _ _ _ _ _ Hadd)
      as (au & av & a1 & av1 & _ & _ & Hs1 & _ & _ & Hs2 & -> & -> & ->).
    rewrite (set_length _ _ _ _ _ Hs2), (set_length _ _ _ _ _ Hs1). exact IH.
  - destruct (reachable_paired_flows _ Hr) as [Hp Hf].
    destruct (isap_ok _ _ _ _ _ Hp Hf Hi) as (_ & _ & Hsh & Hn & _).
    rewrite (shape_length _ _ Hsh), Hn.
    unfold isap in Hi. inv_ret Hi.
    destruct (bfs_length _ _ _ _ Eg1) as [H1 H2].
    destruct (ls =? -1).
    + inversion Hi. subst r. simpl in *. rewrite H1, H2. lia.
    + inv_ret Hi. simpl in *.
      destruct (run_length _ _ _ _ _ _ Er) as [H3 H4]. simpl in *.
      rewrite H3, H4, H1, H2. lia.
Qed.

(** ** The labeling reaches only nodes with a residual path to the sink *)

Lemma unlabelled_replicate (k : nat) : unlabelled (replicate k (-1)) = k.
Proof. induction k as [|k IH]; simpl; [reflexivity|]. rewrite IH. reflexivity. Qed.

Lemma unlabelled_insert (lv : list Z) (i : nat) (d : Z) :
  lv !! i = Some (-1) -> d <> -1 ->
  S (unlabelled (<[i := d]> lv)) = unlabelled lv.
Proof.
  revert i. induction lv as [|l lv IH]; intros i Hi Hd; [discriminate|].
  destruct i as [|i]; simpl in *.
  - inversion Hi. subst l. destruct (Z.eqb_spec d (-1)); [congruence|]. reflexivity.
  - rewrite <- (IH i Hi Hd). lia.
Qed.

Lemma unlabelled_le (lv : list Z) : (unlabelled lv <= length lv)%nat.
Proof. induction lv as [|l lv IH]; simpl; [lia|]. destruct (l =? -1); lia. Qed.

Lemma labelled_set (lv : list Z) (y d : Z) (lv' : list Z) (x : Z) :
  zlookup lv y = Some (-1) -> set_ Vlevel lv y d = Ret lv' ->
  labelled lv x -> labelled lv' x.
Proof.
  intros Hy Hset (l & Hl & Hne). exists l. split; [|exact Hne].
  rewrite (set_zlookup_ne _ _ _ _ _ _ Hset); [exact Hl|].
  intros <-. rewrite Hy in Hl. inversion Hl. congruence.
Qed.

Lemma zlookup_length_eq {A B} (l : list A) (l' : list B) (i : Z) (x : A) :
  length l' = length l -> zlookup l i = Some x -> exists y, zlookup l' i = Some y.
Proof.
  intros Hlen Hx. apply zlookup_in_range. apply zlookup_lt in Hx.
  unfold size in *. lia.
Qed.

Section Labeling.
Variable a : list (list Edge).
Variable t : Z.
Hypothesis Hpaired : paired a.
Hypothesis Hsmall : size a <= INT_MAX.

(** The [for] loop over the records of a labelled node [x]. *)
Lemma bfs_edges_ok (x : Z) (es : list Edge) :
  forall lv gp q,
    bfs_ok a t lv gp -> labelled lv x ->
    (forall e, In e es -> exists i, edge_of a x i = Some e) ->
    Forall (labelled lv) q ->
    exists lv' gp' q',
      bfs_edges a x es lv gp q = Ret (lv', gp', q') /\
      bfs_ok a t lv' gp' /\ Forall (labelled lv') q' /\
      (length q' + unlabelled lv' = length q + unlabelled lv)%nat.
Proof.
  induction es as [|e es IH]; intros lv gp q Hok Hx Hes Hq.
  - exists lv, gp, q. simpl. auto.
  - destruct (Hes e (or_introl eq_refl)) as [i He].
    destruct (Hpaired _ _ _ He) as (r & Hr & Hrto & _).
    assert (Hes' : forall e', In e' es -> exists i', edge_of a x i' = Some e')
      by (intros; apply Hes; right; assumption).
    destruct (edge_of_row _ _ _ _ Hr) as (row & Hrow & _).
    destruct (zlookup_length_eq a lv (to e) row (bo_len_lv _ _ _ _ Hok) Hrow)
      as [lvv Hlvv].
    simpl. rewrite (at_zlookup _ _ _ _ Hlvv). simpl.
    destruct (Z.eqb_spec lvv (-1)) as [->|Hlab]; [|apply IH; auto].
    rewrite (proj2 (edge_at_Ret _ _ _ _) Hr). simpl.
    destruct (Z.ltb_spec (flow r) (cap r)) as [Hres|Hres]; [|apply IH; auto].
    destruct Hx as (lx & Hlx & Hlxne).
    rewrite (at_zlookup _ _ _ _ Hlx). simpl.
    destruct (bo_level _ _ _ _ Hok _ _ Hlx) as [?|Hlxr]; [congruence|].
    pose proof Hlvv as [Hto0 Hlvv']%zlookup_Some.
    pose proof (unlabelled_insert lv _ (lx + 1) Hlvv' ltac:(lia)) as Hun.
    pose proof (unlabelled_le lv) as Hunle.
    pose proof (bo_len_lv _ _ _ _ Hok) as Hlen1.
    pose proof (bo_len_gp _ _ _ _ Hok) as Hlen2.
    unfold size in *.
    rewrite int_in_range by (unfold INT_MIN; lia).
    simpl. assert (Hset : set_ Vlevel lv (to e) (lx + 1)
                          = Ret (<[Z.to_nat (to e) := lx + 1]> lv)).
    { apply set_in_range. eapply zlookup_lt; eauto. }
    rewrite Hset. simpl.
    destruct (zlookup_in_range gp (lx + 1)) as [gd Hgd]; [unfold size; lia|].
    rewrite (at_zlookup _ _ _ _ Hgd). simpl.
    pose proof (bo_gap _ _ _ _ Hok _ _ Hgd) as Hgdr. unfold size in Hgdr.
    rewrite int_in_range by (unfold INT_MIN; lia). simpl.
    assert (Hsetg : set_ Vgap gp (lx + 1) (gd + 1)
                    = Ret (<[Z.to_nat (lx + 1) := gd + 1]> gp)).
    { apply set_in_range. eapply zlookup_lt; eauto. }
    rewrite Hsetg. simpl.
    destruct (IH (<[Z.to_nat (to e) := lx + 1]> lv)
                 (<[Z.to_nat (lx + 1) := gd + 1]> gp) (q ++ [to e]))
      as (lv' & gp' & q' & Hrun & Hok' & Hq' & Hlen); [| |exact Hes'| |].
    4: { exists lv', gp', q'. do 3 (split; [assumption|]).
         rewrite Hlen, length_app. simpl. lia. }
    + constructor.
      * rewrite length_insert. exact Hlen1.
      * rewrite length_insert. exact Hlen2.
      * intros y l Hy. unfold size.
        destruct (set_zlookup _ _ _ _ _ _ _ Hset Hy) as [[_ ->]|[_ Hy']].
        -- right. lia.
        -- destruct (bo_level _ _ _ _ Hok _ _ Hy') as [?|Hb]; [auto|].
           unfold size in Hb. right. lia.
      * intros d c Hd. unfold size.
        destruct (set_zlookup _ _ _ _ _ _ _ Hsetg Hd) as [[_ ->]|[_ Hd']].
        -- lia.
        -- pose proof (bo_gap _ _ _ _ Hok _ _ Hd') as Hb. unfold size in Hb. lia.
      * intros y (l & Hy & Hne).
        destruct (set_zlookup _ _ _ _ _ _ _ Hset Hy) as [[-> _]|[_ Hy']].
        -- eapply rtc_l.
           ++ exists (rev e), r. split; [exact Hr|]. split; [exact Hrto|exact Hres].
           ++ apply (bo_reach _ _ _ _ Hok). exists lx. auto.
        -- apply (bo_reach _ _ _ _ Hok). exists l. auto.
    + eapply labelled_set; eauto. exists lx. auto.
    + apply Forall_app. split.
      * eapply Forall_impl; [exact Hq|]. intros y Hy. eapply labelled_set; eauto.
      * constructor; [|constructor]. exists (lx + 1).
        split; [eapply set_zlookup_eq; eauto|lia].
Qed.

(** The queue loop, given fuel for every node still to be dequeued. *)
Lemma bfs_loop_ok (fuel : nat) :
  forall lv gp q,
    bfs_ok a t lv gp -> Forall (labelled lv) q ->
    (length q + unlabelled lv <= fuel)%nat ->
    exists lv' gp', bfs_loop fuel a lv gp q = Ret (lv', gp') /\ bfs_ok a t lv' gp'.
Proof.
  induction fuel as [|fuel IH]; intros lv gp q Hok Hq Hfuel.
  - destruct q; [|simpl in Hfuel; lia]. exists lv, gp. simpl. auto.
  - destruct q as [|x q]; [exists lv, gp; simpl; auto|].
    inversion Hq as [|? ? Hx Hq']. subst.
    destruct Hx as (lx & Hlx & Hlxne).
    destruct (zlookup_length_eq lv a x lx (eq_sym (bo_len_lv _ _ _ _ Hok)) Hlx)
      as [au Hau].
    simpl. rewrite (at_zlookup _ _ _ _ Hau). simpl.
    destruct (bfs_edges_ok x au lv gp q Hok) as (lv' & gp' & q' & Hrun & Hok' & Hq'' & Hlen).
    + exists lx. auto.
    + intros e He. apply list_elem_of_In, list_elem_of_lookup in He as [i Hi].
      exists (Z.of_nat i). unfold edge_of. rewrite Hau.
      apply zlookup_Some. rewrite Nat2Z.id. split; [lia|exact Hi].
    + exact Hq'.
    + rewrite Hrun. simpl. apply IH; auto. simpl in Hfuel. lia.
Qed.

Lemma bfs_ok_total (fuel : nat) (g : Isap) :
  adj g = a -> length (level g) = length a -> length (gap g) = length a ->
  0 <= t < size a -> (length a <= fuel)%nat ->
  exists lv gp, bfs fuel g t = Ret (mkIsap (n g) a lv gp) /\ bfs_ok a t lv gp.
Proof.
  intros Ha Hl1 Hl2 Ht Hfuel. unfold bfs. rewrite Ha, Hl1, Hl2.
  unfold size in Ht.
  assert (Hs1 : set_ Vlevel (replicate (length a) (-1)) t 0
                = Ret (<[Z.to_nat t := 0]> (replicate (length a) (-1)))).
  { apply set_in_range. unfold size. rewrite length_replicate. lia. }
  assert (Hs2 : set_ Vgap (replicate (length a) 0) 0 1
                = Ret (<[Z.to_nat 0 := 1]> (replicate (length a) 0))).
  { apply set_in_range. unfold size. rewrite length_replicate. lia. }
  rewrite Hs1, Hs2. simpl.
  assert (Hun : S (unlabelled (<[Z.to_nat t := 0]> (replicate (length a) (-1))))
                = length a).
  { rewrite unlabelled_insert; [apply unlabelled_replicate| |lia].
    apply lookup_replicate. split; [reflexivity|lia]. }
  destruct (bfs_loop_ok fuel (<[Z.to_nat t := 0]> (replicate (length a) (-1)))
              (<[Z.to_nat 0 := 1]> (replicate (length a) 0)) [t])
    as (lv & gp & Hrun & Hok).
  - constructor.
    + rewrite length_insert, length_replicate. reflexivity.
    + rewrite length_insert, length_replicate. reflexivity.
    + intros x l Hx.
      destruct (set_zlookup _ _ _ _ _ _ _ Hs1 Hx) as [[_ ->]|[_ Hx']].
      * right. unfold size. lia.
      * left. eapply zlookup_replicate; eauto.
    + intros d c Hd.
      destruct (set_zlookup _ _ _ _ _ _ _ Hs2 Hd) as [[_ ->]|[_ Hd']].
      * unfold size. lia.
      * apply zlookup_replicate in Hd'. unfold size. lia.
    + intros x (l & Hx & Hne).
      destruct (set_zlookup _ _ _ _ _ _ _ Hs1 Hx) as [[-> _]|[_ Hx']].
      * apply rtc_refl.
      * apply zlookup_replicate in Hx'. congruence.
  - constructor; [|constructor]. exists 0.
    split; [eapply set_zlookup_eq; eauto|lia].
  - simpl. lia.
  - rewrite Hrun. simpl. eauto.
Qed.

End Labeling.

(** ** A sink out of reach *)

(** C5.  On every object a caller can hold, for nodes [s] and [t] of the
    graph with no residual path from [s] to [t], [isap(s, t)] returns 0 and
    leaves the adjacency lists (so every flow) as they were; fuel for one
    dequeue per node is enough. *)
Theorem unreachable_sink_returns_0 (g : Isap) (s t : Z) (fuel : nat) :
  reachable g -> 0 <= s < n g -> 0 <= t < n g ->
  ~ reach (adj g) s t -> (Z.to_nat (n g) <= fuel)%nat ->
  exists lv gp, isap fuel g s t = Ret (0, mkIsap (n g) (adj g) lv gp).
Proof.
  intros Hr Hs Ht Hno Hfuel.
  destruct (reachable_paired_flows _ Hr) as [Hp _].
  destruct (reachable_sized _ Hr) as (Hn & Ha & Hl & Hg).
  unfold size in *.
  destruct (bfs_ok_total (adj g) t Hp ltac:(unfold size; lia) fuel g eq_refl)
    as (lv & gp & Hbfs & Hok); try (unfold size; lia).
  exists lv, gp. unfold isap. rewrite Hbfs. simpl.
  destruct (zlookup_in_range lv s) as [l Hl'].
  { unfold size. rewrite (bo_len_lv _ _ _ _ Hok). lia. }
  rewrite (at_zlookup _ _ _ _ Hl'). simpl.
  destruct (Z.eqb_spec l (-1)) as [_|Hne]; [reflexivity|].
  exfalso. apply Hno. apply (bo_reach _ _ _ _ Hok). exists l. auto.
Qed.

Lemma zlookup_In {A} (l : list A) (i : Z) (x : A) : zlookup l i = Some x -> In x l.
Proof.
  intros [_ H]%zlookup_Some. apply list_elem_of_In. eapply list_elem_of_lookup_2. exact H.
Qed.

Lemma graph3_no_path : ~ reach (adj graph3_built) 0 2.
Proof.
  assert (H : forall y, reach (adj graph3_built) 0 y -> y = 0 \/ y = 1).
  { unfold reach. apply (rtc_ind_r (fun y => y = 0 \/ y = 1) 0); [auto|].
    intros y z Hy Hstep IH.
    destruct Hstep as (i & e & He & Hto & Hres).
    apply edge_of_row in He as (row & Hrow & He). apply zlookup_In in He.
    destruct IH as [ -> | -> ]; vm_compute in Hrow; inversion Hrow; subst row;
      destruct He as [ <- | [] ]; simpl in *; lia. }
  intros Hr. apply H in Hr. lia.
Qed.

Lemma graph3_reachable : reachable graph3_built.
Proof.
  apply (build_reachable 3 [(0,1,10)]).
  - unfold INT_MIN, INT_MAX. lia.
  - repeat constructor; lia.
  - vm_compute. reflexivity.
Qed.

Lemma unreachable_sink_returns_0_witness :
  exists lv gp, isap 3 graph3_built 0 2 = Ret (0, mkIsap 3 (adj graph3_built) lv gp).
Proof.
  apply (unreachable_sink_returns_0 graph3_built 0 2 3 graph3_reachable).
  - simpl. lia.
  - simpl. lia.
  - exact graph3_no_path.
  - simpl. lia.
Defined.

(** ** The flows of a built graph, call by call *)

Lemma net_out_cons (x y f : Z) (l : list (Z * Z * Z)) (w : Z) :
  net_out ((x, y, f) :: l) w
  = (if x =? w then f else 0) - (if y =? w then f else 0) + net_out l w.
Proof. reflexivity. Qed.

Lemma net_out_app (l1 l2 : list (Z * Z * Z)) (w : Z) :
  net_out (l1 ++ l2) w = net_out l1 w + net_out l2 w.
Proof. unfold net_out. rewrite map_app, sumZ_app. reflexivity. Qed.

Lemma add_edges_excess cs :
  forall g g' w, add_edges g cs = Ret g' -> excess (adj g') w = excess (adj g) w.
Proof.
  induction cs as [|[[x y] c] cs IH]; intros g g' w H; simpl in H.
  - inversion H. reflexivity.
  - inv_ret H. rewrite (IH _ _ w H). eapply add_edge_excess; eauto.
Qed.

Lemma create_excess k g w : create k = Ret g -> excess (adj g) w = 0.
Proof.
  intros (_ & _ & -> & _)%create_Ret. unfold excess.
  destruct (zlookup _ w) as [row|] eqn:Hrow; [|reflexivity].
  apply zlookup_replicate in Hrow. subst. reflexivity.
Qed.

Lemma rowlen_create k g w : create k = Ret g -> rowlen (adj g) w = 0%nat.
Proof.
  intros (_ & _ & -> & _)%create_Ret. unfold rowlen.
  destruct (zlookup _ w) as [row|] eqn:Hrow; [|reflexivity].
  apply zlookup_replicate in Hrow. subst. reflexivity.
Qed.

Lemma add_edges_edge_mono cs :
  forall g g' z j e, add_edges g cs = Ret g' ->
    edge_of (adj g) z j = Some e -> edge_of (adj g') z j = Some e.
Proof.
  induction cs as [|[[x y] c] cs IH]; intros g g' z j e H He; simpl in H.
  - inversion H. subst. exact He.
  - inv_ret H. eapply IH; [exact H|].
    destruct (add_edge_edges _ _ _ _ _ Eg') as (su & sv & _ & _ & Hspec).
    apply Hspec. auto.
Qed.

Lemma rowlen_shape a a' w : shape a = shape a' -> rowlen a w = rowlen a' w.
Proof.
  intros Hs. unfold rowlen, zlookup. destruct (0 <=? w); [|reflexivity].
  assert (H : shape a !! Z.to_nat w = shape a' !! Z.to_nat w) by (rewrite Hs; reflexivity).
  unfold shape in H. rewrite !list_lookup_fmap in H.
  destruct (a !! Z.to_nat w) as [row|], (a' !! Z.to_nat w) as [row'|];
    simpl in H; try discriminate; [|reflexivity].
  inversion H as [H']. apply (f_equal length) in H'. rewrite !length_fmap in H'.
  exact H'.
Qed.

Lemma rowlen_add_edge g x y c g' w :
  add_edge g x y c = Ret g' ->
  rowlen (adj g') w
  = (rowlen (adj g) w + (if (w =? x)%Z then 1 else 0)
     + (if (w =? y)%Z then 1 else 0))%nat.
Proof.
  intros (au & av & a1 & av1 & Hau & Hav & Hs1 & Hav1 & Hsz & Hs2 & _)%add_edge_Ret.
  destruct (push_back_rows _ _ _ _ _ Hau Hs1) as [_ Hr1].
  destruct (push_back_rows _ _ _ _ _ Hav1 Hs2) as [_ Hr2].
  unfold rowlen. rewrite Hr2.
  pose proof (Hr1 w) as Hw1. pose proof (Hr1 y) as Hy1. rewrite Hav1 in Hy1.
  destruct (Z.eqb_spec w y) as [->|Hwy].
  - rewrite length_app. simpl.
    destruct (Z.eqb_spec y x) as [->|Hyx].
    + inversion Hy1. rewrite Hau, length_app. simpl. lia.
    + rewrite <- Hy1. lia.
  - rewrite Hw1. destruct (Z.eqb_spec w x) as [->|Hwx].
    + rewrite Hau, length_app. simpl. lia.
    + lia.
Qed.

Lemma pre_all a w k : (rowlen a w <= k)%nat -> pre a w k = excess a w.
Proof.
  unfold rowlen, pre, excess. destruct (zlookup a w) as [row|]; [|reflexivity].
  intros H. rewrite take_ge by exact H. reflexivity.
Qed.

Lemma pre_S a w k e :
  edge_of a w (Z.of_nat k) = Some e -> pre a w (S k) = pre a w k + flow e.
Proof.
  intros (row & Hrow & He)%edge_of_row. unfold pre. rewrite Hrow.
  apply zlookup_Some in He as [_ He]. rewrite Nat2Z.id in He.
  rewrite (take_S_r _ _ _ He), map_app, sumZ_app. unfold sumZ. simpl. lia.
Qed.

Lemma rowlen_size a w row : zlookup a w = Some row -> Z.of_nat (rowlen a w) = size row.
Proof. intros H. unfold rowlen. rewrite H. reflexivity. Qed.

(** Every call [(x, y, c)] of [add_edge] left a forward record; its flow
    [f] satisfies [0 <= f <= c], and the excess of a node beyond the
    records it had before the calls is the net outflow of these flows. *)
Lemma flows_of_calls cs :
  forall g0 g a3,
    paired a3 -> flows_ok a3 ->
    add_edges g0 cs = Ret g -> shape a3 = shape (adj g) ->
    exists xs,
      Forall2 (fun '(_, _, c) f => 0 <= f <= c) cs xs /\
      forall w, excess a3 w
                = pre a3 w (rowlen (adj g0) w) + net_out (assign cs xs) w.
Proof.
  induction cs as [|[[x y] c] cs IH]; intros g0 g a3 Hp Hf H Hsh; simpl in H.
  - inversion H. subst g0. exists []. split; [constructor|].
    intros w. rewrite pre_all by (rewrite (rowlen_shape _ _ w Hsh); lia).
    unfold net_out, sumZ. simpl. lia.
  - inv_ret H. rename g' into g1, Eg' into Hadd.
    destruct (IH _ _ _ Hp Hf H Hsh) as (xs & Hxs & Hex).
    destruct (add_edge_edges _ _ _ _ _ Hadd)
      as (su & sv & (au & Hau & ->) & (av & Hav & ->) & Hspec).
    assert (Hfwd1 : edge_of (adj g1) x (size au) = Some (mkEdge y c 0 (size av)))
      by (apply Hspec; auto).
    assert (Hbwd1 : edge_of (adj g1) y (size av + (if x =? y then 1 else 0))
                    = Some (mkEdge x 0 0 (size au)))
      by (apply Hspec; auto).
    apply (add_edges_edge_mono _ _ _ _ _ _ H) in Hfwd1, Hbwd1.
    destruct (shape_edge _ _ _ _ _ (eq_sym Hsh) Hfwd1) as (ef & Hef & Hfto & Hfcap & Hfrev).
    destruct (shape_edge _ _ _ _ _ (eq_sym Hsh) Hbwd1) as (eb & Heb & Hbto & Hbcap & Hbrev).
    simpl in *.
    assert (Hflows : flow eb = - flow ef /\ 0 <= flow ef <= c).
    { destruct (Z.eqb_spec x y) as [->|Hne].
      - rewrite Hau in Hav. inversion Hav. subst av.
        assert (Hself : edge_of a3 (to ef) (rev ef) = Some ef) by (rewrite Hfto, Hfrev; exact Hef).
        destruct (Hf _ _ _ _ Hef Hself) as [H1 H2].
        assert (Hpart : edge_of a3 (to eb) (rev eb) = Some ef) by (rewrite Hbto, Hbrev; exact Hef).
        destruct (Hf _ _ _ _ Heb Hpart) as [H3 H4]. lia.
      - rewrite Z.add_0_r in Heb.
        assert (Hpart : edge_of a3 (to ef) (rev ef) = Some eb) by (rewrite Hfto, Hfrev; exact Heb).
        destruct (Hf _ _ _ _ Hef Hpart) as [H1 H2].
        assert (Hpart' : edge_of a3 (to eb) (rev eb) = Some ef) by (rewrite Hbto, Hbrev; exact Hef).
        destruct (Hf _ _ _ _ Heb Hpart') as [H3 H4]. lia. }
    destruct Hflows as [Hanti Hbound].
    exists (flow ef :: xs). split; [constructor; assumption|].
    intros w. rewrite Hex. simpl. rewrite net_out_cons.
    rewrite (rowlen_add_edge _ _ _ _ _ w Hadd).
    pose proof (rowlen_size _ _ _ Hau) as Hlu. pose proof (rowlen_size _ _ _ Hav) as Hlv.
    rewrite <- Hlu in Hef. rewrite <- Hlv in Heb.
    destruct (Z.eq_dec w x) as [Hwx|Hwx]; destruct (Z.eq_dec w y) as [Hwy|Hwy].
    + destruct Hwx. destruct Hwy. rewrite ?Z.eqb_refl in *.
      replace (rowlen (adj g0) w + 1 + 1)%nat with (S (S (rowlen (adj g0) w))) by lia.
      rewrite (pre_S a3 w (S (rowlen (adj g0) w)) eb)
        by (rewrite Nat2Z.inj_succ; unfold Z.succ; exact Heb).
      rewrite (pre_S a3 w _ ef Hef). lia.
    + destruct Hwx. rewrite ?Z.eqb_refl in *.
      destruct (Z.eqb_spec w y); [congruence|]. destruct (Z.eqb_spec y w); [congruence|].
      replace (rowlen (adj g0) w + 1 + 0)%nat with (S (rowlen (adj g0) w)) by lia.
      rewrite (pre_S a3 w _ ef Hef). lia.
    + destruct Hwy. rewrite ?Z.eqb_refl in *.
      destruct (Z.eqb_spec w x); [congruence|]. destruct (Z.eqb_spec x w); [congruence|].
      replace (rowlen (adj g0) w + 0 + 1)%nat with (S (rowlen (adj g0) w)) by lia.
      rewrite Z.add_0_r in Heb. rewrite (pre_S a3 w _ eb Heb). lia.
    + destruct (Z.eqb_spec w x); [congruence|]. destruct (Z.eqb_spec w y); [congruence|].
      destruct (Z.eqb_spec x w); [congruence|]. destruct (Z.eqb_spec y w); [congruence|].
      replace (rowlen (adj g0) w + 0 + 0)%nat with (rowlen (adj g0) w) by lia. lia.
Qed.

(** ** The feasibility reduction *)

Lemma bump (which : Vec) (d : list Z) (i y k : Z) (d' : list Z) :
  zlookup d i = Some y -> set_ which d i (y + k) = Ret d' ->
  forall w x0, zlookup d w = Some x0 ->
               zlookup d' w = Some (x0 + (if i =? w then k else 0)).
Proof.
  intros Hi Hset w x0 Hw. destruct (Z.eqb_spec i w) as [->|Hne].
  - rewrite (set_zlookup_eq _ _ _ _ _ Hset). congruence.
  - rewrite (set_zlookup_ne _ _ _ _ _ _ Hset Hne), Hw. f_equal. lia.
Qed.

(** The [demand] vector: minus the net outflow of the lower bounds. *)
Lemma demands_Ret edges :
  forall d0 d,
    demands edges d0 = Ret d ->
    length d = length d0 /\
    Forall (fun e => 0 <= u e < size d0 /\ 0 <= v e < size d0) edges /\
    forall w x0, zlookup d0 w = Some x0 ->
                 zlookup d w = Some (x0 - net_out (lowers edges) w).
Proof.
  induction edges as [|e es IH]; intros d0 d H; simpl in H.
  - inversion H. subst. split; [reflexivity|]. split; [constructor|].
    intros w x0 Hw. rewrite Hw. unfold net_out, sumZ. simpl. f_equal. lia.
  - inv_ret H. apply at_Ret in Edu, Edv.
    apply int_Ret in Ex as [-> _]. apply int_Ret in Ey as [-> _].
    destruct (IH _ _ H) as (Hlen & Hrange & Hval).
    pose proof (set_length _ _ _ _ _ Ed1) as Hl1.
    pose proof (set_length _ _ _ _ _ Ed2) as Hl2.
    split; [congruence|]. split.
    + constructor.
      * apply zlookup_lt in Edu, Edv. unfold size in *. lia.
      * eapply Forall_impl; [exact Hrange|]. intros e' He'.
        unfold size in *. simpl in He'. lia.
    + intros w x0 Hw.
      pose proof (bump _ _ _ _ (- lower e) _ Edu Ed1 w x0 Hw) as H1.
      pose proof (bump _ _ _ _ (lower e) _ Edv Ed2 w _ H1) as H2.
      rewrite (Hval _ _ H2). f_equal. unfold lowers. simpl. rewrite net_out_cons.
      fold (lowers es). destruct (u e =? w), (v e =? w); lia.
Qed.

Lemma add_edges_app l1 :
  forall l2 g, add_edges g (l1 ++ l2) = do g1 <- add_edges g l1; add_edges g1 l2.
Proof.
  induction l1 as [|[[x y] c] l1 IH]; intros l2 g; simpl; [reflexivity|].
  destruct (add_edge g x y c) as [g'| |]; simpl; [apply IH|reflexivity|reflexivity].
Qed.

Lemma slack_edges_calls edges :
  forall g g', slack_edges g edges = Ret g' ->
               add_edges g (slack_calls edges) = Ret g'.
Proof.
  induction edges as [|e es IH]; intros g g' H; simpl in H.
  - inversion H. reflexivity.
  - inv_ret H. apply int_Ret in Ec as [-> _].
    unfold slack_calls. simpl. fold (slack_calls es).
    destruct (0 <? upper e - lower e).
    + inv_ret H. simpl. rewrite Eg'. simpl. apply IH. exact H.
    + simpl. apply IH. exact H.
Qed.

Lemma demand_edges_calls SS TT demand nodes :
  forall g total r,
    demand_edges g SS TT demand nodes total = Ret r ->
    add_edges g (demand_calls SS TT demand nodes) = Ret (fst r) /\
    snd r = total + pos_sum demand nodes.
Proof.
  induction nodes as [|i nodes IH]; intros g total r H; simpl in H.
  - inversion H. simpl. unfold pos_sum, sumZ. simpl. split; [reflexivity|lia].
  - inv_ret H. apply at_Ret in Ed.
    unfold demand_calls, pos_sum. simpl.
    fold (demand_calls SS TT demand nodes). fold (pos_sum demand nodes).
    assert (Hd : demand_at demand i = d) by (unfold demand_at; rewrite Ed; reflexivity).
    rewrite !Hd. unfold demand_call.
    destruct (Z.ltb_spec 0 d) as [Hpos|Hpos].
    + inv_ret H. apply int_Ret in Etotal' as [-> _].
      destruct (IH _ _ _ H) as [H1 H2]. simpl. rewrite Eg'. simpl.
      split; [exact H1|]. rewrite H2. unfold sumZ. simpl. lia.
    + destruct (Z.ltb_spec d 0) as [Hneg|Hneg].
      * inv_ret H. apply int_Ret in Em as [-> _].
        destruct (IH _ _ _ H) as [H1 H2]. simpl. rewrite Eg'. simpl.
        split; [exact H1|]. rewrite H2. unfold sumZ. simpl. lia.
      * destruct (IH _ _ _ H) as [H1 H2]. simpl.
        split; [exact H1|]. rewrite H2. unfold sumZ. simpl. lia.
Qed.

(** ** Sums over the nodes *)

Lemma sumZ_map_add {A} (f g : A -> Z) (l : list A) :
  sumZ (map (fun x => f x + g x) l) = sumZ (map f l) + sumZ (map g l).
Proof. unfold sumZ. induction l as [|x l IH]; simpl; lia. Qed.

Lemma sumZ_map_opp {A} (f : A -> Z) (l : list A) :
  sumZ (map (fun x => - f x) l) = - sumZ (map f l).
Proof. unfold sumZ. induction l as [|x l IH]; simpl; lia. Qed.

Lemma sumZ_map_ext {A} (f g : A -> Z) (l : list A) :
  (forall x, In x l -> f x = g x) -> sumZ (map f l) = sumZ (map g l).
Proof.
  unfold sumZ. induction l as [|x l IH]; intros H; simpl; [reflexivity|].
  rewrite (H x) by (left; reflexivity). rewrite IH; [reflexivity|].
  intros y Hy. apply H. right. exact Hy.
Qed.

Lemma in_iota (k i : Z) : In i (iota k) <-> 0 <= i < k.
Proof.
  unfold iota. rewrite in_map_iff. split.
  - intros (j & <- & Hj%in_seq). lia.
  - intros H. exists (Z.to_nat i). split; [lia|]. apply in_seq. lia.
Qed.

Lemma sum_indicator_seq (f : Z -> Z) (w : Z) (k : nat) :
  sumZ (map (fun i => if i =? w then f i else 0) (map Z.of_nat (seq 0 k)))
  = if (0 <=? w) && (w <? Z.of_nat k) then f w else 0.
Proof.
  induction k as [|k IH].
  - simpl. destruct (Z.leb_spec 0 w), (Z.ltb_spec w (Z.of_nat 0)); simpl;
      try reflexivity; lia.
  - rewrite seq_S, !map_app, sumZ_app, IH. simpl. unfold sumZ. simpl.
    destruct (Z.eqb_spec (Z.of_nat k) w) as [Heq|Hne];
      destruct (Z.leb_spec 0 w), (Z.ltb_spec w (Z.of_nat k)),
        (Z.ltb_spec w (Z.of_nat (S k))); simpl; try lia.
    rewrite Heq. lia.
Qed.

Lemma sum_indicator (f : Z -> Z) (w k : Z) :
  0 <= w < k -> sumZ (map (fun i => if i =? w then f i else 0) (iota k)) = f w.
Proof.
  intros H. unfold iota. rewrite sum_indicator_seq.
  destruct (Z.leb_spec 0 w), (Z.ltb_spec w (Z.of_nat (Z.to_nat k))); simpl; lia.
Qed.

(** Over all the nodes the net outflows cancel. *)
Lemma net_out_total (k : Z) (l : list (Z * Z * Z)) :
  Forall (fun '(a, b, _) => 0 <= a < k /\ 0 <= b < k) l ->
  sumZ (map (net_out l) (iota k)) = 0.
Proof.
  induction 1 as [|[[a b] x] l [Ha Hb] Hl IH].
  - unfold net_out, sumZ. simpl. induction (iota k); simpl; lia.
  - rewrite (sumZ_map_ext _ (fun w => ((if w =? a then x else 0)
                                        + - (if w =? b then x else 0))
                                       + net_out l w)).
    + rewrite sumZ_map_add, sumZ_map_add, sumZ_map_opp, IH.
      rewrite (sum_indicator (fun _ => x) a k Ha).
      rewrite (sum_indicator (fun _ => x) b k Hb). lia.
    + intros w _. rewrite net_out_cons, (Z.eqb_sym a w), (Z.eqb_sym b w). lia.
Qed.

Lemma net_out_flat_map {A} (F : A -> list (Z * Z * Z)) (l : list A) (w : Z) :
  net_out (flat_map F l) w = sumZ (map (fun i => net_out (F i) w) l).
Proof.
  induction l as [|i l IH]; simpl; [reflexivity|].
  rewrite net_out_app, IH. unfold sumZ. simpl. reflexivity.
Qed.

(** Amounts within their capacities that add up to the capacities are
    the capacities. *)
Lemma within_sum_le cs xs :
  Forall2 within xs cs -> sumZ xs <= sumZ (map cap3 cs).
Proof.
  unfold sumZ. induction 1 as [|x c xs cs Hx _ IH]; simpl; [lia|].
  unfold within in Hx. lia.
Qed.

Lemma within_saturated cs xs :
  Forall2 within xs cs -> sumZ xs = sumZ (map cap3 cs) -> xs = map cap3 cs.
Proof.
  induction 1 as [|x c xs cs Hx Hxs IH]; intros Hsum; [reflexivity|].
  pose proof (within_sum_le _ _ Hxs) as Hle.
  unfold sumZ in *. simpl in *. unfold within in Hx.
  assert (x = cap3 c) by lia. subst x. f_equal. apply IH. lia.
Qed.

Lemma assign_caps cs : assign cs (map cap3 cs) = cs.
Proof.
  unfold assign. induction cs as [|[[a b] c] cs IH]; simpl; [reflexivity|].
  rewrite IH. reflexivity.
Qed.

Lemma assign_app l1 l2 x1 x2 :
  length l1 = length x1 ->
  assign (l1 ++ l2) (x1 ++ x2) = assign l1 x1 ++ assign l2 x2.
Proof. intros H. unfold assign. apply zip_with_app. exact H. Qed.

(** The demand records carry, from the supersource to the supersink,
    the sum of their flows. *)
Lemma dform_throughput SS TT cs xs :
  SS <> TT -> Forall (dform SS TT) cs -> length xs = length cs ->
  net_out (assign cs xs) SS - net_out (assign cs xs) TT = sumZ xs.
Proof.
  intros Hne Hcs. revert xs.
  induction Hcs as [|[[a b] c] cs Hc _ IH]; intros xs Hlen.
  - destruct xs; [|discriminate]. reflexivity.
  - destruct xs as [|x xs]; [discriminate|]. simpl in Hlen.
    specialize (IH xs ltac:(lia)).
    change (assign ((a, b, c) :: cs) (x :: xs)) with ((a, b, x) :: assign cs xs).
    rewrite !net_out_cons. unfold sumZ in *. simpl.
    destruct Hc as [(-> & H1 & H2)|(-> & H1 & H2)].
    + rewrite Z.eqb_refl. destruct (Z.eqb_spec b SS), (Z.eqb_spec SS TT),
        (Z.eqb_spec b TT); try congruence. lia.
    + rewrite Z.eqb_refl. destruct (Z.eqb_spec a SS), (Z.eqb_spec TT SS),
        (Z.eqb_spec a TT); try congruence. lia.
Qed.

Lemma demand_calls_dform SS TT demand nodes :
  Forall (fun i => i <> SS /\ i <> TT) nodes ->
  Forall (dform SS TT) (demand_calls SS TT demand nodes).
Proof.
  induction 1 as [|i nodes [H1 H2] _ IH]; [constructor|].
  unfold demand_calls. simpl. apply Forall_app. split; [|exact IH].
  unfold demand_call.
  destruct (0 <? demand_at demand i); [constructor; [|constructor]; left; auto|].
  destruct (demand_at demand i <? 0); [constructor; [|constructor]; right; auto|].
  constructor.
Qed.

Lemma demand_calls_caps SS TT demand nodes :
  sumZ (map cap3 (demand_calls SS TT demand nodes))
  = 2 * pos_sum demand nodes - sumZ (map (demand_at demand) nodes).
Proof.
  unfold pos_sum, demand_calls.
  induction nodes as [|i nodes IH]; [reflexivity|].
  simpl. rewrite map_app, sumZ_app, IH. unfold demand_call, sumZ. simpl.
  destruct (Z.ltb_spec 0 (demand_at demand i));
    [|destruct (Z.ltb_spec (demand_at demand i) 0)]; simpl; unfold cap3; simpl; lia.
Qed.

Lemma demand_calls_nonneg SS TT demand nodes :
  Forall (fun '(_, _, c) => 0 <= c) (demand_calls SS TT demand nodes).
Proof.
  unfold demand_calls. induction nodes as [|i nodes IH]; [constructor|].
  simpl. apply Forall_app. split; [|exact IH]. unfold demand_call.
  destruct (Z.ltb_spec 0 (demand_at demand i));
    [|destruct (Z.ltb_spec (demand_at demand i) 0)];
    repeat constructor; lia.
Qed.

Lemma slack_calls_nonneg edges :
  Forall (fun '(_, _, c) => 0 <= c) (slack_calls edges).
Proof.
  unfold slack_calls. induction edges as [|e es IH]; [constructor|].
  simpl. apply Forall_app. split; [|exact IH].
  destruct (Z.ltb_spec 0 (upper e - lower e)); repeat constructor; lia.
Qed.

(** At an original node the saturated demand records take the demand out. *)
Lemma demand_calls_net SS TT demand k w :
  0 <= w < k -> k <= SS -> k <= TT ->
  net_out (demand_calls SS TT demand (iota k)) w = - demand_at demand w.
Proof.
  intros Hw HSS HTT. unfold demand_calls. rewrite net_out_flat_map.
  rewrite (sumZ_map_ext _ (fun i => if i =? w then - demand_at demand i else 0)).
  - apply (sum_indicator (fun i => - demand_at demand i)). exact Hw.
  - intros i Hi%in_iota. unfold demand_call.
    destruct (Z.ltb_spec 0 (demand_at demand i));
      [|destruct (Z.ltb_spec (demand_at demand i) 0)];
      unfold net_out, sumZ; simpl;
      destruct (Z.eqb_spec i w), (Z.eqb_spec SS w), (Z.eqb_spec TT w); lia.
Qed.

(** ** From the flows of the slack records to amounts within the bounds *)

Lemma merge_net edges w :
  forall xs,
    Forall2 (fun '(_, _, c) f => 0 <= f <= c) (slack_calls edges) xs ->
    net_out (bounded edges (merge edges xs)) w
    = net_out (lowers edges) w + net_out (assign (slack_calls edges) xs) w.
Proof.
  induction edges as [|e es IH]; intros xs Hxs.
  - simpl in Hxs. inversion Hxs. reflexivity.
  - unfold slack_calls in Hxs. simpl in Hxs. fold (slack_calls es) in Hxs.
    unfold slack_calls, lowers. simpl. fold (slack_calls es). fold (lowers es).
    destruct (0 <? upper e - lower e); simpl in *.
    + inversion Hxs as [|c x cs xs' Hx Hxs']. subst.
      change (bounded (e :: es) ((lower e + x) :: merge es xs'))
        with ((u e, v e, lower e + x) :: bounded es (merge es xs')).
      change (assign ((u e, v e, upper e - lower e) :: slack_calls es) (x :: xs'))
        with ((u e, v e, x) :: assign (slack_calls es) xs').
      rewrite !net_out_cons, (IH _ Hxs').
      destruct (u e =? w), (v e =? w); lia.
    + change (bounded (e :: es) (lower e :: merge es xs))
        with ((u e, v e, lower e) :: bounded es (merge es xs)).
      rewrite !net_out_cons, (IH _ Hxs). lia.
Qed.

Lemma merge_bounds edges :
  forall xs,
    Forall2 (fun '(_, _, c) f => 0 <= f <= c) (slack_calls edges) xs ->
    Forall (fun e => lower e <= upper e) edges ->
    Forall2 (fun e f => lower e <= f <= upper e) edges (merge edges xs).
Proof.
  induction edges as [|e es IH]; intros xs Hxs Hb; [constructor|].
  inversion Hb as [|? ? He Hb']. subst.
  unfold slack_calls in Hxs. simpl in Hxs. fold (slack_calls es) in Hxs.
  simpl. destruct (Z.ltb_spec 0 (upper e - lower e)); simpl in *.
  - inversion Hxs as [|c x cs xs' Hx Hxs']. subst.
    constructor; [lia|]. apply IH; assumption.
  - constructor; [lia|]. apply IH; assumption.
Qed.

Lemma net_out_outside edges k w :
  Forall (fun e => 0 <= u e < k /\ 0 <= v e < k) edges -> ~ 0 <= w < k ->
  forall fs, net_out (bounded edges fs) w = 0.
Proof.
  intros Hr Hw. induction Hr as [|e es [Hu Hv] _ IH]; intros fs; [reflexivity|].
  destruct fs as [|f fs]; [reflexivity|].
  change (bounded (e :: es) (f :: fs)) with ((u e, v e, f) :: bounded es fs).
  rewrite net_out_cons, IH.
  destruct (Z.eqb_spec (u e) w), (Z.eqb_spec (v e) w); lia.
Qed.

Lemma net_out_assign_outside cs w :
  Forall (fun '(a, b, _) => a <> w /\ b <> w) cs ->
  forall xs, net_out (assign cs xs) w = 0.
Proof.
  induction 1 as [|[[a b] c] cs [Ha Hb] _ IH]; intros xs; [reflexivity|].
  destruct xs as [|x xs]; [reflexivity|].
  change (assign ((a, b, c) :: cs) (x :: xs)) with ((a, b, x) :: assign cs xs).
  rewrite net_out_cons, IH.
  destruct (Z.eqb_spec a w), (Z.eqb_spec b w); congruence || lia.
Qed.

Lemma slack_calls_ends edges k :
  Forall (fun e => 0 <= u e < k /\ 0 <= v e < k) edges ->
  Forall (fun '(a, b, _) => 0 <= a < k /\ 0 <= b < k) (slack_calls edges).
Proof.
  unfold slack_calls. induction 1 as [|e es He _ IH]; [constructor|].
  simpl. apply Forall_app. split; [|exact IH].
  destruct (0 <? upper e - lower e); repeat constructor; tauto.
Qed.

Lemma lowers_ends edges k :
  Forall (fun e => 0 <= u e < k /\ 0 <= v e < k) edges ->
  Forall (fun '(a, b, _) => 0 <= a < k /\ 0 <= b < k) (lowers edges).
Proof.
  unfold lowers. induction 1 as [|e es He _ IH]; simpl; constructor; auto.
Qed.

Lemma existsb_false_Forall (edges : list OriginalEdge) :
  existsb (fun e => upper e <? lower e) edges = false ->
  Forall (fun e => lower e <= upper e) edges.
Proof.
  induction edges as [|e es IH]; simpl; intros H; [constructor|].
  apply orb_false_iff in H as [H1 H2]. constructor; [|auto].
  apply Z.ltb_ge. exact H1.
Qed.

(** ** The verdict [true] of [has_feasible_flow] *)

Lemma demand_is_net_lower nn edges demand w :
  demands edges (replicate (Z.to_nat nn) 0) = Ret demand -> 0 <= w < nn ->
  demand_at demand w = - net_out (lowers edges) w.
Proof.
  intros (_ & _ & Hval)%demands_Ret Hw.
  destruct (zlookup_in_range (replicate (Z.to_nat nn) 0) w) as [x0 Hx0].
  { unfold size. rewrite length_replicate. lia. }
  pose proof (zlookup_replicate _ _ _ _ Hx0) as ->.
  unfold demand_at. rewrite (Hval _ _ Hx0). lia.
Qed.

(** C2, as the code has it.  For source and sink among the nodes
    [0 .. n-1]: when [has_feasible_flow] returns [true], amounts within the
    bounds of every edge exist that are conserved at every node other than
    [s] and [t] (the lower bound of each edge plus the flow the
    auxiliary max-flow left on its slack record). *)
Theorem feasible_verdict_is_sound (fuel : nat) (nn s t : Z) (edges : list OriginalEdge) :
  0 <= s < nn -> 0 <= t < nn ->
  has_feasible_flow fuel nn s t edges = Ret true ->
  exists fs, is_feasible edges s t fs.
Proof.
  intros Hs Ht H. unfold has_feasible_flow, has_feasible_flow_with in H.
  destruct (existsb _ edges) eqn:Hb; [discriminate|].
  inv_ret H. rename H1 into Hverdict.
  apply vector_Ret in Edemand0 as [Hnn ->].
  apply int_Ret in ETT as [-> HTT]. apply int_Ret in Ek as [-> Hk].
  pose proof (demands_Ret _ _ _ Edemand) as (Hdlen & Hends & _).
  unfold size in Hends. rewrite length_replicate, Z2Nat.id in Hends by lia.
  apply slack_edges_calls in Eg1.
  destruct (demand_edges_calls _ _ _ _ _ _ _ Er) as [Hdem Htotal].
  destruct r as [g1' total]. simpl in *.
  set (scalls := slack_calls edges) in *.
  set (dcalls := demand_calls nn (nn + 1) demand (iota nn)) in *.
  assert (Hbuild : add_edges g0 (scalls ++ dcalls ++ [(t, s, INF)]) = Ret g2).
  { rewrite add_edges_app, Eg1. simpl. rewrite add_edges_app, Hdem. simpl.
    rewrite Eg2. reflexivity. }
  assert (Hreach : reachable g2).
  { eapply add_edges_reachable; [eapply reach_create; eauto| |exact Hbuild].
    apply Forall_app. split; [apply slack_calls_nonneg|].
    apply Forall_app. split; [apply demand_calls_nonneg|].
    repeat constructor. unfold INF. lia. }
  destruct (reachable_paired_flows _ Hreach) as [Hp2 Hf2].
  destruct (isap_ok _ _ _ _ _ Hp2 Hf2 Emf) as (Hp3 & Hf3 & Hsh & _ & Hin & Hsrc & Hsnk).
  assert (Hex2 : forall w, excess (adj g2) w = 0).
  { intros w. rewrite (add_edges_excess _ _ _ w Hbuild). eapply create_excess; eauto. }
  destruct (flows_of_calls _ _ _ _ Hp3 Hf3 Hbuild Hsh) as (xs & Hxs & Hdec).
  assert (Hnet : forall w, excess (adj (snd mf)) w
                           = net_out (assign (scalls ++ dcalls ++ [(t, s, INF)]) xs) w).
  { intros w. rewrite Hdec, (rowlen_create _ _ w Eg0). unfold pre.
    destruct (zlookup (adj (snd mf)) w); simpl; unfold sumZ; simpl; lia. }
  clear Hdec.
  apply Forall2_app_inv_l in Hxs as (xs_s & xs' & Hxs_s & Hxs' & ->).
  apply Forall2_app_inv_l in Hxs' as (xs_d & xs_t & Hxs_d & Hxs_t & ->).
  inversion Hxs_t as [|c x_ts cs xs0 Hx_ts Hnil]. subst. inversion Hnil. subst.
  pose proof (Forall2_length _ _ _ Hxs_s) as Hlen_s.
  pose proof (Forall2_length _ _ _ Hxs_d) as Hlen_d.
  assert (Hsplit : forall w,
             net_out (assign (scalls ++ dcalls ++ [(t, s, INF)]) (xs_s ++ xs_d ++ [x_ts])) w
             = net_out (assign scalls xs_s) w + net_out (assign dcalls xs_d) w
               + ((if t =? w then x_ts else 0) - (if s =? w then x_ts else 0))).
  { intros w. rewrite assign_app by exact Hlen_s. rewrite assign_app by exact Hlen_d.
    rewrite !net_out_app.
    change (assign [(t, s, INF)] [x_ts]) with [(t, s, x_ts)].
    rewrite net_out_cons. unfold net_out at 3, sumZ. simpl. lia. }
  assert (Hs_ends : forall w, ~ 0 <= w < nn -> net_out (assign scalls xs_s) w = 0).
  { intros w Hw. apply net_out_assign_outside.
    eapply Forall_impl; [apply (slack_calls_ends _ nn Hends)|].
    intros [[a b] c] [Ha Hb']. split; intros ->; lia. }
  (* the supersource and the supersink *)
  assert (HSS : net_out (assign dcalls xs_d) nn = fst mf).
  { specialize (Hsrc ltac:(lia)). rewrite Hex2, Hnet, Hsplit in Hsrc.
    rewrite Hs_ends in Hsrc by lia.
    destruct (Z.eqb_spec t nn), (Z.eqb_spec s nn); lia. }
  assert (HTT' : net_out (assign dcalls xs_d) (nn + 1) = - fst mf).
  { specialize (Hsnk ltac:(lia)). rewrite Hex2, Hnet, Hsplit in Hsnk.
    rewrite Hs_ends in Hsnk by lia.
    destruct (Z.eqb_spec t (nn + 1)), (Z.eqb_spec s (nn + 1)); lia. }
  assert (Hdform : Forall (dform nn (nn + 1)) dcalls).
  { apply demand_calls_dform. apply Forall_forall. intros i Hi%list_elem_of_In%in_iota. lia. }
  pose proof (dform_throughput nn (nn + 1) dcalls xs_d ltac:(lia) Hdform (eq_sym Hlen_d))
    as Hthrough.
  assert (Hzero : sumZ (map (demand_at demand) (iota nn)) = 0).
  { rewrite (sumZ_map_ext _ (fun w => - net_out (lowers edges) w)).
    - rewrite sumZ_map_opp, (net_out_total nn); [lia|]. apply lowers_ends. exact Hends.
    - intros w Hw%in_iota. eapply demand_is_net_lower; eauto. }
  apply Z.eqb_eq in Hverdict.
  assert (Hsat : xs_d = map cap3 dcalls).
  { apply within_saturated.
    - apply Forall2_flip. eapply Forall2_impl; [exact Hxs_d|].
      intros [[a b] c] f Hf. exact Hf.
    - unfold dcalls at 1. rewrite demand_calls_caps, Hzero. lia. }
  rewrite Hsat, assign_caps in *.
  (* the amounts *)
  exists (merge edges xs_s). split.
  - apply merge_bounds; [exact Hxs_s|]. apply existsb_false_Forall. exact Hb.
  - intros w Hws Hwt.
    destruct (Z.le_gt_cases 0 w) as [Hw0|Hw0]; [destruct (Z.lt_ge_cases w nn) as [Hw1|Hw1]|];
      try (apply (net_out_outside _ nn); [exact Hends|lia]).
    rewrite merge_net by exact Hxs_s.
    specialize (Hin w ltac:(lia) ltac:(lia)). rewrite Hex2, Hnet, Hsplit in Hin.
    unfold dcalls in Hin. rewrite (demand_calls_net nn (nn + 1) demand nn w) in Hin by lia.
    rewrite (demand_is_net_lower nn edges demand w Edemand) in Hin by lia.
    fold scalls.
    destruct (Z.eqb_spec t w), (Z.eqb_spec s w); try congruence. lia.
Qed.

Lemma feasible_verdict_is_sound_witness :
  exists fs, is_feasible bounded_test1 0 3 fs.
Proof.
  apply (feasible_verdict_is_sound 100 4 0 3 bounded_test1).
  - lia.
  - lia.
  - vm_compute. reflexivity.
Defined.

(** The amount 1 on [backward_edge] meets its bounds and no node other
    than [s = 0] and [t = 1] exists, yet [has_feasible_flow] never returns
    [true] on it: the reduction only lets flow return from [t] to [s]. *)
Lemma backward_edge_is_rejected :
  is_feasible backward_edge 0 1 [1] /\
  forall fuel, has_feasible_flow fuel 2 0 1 backward_edge <> Ret true.
Proof.
  split.
  - split.
    + repeat constructor; simpl; lia.
    + intros w Hs Ht. unfold net_out, bounded, backward_edge, sumZ.
      cbn [zip_with map foldr oe u v].
      destruct (Z.eqb_spec 1 w), (Z.eqb_spec 0 w); lia.
  - intros fuel.
    do 6 (destruct fuel as [|fuel]; [vm_compute; discriminate|]).
    vm_compute. discriminate.
Qed.

(** ** Which exit the main loop takes *)

Lemma below_set lv gp x d lv' gp' w i y :
  below lv gp -> set_ Vlevel lv x d = Ret lv' -> d < size gp ->
  set_ w gp i y = Ret gp' -> below lv' gp'.
Proof.
  intros Hb Hlv Hd Hgp z l Hz. unfold size in *.
  rewrite (set_length _ _ _ _ _ Hgp).
  destruct (set_zlookup _ _ _ _ _ _ _ Hlv Hz) as [[_ ->]|[_ Hz']]; [exact Hd|].
  apply (Hb _ _ Hz').
Qed.

Lemma bfs_edges_below a x es :
  forall lv gp q r,
    below lv gp -> bfs_edges a x es lv gp q = Ret r ->
    below (fst (fst r)) (snd (fst r)).
Proof.
  induction es as [|e es IH]; intros lv gp q r Hb H; simpl in H.
  - inversion H. exact Hb.
  - inv_ret H. destruct (lvv =? -1); [|eauto].
    inv_ret H. destruct (flow r0 <? cap r0); [|eauto].
    inv_ret H. refine (IH _ _ _ _ _ H).
    apply at_Ret, zlookup_lt in Egd.
    exact (below_set _ _ _ _ _ _ _ _ _ Hb Elv' (proj2 Egd) Egp').
Qed.

Lemma bfs_loop_below a fuel :
  forall lv gp q r,
    below lv gp -> bfs_loop fuel a lv gp q = Ret r -> below (fst r) (snd r).
Proof.
  induction fuel as [|fuel IH]; intros lv gp q r Hb H; simpl in H.
  - destruct q; [|discriminate]. inversion H. exact Hb.
  - destruct q as [|x q]; [inversion H; exact Hb|].
    inv_ret H. refine (IH _ _ _ _ _ H).
    exact (bfs_edges_below _ _ _ _ _ _ _ Hb Epat).
Qed.

(** After [bfs] every label is -1 or an index at which [gap] was
    incremented. *)
Lemma bfs_below fuel g t g1 :
  bfs fuel g t = Ret g1 -> below (level g1) (gap g1).
Proof.
  unfold bfs. intros H. inv_ret H. simpl.
  refine (bfs_loop_below _ _ _ _ _ _ _ Epat).
  assert (Hb0 : below (replicate (length (level g)) (-1))
                      (replicate (length (gap g)) 0)).
  { intros z l Hz. apply zlookup_replicate in Hz. subst l.
    apply set_Ret in Egp1 as [Hr _]. lia. }
  assert (H0 : 0 < size (replicate (length (gap g)) 0)).
  { apply set_Ret in Egp1 as [Hr _]. lia. }
  exact (below_set _ _ _ _ _ _ _ _ _ Hb0 Elv1 H0 Egp1).
Qed.

Lemma retreat_below nn w nx :
  below (w_level w) (w_gap w) -> retreat nn w = Ret nx ->
  below (w_level (next_walk nx)) (w_gap (next_walk nx)).
Proof.
  intros Hb (au & ml & lu & gl & gp1 & _ & _ & _ & _ & Hgp1 & Hcase)%retreat_Ret.
  pose proof (set_length _ _ _ _ _ Hgp1) as H1.
  destruct Hcase as [[_ ->]|(_ & lv1 & g2 & gp2 & cur1 & Hlv1 & Hg2 & Hgp2 & _ & ->)].
  - simpl. intros z l Hz. unfold size. rewrite H1. apply (Hb _ _ Hz).
  - assert (Hb1 : below (w_level w) gp1).
    { intros z l Hz. unfold size. rewrite H1. apply (Hb _ _ Hz). }
    apply zlookup_lt in Hg2.
    pose proof (below_set _ _ _ _ _ _ _ _ _ Hb1 Hlv1 (proj2 Hg2) Hgp2) as Hb2.
    destruct (last (w_path w)); exact Hb2.
Qed.

Lemma step_below s t nn w nx :
  below (w_level w) (w_gap w) -> step s t nn w = Ret nx ->
  below (w_level (next_walk nx)) (w_gap (next_walk nx)).
Proof.
  unfold step. intros Hb H. inv_ret H.
  destruct (augment_length _ _ _ _ Ew) as [H1 H2]. rewrite <- H1, <- H2 in Hb.
  destruct y as [e|].
  - inversion H. simpl. exact Hb.
  - apply retreat_below in H; [exact H|exact Hb].
Qed.

Lemma run_exit s t nn fuel :
  forall w r,
    below (w_level w) (w_gap w) -> size (w_gap w) <= nn ->
    run fuel s t nn w = Ret r ->
    fst r = GapEmpty /\ below (w_level (snd r)) (w_gap (snd r)) /\
    size (w_gap (snd r)) <= nn.
Proof.
  induction fuel as [|fuel IH]; intros w r Hb Hn H; simpl in H; inv_ret H.
  - destruct (Z.ltb_spec ls nn) as [Hl|Hl]; [discriminate|].
    apply at_Ret, Hb in Els. lia.
  - destruct (Z.ltb_spec ls nn) as [Hl|Hl].
    2: { apply at_Ret, Hb in Els. lia. }
    inv_ret H. pose proof (step_below _ _ _ _ _ Hb Enx) as Hb'.
    destruct (step_length _ _ _ _ _ Enx) as [_ Hg].
    destruct nx as [w'|w']; simpl in *.
    + apply (IH _ _ Hb'); [unfold size in *; lia|exact H].
    + inversion H. simpl. split; [reflexivity|]. split; [exact Hb'|].
      unfold size in *. lia.
Qed.

(** X1.  While no vector is indexed out of range, no label reaches [n]:
    when the [gap] vector has at most [n] elements (as the constructor
    makes it), every label that [bfs] or a relabel stores has just been
    used as an index of [gap].  An out-of-range index ends a run of the
    embedding with a [Fault], so a main loop that returns has made none:
    it has left through the [break] on an emptied gap count, and [bfs] and
    the loop have left every label below [n].  The loop test
    [level[s] < n] can therefore fail only after [gap] has been indexed at
    [n] or beyond, which is undefined behaviour in C++. *)
Theorem labels_stay_below_n_while_gap_is_indexed_in_range
    (fuel fuel' : nat) (g g1 : Isap) (s t : Z) (cur : list Z) (r : Exit * Walk) :
  size (gap g) <= n g ->
  bfs fuel g t = Ret g1 ->
  run fuel' s t (n g1) (mkWalk (adj g1) (level g1) (gap g1) cur [] s 0) = Ret r ->
  fst r = GapEmpty /\
  (forall x l, zlookup (level g1) x = Some l -> l < n g) /\
  (forall x l, zlookup (w_level (snd r)) x = Some l -> l < n g).
Proof.
  intros Hn Hb Hr.
  pose proof (bfs_below _ _ _ _ Hb) as Hbl.
  destruct (bfs_Ret _ _ _ _ Hb) as [Hng _].
  destruct (bfs_length _ _ _ _ Hb) as [_ Hg].
  assert (Hsz : size (gap g1) <= n g1) by (unfold size in *; lia).
  destruct (run_exit s t (n g1) fuel'
              (mkWalk (adj g1) (level g1) (gap g1) cur [] s 0) r Hbl Hsz Hr)
    as (He & Hbr & Hgr).
  split; [exact He|]. split.
  - intros x l Hx. pose proof (Hbl _ _ Hx). lia.
  - intros x l Hx. pose proof (Hbr _ _ Hx). lia.
Qed.

Lemma labels_stay_below_n_while_gap_is_indexed_in_range_witness :
  size (gap graph1_built) <= n graph1_built /\
  bfs 100 graph1_built 3 = Ret graph1_labelled /\
  run 100 0 3 (n graph1_labelled) graph1_start = Ret (GapEmpty, graph1_left) /\
  fst (GapEmpty, graph1_left) = GapEmpty /\
  (forall x l, zlookup (level graph1_labelled) x = Some l -> l < n graph1_built) /\
  (forall x l, zlookup (w_level (snd (GapEmpty, graph1_left))) x = Some l ->
               l < n graph1_built).
Proof.
  assert (Hn : size (gap graph1_built) <= n graph1_built)
    by (vm_compute; discriminate).
  assert (Hb : bfs 100 graph1_built 3 = Ret graph1_labelled)
    by (vm_compute; reflexivity).
  assert (Hr : run 100 0 3 (n graph1_labelled) graph1_start
               = Ret (GapEmpty, graph1_left))
    by (vm_compute; reflexivity).
  split; [exact Hn|]. split; [exact Hb|]. split; [exact Hr|].
  exact (labels_stay_below_n_while_gap_is_indexed_in_range
           100 100 graph1_built graph1_labelled 0 3 [0; 0; 0; 0]
           (GapEmpty, graph1_left) Hn Hb Hr).
Defined.

(** ** What a returned value stands for *)

(** X2.  On a freshly built graph with non-negative capacities and
    [s <> t], a call [isap(s, t)] that returns [f] leaves flows that are
    antisymmetric and within capacity, conserved at every node other than
    [s] and [t], with [f] leaving [s] and [f] entering [t]: the value
    returned is the value of a flow of the network, hence never above the
    maximum flow. *)
Theorem returned_value_is_the_value_of_a_flow
    (fuel : nat) (k : Z) (es : list (Z * Z * Z)) (g g' : Isap) (s t f : Z) :
  INT_MIN <= k <= INT_MAX ->
  Forall (fun '(_, _, c) => 0 <= c) es ->
  build k es = Ret g ->
  s <> t ->
  isap fuel g s t = Ret (f, g') ->
  paired (adj g') /\ flows_ok (adj g') /\
  (forall x, x <> s -> x <> t -> excess (adj g') x = 0) /\
  excess (adj g') s = f /\ excess (adj g') t = - f.
Proof.
  intros Hk Hcs Hb Hst Hi.
  destruct (reachable_paired_flows _ (build_reachable _ _ _ Hk Hcs Hb)) as [Hp Hf].
  assert (H0 : forall x, excess (adj g) x = 0).
  { intros x. unfold build in Hb. inv_ret Hb.
    rewrite (add_edges_excess _ _ _ x Hb). eapply create_excess; eauto. }
  destruct (isap_ok _ _ _ _ _ Hp Hf Hi) as (Hp' & Hf' & _ & _ & Hin & Hs & Ht).
  simpl in *.
  split; [exact Hp'|]. split; [exact Hf'|].
  split; [intros x Hxs Hxt; rewrite (Hin x Hxs Hxt); apply H0|].
  rewrite (Hs Hst), (Ht Hst), !H0. split; lia.
Qed.

Lemma returned_value_is_the_value_of_a_flow_witness :
  paired (adj graph1_after) /\ flows_ok (adj graph1_after) /\
  (forall x, x <> 0 -> x <> 3 -> excess (adj graph1_after) x = 0) /\
  excess (adj graph1_after) 0 = 12 /\ excess (adj graph1_after) 3 = - 12.
Proof.
  apply (returned_value_is_the_value_of_a_flow 100 4 graph1 graph1_built
           graph1_after 0 3 12).
  - unfold INT_MIN, INT_MAX. lia.
  - unfold graph1. repeat constructor; lia.
  - vm_compute. reflexivity.
  - lia.
  - vm_compute. reflexivity.
Defined.

(** ** The constructor and [add_edge]: what they accept and what they store *)

Lemma add_edge_in_range (g : Isap) (x y c : Z) :
  0 <= x < size (adj g) -> 0 <= y < size (adj g) ->
  exists g', add_edge g x y c = Ret g'.
Proof.
  intros Hx Hy. unfold add_edge.
  destruct (zlookup_in_range _ _ Hx) as [au Hau].
  destruct (zlookup_in_range _ _ Hy) as [av Hav].
  rewrite (at_zlookup _ _ _ _ Hau), (at_zlookup _ _ _ _ Hav). simpl.
  rewrite (set_in_range Vadj (adj g) x (au ++ [mkEdge y c 0 (size av)]) Hx). simpl.
  set (a1 := <[Z.to_nat x := au ++ [mkEdge y c 0 (size av)]]> (adj g)).
  assert (Hs1 : size a1 = size (adj g)) by apply size_insert.
  destruct (zlookup_in_range a1 y) as [av1 Hav1]; [lia|].
  destruct (zlookup_in_range a1 x) as [au1 Hau1]; [lia|].
  rewrite (at_zlookup _ _ _ _ Hav1), (at_zlookup _ _ _ _ Hau1). simpl.
  rewrite (set_in_range Vadj a1 y _ ltac:(lia)). simpl. eauto.
Qed.

(** X3.  [add_edge(u, v, cap)] returns exactly when [u] and [v] both index
    [adj]; the capacity is not examined, so a negative one is stored like
    any other. *)
Theorem add_edge_returns_iff_endpoints_index_adj (g : Isap) (x y c : Z) :
  (exists g', add_edge g x y c = Ret g') <->
  (0 <= x < size (adj g) /\ 0 <= y < size (adj g)).
Proof.
  split.
  - intros [g' H].
    destruct (add_edge_Ret _ _ _ _ _ H) as (au & av & _ & _ & Hau & Hav & _).
    split; eapply zlookup_lt; eauto.
  - intros [Hx Hy]. apply add_edge_in_range; assumption.
Qed.

(** X4.  What [add_edge(u, v, cap)] stores: the members [n], [level] and
    [gap] and every record already present are left as they are; the
    record [{v, cap, 0, |adj[v]|}] is appended to [adj[u]] and the record
    [{u, 0, 0, |adj[u]|}] to [adj[v]] (sizes read before the call).  For
    [u <> v] the two records name each other; for a self-loop the forward
    record sits at index [|adj[u]|] with [rev = |adj[u]|], so it names
    itself and not the reverse record stored behind it. *)
Theorem add_edge_appends_a_forward_and_a_reverse_record
    (g g' : Isap) (x y c : Z) (au av : list Edge) :
  add_edge g x y c = Ret g' ->
  zlookup (adj g) x = Some au -> zlookup (adj g) y = Some av ->
  n g' = n g /\ level g' = level g /\ gap g' = gap g /\
  size (adj g') = size (adj g) /\
  (forall z, z <> x -> z <> y -> zlookup (adj g') z = zlookup (adj g) z) /\
  (x <> y ->
   zlookup (adj g') x = Some (au ++ [mkEdge y c 0 (size av)]) /\
   zlookup (adj g') y = Some (av ++ [mkEdge x 0 0 (size au)])) /\
  (x = y ->
   zlookup (adj g') x
   = Some (au ++ [mkEdge x c 0 (size au); mkEdge x 0 0 (size au)])).
Proof.
  intros H Hau Hav.
  destruct (add_edge_Ret _ _ _ _ _ H)
    as (au' & av' & a1 & av1 & Hau' & Hav' & Hs1 & Hav1 & Hsz & Hs2 & Hn & Hl & Hg).
  rewrite Hau in Hau'. rewrite Hav in Hav'.
  inversion Hau'. inversion Hav'. subst au' av'. clear Hau' Hav'.
  destruct (push_back_rows _ _ _ _ _ Hau Hs1) as [Hlen1 Hrows1].
  destruct (push_back_rows _ _ _ _ _ Hav1 Hs2) as [Hlen2 Hrows2].
  split; [exact Hn|]. split; [exact Hl|]. split; [exact Hg|].
  split; [unfold size; lia|].
  split.
  { intros z Hzx Hzy. rewrite Hrows2, Hrows1.
    destruct (Z.eqb_spec z y); [contradiction|].
    destruct (Z.eqb_spec z x); [contradiction|reflexivity]. }
  split.
  - intros Hxy. rewrite !Hrows2, !Hrows1.
    rewrite Hrows1 in Hav1.
    destruct (Z.eqb_spec x y) as [|_]; [contradiction|].
    destruct (Z.eqb_spec y x) as [|_]; [congruence|].
    rewrite Z.eqb_refl. rewrite Z.eqb_refl.
    rewrite Hav in Hav1. inversion Hav1. subst av1. auto.
  - intros Hxy. subst y. rewrite Hrows2. rewrite Z.eqb_refl.
    rewrite Hrows1, Z.eqb_refl in Hav1. inversion Hav1. subst av1.
    rewrite Hau in Hav. inversion Hav. subst av.
    rewrite <- app_assoc. reflexivity.
Qed.

Lemma add_edge_appends_a_forward_and_a_reverse_record_witness :
  n graph3_built = 3 /\ level graph3_built = [0; 0; 0] /\
  gap graph3_built = [0; 0; 0] /\ size (adj graph3_built) = 3 /\
  (forall z, z <> 0 -> z <> 1 ->
             zlookup (adj graph3_built) z = zlookup [[]; []; []] z) /\
  (0 <> 1 ->
   zlookup (adj graph3_built) 0 = Some ([] ++ [mkEdge 1 10 0 0]) /\
   zlookup (adj graph3_built) 1 = Some ([] ++ [mkEdge 0 0 0 0])) /\
  (0 = 1 ->
   zlookup (adj graph3_built) 0 = Some ([] ++ [mkEdge 0 10 0 0; mkEdge 0 0 0 0])).
Proof.
  exact (add_edge_appends_a_forward_and_a_reverse_record
           (mkIsap 3 [[]; []; []] [0; 0; 0] [0; 0; 0]) graph3_built 0 1 10 [] []
           eq_refl eq_refl eq_refl).
Defined.

Lemma add_edges_size es :
  forall g g', add_edges g es = Ret g' -> size (adj g') = size (adj g).
Proof.
  induction es as [|[[x y] c] es IH]; intros g g' H; simpl in H.
  - inversion H. reflexivity.
  - inv_ret H. rewrite (IH _ _ H).
    destruct (add_edge_Ret _ _ _ _ _ Eg')
      as (au & av & a1 & av1 & Hau & _ & Hs1 & Hav1 & _ & Hs2 & _).
    unfold size.
    rewrite (proj1 (push_back_rows _ _ _ _ _ Hav1 Hs2)).
    rewrite (proj1 (push_back_rows _ _ _ _ _ Hau Hs1)). reflexivity.
Qed.

Lemma add_edges_returns es :
  forall g,
    (exists g', add_edges g es = Ret g') <->
    Forall (fun '(x, y, _) => 0 <= x < size (adj g) /\ 0 <= y < size (adj g)) es.
Proof.
  induction es as [|[[x y] c] es IH]; intros g; simpl.
  - split; [constructor|eauto].
  - split.
    + intros [g' H]. inv_ret H.
      constructor.
      * destruct (add_edge_Ret _ _ _ _ _ Eg') as (au & av & _ & _ & Hau & Hav & _).
        split; eapply zlookup_lt; eauto.
      * assert (Hsz : size (adj g'0) = size (adj g))
          by (apply (add_edges_size [(x, y, c)] g g'0); simpl; rewrite Eg'; reflexivity).
        rewrite <- Hsz. apply IH. eauto.
    + intros HF. inversion HF as [|? ? Hxy HF']. subst. simpl in Hxy. destruct Hxy as [Hx Hy].
      destruct (add_edge_in_range g x y c Hx Hy) as [g1 Hg1].
      rewrite Hg1. simpl. apply IH.
      assert (Hsz : size (adj g1) = size (adj g))
        by (apply (add_edges_size [(x, y, c)] g g1); simpl; rewrite Hg1; reflexivity).
      rewrite Hsz. exact HF'.
Qed.

(** X5.  Building a graph as the drivers do (the constructor with [k]
    nodes, then one [add_edge] per triple) succeeds exactly when [k] is
    not negative and every endpoint is a node index below [k]; nothing
    else about the triples is checked. *)
Theorem build_returns_iff_every_endpoint_is_a_node (k : Z) (es : list (Z * Z * Z)) :
  (exists g, build k es = Ret g) <->
  (0 <= k /\ Forall (fun '(x, y, _) => 0 <= x < k /\ 0 <= y < k) es).
Proof.
  unfold build, create, vector.
  destruct (Z.leb_spec 0 k) as [Hk|Hk]; simpl.
  - rewrite add_edges_returns. simpl. unfold size. rewrite length_replicate.
    rewrite Z2Nat.id by exact Hk. tauto.
  - split; [intros [g H]; discriminate|lia].
Qed.

(** ** [isap]: its arguments, its value, repeated calls *)

Lemma isap_indices fuel g s t r :
  isap fuel g s t = Ret r -> 0 <= s < size (level g) /\ 0 <= t < size (level g).
Proof.
  intros H. unfold isap in H. inv_ret H.
  destruct (bfs_length _ _ _ _ Eg1) as [Hl _].
  apply at_Ret, zlookup_lt in Els. unfold size in *. rewrite Hl in Els.
  split; [exact Els|].
  unfold bfs in Eg1. inv_ret Eg1.
  apply set_Ret in Elv1 as [Ht _]. unfold size in Ht.
  rewrite length_replicate in Ht. exact Ht.
Qed.

(** X6.  [isap(s, t)] returns only when [s] and [t] are indices of
    [level]: with [t] outside, the first write [level[t] = 0] of [bfs] is
    out of range. *)
Theorem isap_returns_only_for_node_indices (fuel : nat) (g : Isap) (s t : Z) :
  (forall r, isap fuel g s t = Ret r ->
             0 <= s < size (level g) /\ 0 <= t < size (level g)) /\
  (~ 0 <= t < size (level g) -> isap fuel g s t = Fault (OutOfRange Vlevel t)).
Proof.
  split; [intros r; apply isap_indices|].
  intros Ht. unfold isap, bfs, set_ at 1.
  replace (size (replicate (length (level g)) (-1))) with (size (level g))
    by (unfold size; rewrite length_replicate; reflexivity).
  destruct (Z.leb_spec 0 t), (Z.ltb_spec t (size (level g))); simpl;
    try reflexivity; lia.
Qed.

Lemma isap_returns_only_for_node_indices_witness :
  (0 <= 0 < size (level graph1_built) /\ 0 <= 3 < size (level graph1_built)) /\
  isap 100 graph1_built 0 4 = Fault (OutOfRange Vlevel 4).
Proof.
  split.
  - exact (proj1 (isap_returns_only_for_node_indices 100 graph1_built 0 3)
             (12, graph1_after) eq_refl).
  - apply (proj2 (isap_returns_only_for_node_indices 100 graph1_built 0 4)).
    vm_compute. intros [_ H]. discriminate H.
Defined.

(** X7.  [isap] writes flows and labels only: on an object a caller can
    hold, a call that returns leaves [n], the length of every vector and
    the [to], [cap] and [rev] of every record as they were. *)
Theorem isap_changes_flows_and_labels_only (fuel : nat) (g : Isap) (s t : Z)
    (r : Z * Isap) :
  reachable g -> isap fuel g s t = Ret r ->
  n (snd r) = n g /\ shape (adj (snd r)) = shape (adj g) /\
  size (level (snd r)) = size (level g) /\ size (gap (snd r)) = size (gap g).
Proof.
  intros Hr H.
  destruct (reachable_paired_flows _ Hr) as [Hp Hf].
  destruct (isap_ok _ _ _ _ _ Hp Hf H) as (_ & _ & Hsh & Hn & _).
  pose proof (reachable_sized _ Hr) as (_ & _ & Hl & Hg).
  pose proof (reachable_sized _ (reach_isap _ _ _ _ _ Hr H)) as (_ & _ & Hl' & Hg').
  split; [exact Hn|]. split; [exact Hsh|]. split; congruence.
Qed.

Lemma isap_changes_flows_and_labels_only_witness :
  n graph1_after = n graph1_built /\
  shape (adj graph1_after) = shape (adj graph1_built) /\
  size (level graph1_after) = size (level graph1_built) /\
  size (gap graph1_after) = size (gap graph1_built).
Proof.
  apply (isap_changes_flows_and_labels_only 100 graph1_built 0 3 (12, graph1_after)).
  - apply (build_reachable 4 graph1).
    + unfold INT_MIN, INT_MAX. lia.
    + unfold graph1. repeat constructor; lia.
    + vm_compute. reflexivity.
  - vm_compute. reflexivity.
Defined.

(** *** The value only grows *)

Lemma augment_flow a0 s t w w' :
  walk_ok a0 s t w -> augment s t w = Ret w' ->
  (w_u w <> t /\ w' = w) \/
  (w_u w = t /\ w_flow w < w_flow w' /\
   (w_path w = [] -> w_flow w' = w_flow w + INF)).
Proof.
  intros Hw H. unfold augment in H.
  destruct (Z.eqb_spec (w_u w) t) as [Hu|Hu]; [|inversion H; subst w'; auto].
  right. split; [exact Hu|].
  inv_ret H. apply int_Ret in Efl as [-> _]. simpl.
  destruct (bottleneck_chain _ _ _ _ _ _ _ (wk_chain _ _ _ _ Hw) INF_pos Ef)
    as [Hpos _].
  split; [lia|].
  intros Hnil. rewrite Hnil in Ef. simpl in Ef. inversion Ef. reflexivity.
Qed.

Lemma retreat_flow nn w nx :
  retreat nn w = Ret nx -> w_flow (next_walk nx) = w_flow w.
Proof.
  intros (au & ml & lu & gl & gp1 & _ & _ & _ & _ & _ & Hcase)%retreat_Ret.
  destruct Hcase as [[_ ->]|(_ & lv1 & g2 & gp2 & cur1 & _ & _ & _ & _ & ->)];
    simpl; [reflexivity|].
  destruct (last (w_path w)); reflexivity.
Qed.

Lemma step_flow a0 s t nn w nx :
  walk_ok a0 s t w -> step s t nn w = Ret nx ->
  w_flow w <= w_flow (next_walk nx) /\
  (w_u w = t -> w_path w = [] -> w_flow (next_walk nx) = w_flow w + INF).
Proof.
  intros Hw H. unfold step in H. inv_ret H.
  assert (Hfl : w_flow (next_walk nx) = w_flow w0).
  { destruct y as [e|].
    - inversion H. reflexivity.
    - apply retreat_flow in H. exact H. }
  rewrite Hfl.
  destruct (augment_flow _ _ _ _ _ Hw Ew) as [[Hu ->]|(Hu & Hlt & Hnil)].
  - split; [lia|]. intros; contradiction.
  - split; [lia|]. intros _ Hp. auto.
Qed.

Lemma run_flow a0 s t nn fuel :
  forall w r, walk_ok a0 s t w -> run fuel s t nn w = Ret r ->
              w_flow w <= w_flow (snd r).
Proof.
  induction fuel as [|fuel IH]; intros w r Hw H; simpl in H; inv_ret H.
  - destruct (ls <? nn); [discriminate|]. inversion H. simpl. lia.
  - destruct (ls <? nn); [|inversion H; simpl; lia].
    inv_ret H. pose proof (step_ok _ _ _ _ _ _ Hw Enx) as Hw'.
    destruct (step_flow _ _ _ _ _ _ Hw Enx) as [Hle _].
    destruct nx as [w'|w']; simpl in *.
    + pose proof (IH _ _ Hw' H). lia.
    + inversion H. simpl. exact Hle.
Qed.

Lemma isap_nonneg fuel g s t r :
  paired (adj g) -> flows_ok (adj g) -> isap fuel g s t = Ret r -> 0 <= fst r.
Proof.
  intros Hp Hf H. unfold isap in H. inv_ret H.
  destruct (bfs_Ret _ _ _ _ Eg1) as [Hn Ha].
  destruct (ls =? -1); [inversion H; simpl; lia|].
  inv_ret H. simpl.
  assert (Hw : walk_ok (adj g) s t
                 (mkWalk (adj g1) (level g1) (gap g1) cur [] s 0)).
  { rewrite Ha. apply vector_Ret in Ecur as [_ ->].
    constructor; simpl; auto.
    - intros x c Hx. apply zlookup_replicate in Hx. lia.
    - intros. lia.
    - intros. lia. }
  apply (run_flow _ _ _ _ _ _ _ Hw Er).
Qed.

Lemma row_flow_le_cap (a : list (list Edge)) (x : Z) (row : list Edge) :
  paired a -> flows_ok a -> zlookup a x = Some row ->
  0 <= sumZ (map (fun e => cap e - flow e) row).
Proof.
  intros Hp Hf Hrow.
  assert (H : forall e, In e row -> flow e <= cap e).
  { intros e He. apply list_elem_of_In, list_elem_of_lookup in He as [i Hi].
    assert (Hed : edge_of a x (Z.of_nat i) = Some e).
    { unfold edge_of. rewrite Hrow. apply zlookup_Some.
      rewrite Nat2Z.id. split; [lia|exact Hi]. }
    destruct (Hp _ _ _ Hed) as (r & Hr & _).
    apply (Hf _ _ _ _ Hed Hr). }
  clear Hrow. induction row as [|e row IH]; simpl; [lia|].
  pose proof (H e (or_introl eq_refl)).
  assert (0 <= sumZ (map (fun e => cap e - flow e) row))
    by (apply IH; intros; apply H; right; assumption).
  unfold sumZ in *. simpl. lia.
Qed.

Lemma residual_out_excess (a a' : list (list Edge)) (x : Z) :
  shape a' = shape a ->
  residual_out a' x = residual_out a x + excess a x - excess a' x.
Proof.
  intros Hsh. unfold residual_out, excess.
  assert (Hrow : forall (b : list (list Edge)) row,
             zlookup b x = Some row ->
             sumZ (map (fun e => cap e - flow e) row)
             = sumZ (map (fun p => snd (fst p)) (map (fun e => (to e, cap e, rev e)) row))
               - sumZ (map flow row)).
  { intros b row _. induction row as [|e row IH]; [reflexivity|].
    unfold sumZ in *. simpl. rewrite IH. lia. }
  assert (Hlook : forall b, zlookup (shape b) x
                            = fmap (map (fun e => (to e, cap e, rev e))) (zlookup b x)).
  { intros b. unfold zlookup, shape. destruct (0 <=? x); [|reflexivity].
    rewrite list_lookup_fmap. reflexivity. }
  pose proof (Hlook a) as Ha. pose proof (Hlook a') as Ha'.
  rewrite Hsh in Ha'. rewrite Ha in Ha'.
  destruct (zlookup a x) as [row|] eqn:Er, (zlookup a' x) as [row'|] eqn:Er';
    simpl in Ha'; try discriminate; [|lia].
  rewrite (Hrow _ _ Er), (Hrow _ _ Er').
  inversion Ha' as [Heq]. rewrite Heq. lia.
Qed.

(** X8.  The value [isap(s, t)] returns for [s <> t] is never negative
    and never more than the capacity left, before the call, on the records
    of [s]. *)
Theorem isap_value_is_within_the_capacity_left_at_the_source
    (fuel : nat) (g : Isap) (s t : Z) (r : Z * Isap) :
  reachable g -> s <> t -> isap fuel g s t = Ret r ->
  0 <= fst r <= residual_out (adj g) s.
Proof.
  intros Hr Hst H.
  destruct (reachable_paired_flows _ Hr) as [Hp Hf].
  split; [eapply isap_nonneg; eauto|].
  destruct (isap_ok _ _ _ _ _ Hp Hf H) as (Hp' & Hf' & Hsh & _ & _ & Hs & _).
  pose proof (residual_out_excess _ _ s Hsh) as Hres.
  rewrite (Hs Hst) in Hres.
  assert (H0 : 0 <= residual_out (adj (snd r)) s).
  { unfold residual_out. destruct (zlookup (adj (snd r)) s) as [row|] eqn:Erow; [|lia].
    eapply row_flow_le_cap; eauto. }
  lia.
Qed.

Lemma isap_value_is_within_the_capacity_left_at_the_source_witness :
  0 <= 12 <= residual_out (adj graph1_built) 0.
Proof.
  apply (isap_value_is_within_the_capacity_left_at_the_source
           100 graph1_built 0 3 (12, graph1_after)).
  - apply (build_reachable 4 graph1).
    + unfold INT_MIN, INT_MAX. lia.
    + unfold graph1. repeat constructor; lia.
    + vm_compute. reflexivity.
  - lia.
  - vm_compute. reflexivity.
Defined.

(** *** Source and sink the same node *)

Lemma bfs_edges_keeps a x es :
  forall lv gp q r y l,
    bfs_edges a x es lv gp q = Ret r ->
    zlookup lv y = Some l -> l <> -1 -> zlookup (fst (fst r)) y = Some l.
Proof.
  induction es as [|e es IH]; intros lv gp q r y l H Hy Hl; simpl in H.
  - inversion H. exact Hy.
  - inv_ret H. destruct (Z.eqb_spec lvv (-1)) as [->|Hne]; [|eauto].
    inv_ret H. destruct (flow r0 <? cap r0); [|eauto].
    inv_ret H. apply (IH _ _ _ _ _ _ H); [|exact Hl].
    apply at_Ret in Elvv.
    rewrite (set_zlookup_ne _ _ _ _ _ _ Elv'); [exact Hy|].
    intros Heq. rewrite Heq in Elvv. congruence.
Qed.

Lemma bfs_loop_keeps a fuel :
  forall lv gp q r y l,
    bfs_loop fuel a lv gp q = Ret r ->
    zlookup lv y = Some l -> l <> -1 -> zlookup (fst r) y = Some l.
Proof.
  induction fuel as [|fuel IH]; intros lv gp q r y l H Hy Hl; simpl in H.
  - destruct q; [|discriminate]. inversion H. exact Hy.
  - destruct q as [|x q]; [inversion H; exact Hy|].
    inv_ret H. apply (IH _ _ _ _ _ _ H); [|exact Hl].
    exact (bfs_edges_keeps _ _ _ _ _ _ _ _ _ Epat Hy Hl).
Qed.

(** [bfs] gives the sink the label 0. *)
Lemma bfs_sink fuel g t g1 :
  bfs fuel g t = Ret g1 -> zlookup (level g1) t = Some 0.
Proof.
  unfold bfs. intros H. inv_ret H. simpl.
  apply (bfs_loop_keeps _ _ _ _ _ _ _ _ Epat); [|lia].
  eapply set_zlookup_eq; eauto.
Qed.

(** X9.  With the source as sink, [isap(s, s)] does not return 0: the
    first iteration finds [u == t] with an empty path and adds the
    initial bottleneck [INF] to the flow, and the flow never shrinks
    afterwards, so a call that returns gives at least [INF]. *)
Theorem isap_with_the_source_as_sink_returns_at_least_INF
    (fuel : nat) (g : Isap) (s : Z) (r : Z * Isap) :
  reachable g -> isap fuel g s s = Ret r -> INF <= fst r.
Proof.
  intros Hr H.
  destruct (reachable_paired_flows _ Hr) as [Hp Hf].
  pose proof (reachable_sized _ Hr) as (_ & _ & Hl & _).
  destruct (isap_indices _ _ _ _ _ H) as [Hs _].
  unfold isap in H. inv_ret H.
  destruct (bfs_Ret _ _ _ _ Eg1) as [Hn Ha].
  apply at_Ret in Els. rewrite (bfs_sink _ _ _ _ Eg1) in Els.
  inversion Els. subst ls. simpl in H. inv_ret H. simpl.
  assert (Hw : walk_ok (adj g) s s
                 (mkWalk (adj g1) (level g1) (gap g1) cur [] s 0)).
  { rewrite Ha. apply vector_Ret in Ecur as [_ ->].
    constructor; simpl; auto.
    - intros x c Hx. apply zlookup_replicate in Hx. lia.
    - intros. lia.
    - intros. lia. }
  destruct fuel as [|fuel]; simpl in Er.
  - rewrite (at_zlookup _ _ _ _ (bfs_sink _ _ _ _ Eg1)) in Er. simpl in Er.
    destruct (Z.ltb_spec 0 (n g1)); [discriminate|lia].
  - rewrite (at_zlookup _ _ _ _ (bfs_sink _ _ _ _ Eg1)) in Er. simpl in Er.
    destruct (Z.ltb_spec 0 (n g1)); [|lia].
    inv_ret Er.
    destruct (step_flow _ _ _ _ _ _ Hw Enx) as [_ Hinf].
    specialize (Hinf eq_refl eq_refl). simpl in Hinf.
    pose proof (step_ok _ _ _ _ _ _ Hw Enx) as Hw'.
    destruct nx as [w'|w']; simpl in *.
    + pose proof (run_flow _ _ _ _ _ _ _ Hw' Er). lia.
    + inversion Er. simpl. lia.
Qed.

Lemma isap_with_the_source_as_sink_returns_at_least_INF_witness :
  INF <= INF.
Proof.
  apply (isap_with_the_source_as_sink_returns_at_least_INF
           100 graph3_built 2 (INF, mkIsap 3 (adj graph3_built) [-1; -1; 0] [0; 0; 0])).
  - exact graph3_reachable.
  - vm_compute. reflexivity.
Defined.

(** *** Calling again *)

(** X10.  A second call on the same object adds to what the first call
    left: for [s <> t] it returns a value [f2 >= 0], and after it the
    flow stored is still antisymmetric and within capacity, conserved at
    the other nodes, with [f1 + f2] more leaving [s] and entering [t] than
    before the first call. *)
Theorem isap_called_again_adds_to_the_stored_flow
    (fuel1 fuel2 : nat) (g g1 g2 : Isap) (s t f1 f2 : Z) :
  reachable g -> s <> t ->
  isap fuel1 g s t = Ret (f1, g1) ->
  isap fuel2 g1 s t = Ret (f2, g2) ->
  0 <= f1 /\ 0 <= f2 /\ flows_ok (adj g2) /\
  (forall x, x <> s -> x <> t -> excess (adj g2) x = excess (adj g) x) /\
  excess (adj g2) s = excess (adj g) s + (f1 + f2) /\
  excess (adj g2) t = excess (adj g) t - (f1 + f2).
Proof.
  intros Hr Hst H1 H2.
  destruct (reachable_paired_flows _ Hr) as [Hp Hf].
  destruct (isap_ok _ _ _ _ _ Hp Hf H1) as (Hp1 & Hf1 & _ & _ & Hin1 & Hs1 & Ht1).
  simpl in *.
  destruct (isap_ok _ _ _ _ _ Hp1 Hf1 H2) as (Hp2 & Hf2 & _ & _ & Hin2 & Hs2 & Ht2).
  simpl in *.
  split; [exact (isap_nonneg _ _ _ _ _ Hp Hf H1)|].
  split; [exact (isap_nonneg _ _ _ _ _ Hp1 Hf1 H2)|].
  split; [exact Hf2|].
  split; [intros x Hxs Hxt; rewrite Hin2, Hin1; auto|].
  rewrite (Hs2 Hst), (Ht2 Hst), (Hs1 Hst), (Ht1 Hst). split; lia.
Qed.

Lemma dead_end_reachable : reachable dead_end_built.
Proof.
  apply (build_reachable 5 dead_end_graph).
  - unfold INT_MIN, INT_MAX. lia.
  - unfold dead_end_graph. repeat constructor; lia.
  - vm_compute. reflexivity.
Qed.

Lemma isap_called_again_adds_to_the_stored_flow_witness :
  0 <= 1 /\ 0 <= 1 /\ flows_ok (adj dead_end_after2) /\
  (forall x, x <> 0 -> x <> 4 ->
             excess (adj dead_end_after2) x = excess (adj dead_end_built) x) /\
  excess (adj dead_end_after2) 0 = excess (adj dead_end_built) 0 + (1 + 1) /\
  excess (adj dead_end_after2) 4 = excess (adj dead_end_built) 4 - (1 + 1).
Proof.
  apply (isap_called_again_adds_to_the_stored_flow
           100 100 dead_end_built dead_end_after1 dead_end_after2 0 4 1 1).
  - exact dead_end_reachable.
  - lia.
  - vm_compute. reflexivity.
  - vm_compute. reflexivity.
Defined.

(** ** [bfs] labels every node with its residual distance to the sink *)

Lemma ascending_frame lv lv' q :
  forall low, ascending lv low q ->
    (forall y, In y q -> zlookup lv' y = zlookup lv y) -> ascending lv' low q.
Proof.
  induction q as [|y q IH]; intros low H Hfr; simpl in *; [exact I|].
  destruct H as (d & Hy & Hlow & Hq). exists d.
  split; [rewrite Hfr; auto|]. split; [exact Hlow|]. apply IH; auto.
Qed.

Lemma ascending_In lv q :
  forall low y, ascending lv low q -> In y q ->
    exists d, zlookup lv y = Some d /\ low <= d.
Proof.
  induction q as [|z q IH]; intros low y H Hin; simpl in *; [contradiction|].
  destruct H as (d & Hz & Hlow & Hq). destruct Hin as [->|Hin]; [eauto|].
  destruct (IH _ _ Hq Hin) as (d' & Hy & Hd). exists d'. split; [exact Hy|lia].
Qed.

Lemma ascending_snoc lv q v top :
  forall low, ascending lv low q ->
    (forall y d, In y q -> zlookup lv y = Some d -> d <= top) ->
    zlookup lv v = Some top -> low <= top -> ascending lv low (q ++ [v]).
Proof.
  induction q as [|z q IH]; intros low H Hb Hv Hlow; simpl in *.
  - exists top. auto.
  - destruct H as (d & Hz & Hd & Hq). exists d.
    split; [exact Hz|]. split; [exact Hd|].
    apply IH; [exact Hq| |exact Hv|].
    + intros y d' Hy. apply Hb. right. exact Hy.
    + apply (Hb z d); auto.
Qed.

Lemma settled_mono a lv lv' y d :
  zlookup lv y = Some d -> d <> -1 -> settled a lv y ->
  (forall x d, zlookup lv x = Some d -> d <> -1 -> zlookup lv' x = Some d) ->
  settled a lv' y.
Proof.
  intros Hy Hd H Hk x Hx. destruct (H x Hx) as (dx & dy & Hdx & Hne & Hdy & Hle).
  exists dx, dy. split; [apply Hk; auto|]. split; [exact Hne|].
  split; [|exact Hle]. apply Hk; [exact Hdy|]. congruence.
Qed.

Section Distances.
Variable a : list (list Edge).
Variable t : Z.
Hypothesis Hpaired : paired a.

Lemma bfs_edges_scan (u L : Z) (au : list Edge) :
  zlookup a u = Some au ->
  forall es done lv gp q r,
    au = done ++ es -> scan_inv a t lv q u L -> seen a lv done ->
    bfs_edges a u es lv gp q = Ret r ->
    scan_inv a t (fst (fst r)) (snd r) u L /\ seen a (fst (fst r)) au.
Proof.
  intros Hau. induction es as [|e es IH]; intros done lv gp q r Hsplit Hinv Hseen H;
    simpl in H.
  - inversion H. subst r. simpl. rewrite app_nil_r in Hsplit. subst done. auto.
  - assert (Hsplit' : au = (done ++ [e]) ++ es)
      by (rewrite <- app_assoc; exact Hsplit).
    assert (He : edge_of a u (Z.of_nat (length done)) = Some e).
    { unfold edge_of. rewrite Hau. apply zlookup_Some. split; [lia|].
      rewrite Nat2Z.id, Hsplit. apply list_lookup_middle. reflexivity. }
    destruct (Hpaired _ _ _ He) as (r' & Hr' & Hto & _).
    inv_ret H. apply at_Ret in Elvv.
    destruct (Z.eqb_spec lvv (-1)) as [->|Hlab].
    2: { refine (IH _ _ _ _ _ Hsplit' Hinv _ H).
         intros e0 r1 [Hin|[<-|[]]]%in_app_or Hr1 Hres; [eauto|]. eauto. }
    inv_ret H. apply edge_at_Ret in Er. rewrite Hr' in Er. inversion Er. subst r0.
    destruct (Z.ltb_spec (flow r') (cap r')) as [Hres|Hres].
    2: { refine (IH _ _ _ _ _ Hsplit' Hinv _ H).
         intros e0 r1 [Hin|[<-|[]]]%in_app_or Hr1 Hres1; [eauto|].
         rewrite Hr' in Hr1. inversion Hr1. subst r1. lia. }
    inv_ret H. apply at_Ret in Elvu.
    destruct Hinv as [Hu HL Hq Hb Hpath Hset].
    rewrite Hu in Elvu. inversion Elvu. subst lvu.
    apply int_Ret in Ed as [-> _].
    assert (Hvu : to e <> u)
      by (intros Heq; rewrite Heq, Hu in Elvv; inversion Elvv; lia).
    assert (Hkeep : forall x d, zlookup lv x = Some d -> d <> -1 ->
                                zlookup lv' x = Some d).
    { intros x d Hx Hd. rewrite (set_zlookup_ne _ _ _ _ _ _ Elv'); [exact Hx|].
      intros Heq. rewrite Heq in Elvv. congruence. }
    assert (Hnew : zlookup lv' (to e) = Some (L + 1))
      by (eapply set_zlookup_eq; eauto).
    refine (IH _ _ _ _ _ Hsplit' _ _ H).
    + constructor.
      * apply Hkeep; [exact Hu|lia].
      * exact HL.
      * apply (ascending_snoc _ _ _ (L + 1)); [| |exact Hnew|lia].
        -- apply (ascending_frame lv); [exact Hq|].
           intros y Hy. destruct (ascending_In _ _ _ _ Hq Hy) as (d & Hd & Hle).
           rewrite Hd. apply Hkeep; [exact Hd|lia].
        -- intros y d Hy Hd.
           destruct (set_zlookup _ _ _ _ _ _ _ Elv' Hd) as [[_ ->]|[_ Hd']]; [lia|].
           apply (Hb _ _ Hd').
      * intros y d Hy.
        destruct (set_zlookup _ _ _ _ _ _ _ Elv' Hy) as [[_ ->]|[_ Hy']]; [lia|].
        apply (Hb _ _ Hy').
      * intros y d Hy Hd.
        destruct (set_zlookup _ _ _ _ _ _ _ Elv' Hy) as [[-> ->]|[_ Hy']].
        -- rewrite Z2Nat.inj_add by lia. rewrite Nat.add_comm. simpl.
           apply (nsteps_l _ _ _ u).
           ++ exists (rev e), r'. auto.
           ++ apply (Hpath _ _ Hu). lia.
        -- apply (Hpath _ _ Hy' Hd).
      * intros y d Hy Hd.
        destruct (set_zlookup _ _ _ _ _ _ _ Elv' Hy) as [[-> ->]|[_ Hy']].
        -- right. left. apply in_or_app. right. left. reflexivity.
        -- destruct (Hset _ _ Hy' Hd) as [?|[?|Hs]]; [auto| |].
           ++ right. left. apply in_or_app. auto.
           ++ right. right. exact (settled_mono _ _ _ _ _ Hy' Hd Hs Hkeep).
    + intros e0 r1 [Hin|[<-|[]]]%in_app_or Hr1 Hres1.
      * destruct (Hseen _ _ Hin Hr1 Hres1) as (d & Hd & Hne). eauto.
      * exists (L + 1). split; [exact Hnew|lia].
Qed.

(** Once all its records are visited, the dequeued node is settled. *)
Lemma seen_settled (u L : Z) (au : list Edge) (lv q : list Z) :
  zlookup a u = Some au -> scan_inv a t lv q u L -> seen a lv au ->
  settled a lv u.
Proof.
  intros Hau Hinv Hseen x (i & e' & He' & Hto & Hres).
  destruct Hinv as [Hu HL _ Hb _ _].
  destruct (Z.eq_dec x u) as [->|Hne].
  { exists L, L. repeat split; auto; lia. }
  destruct (Hpaired _ _ _ He') as (p & Hp & Hpto & Hprev).
  rewrite Hto in Hp, Hprev. specialize (Hprev ltac:(auto)).
  assert (Hin : In p au).
  { unfold edge_of in Hp. rewrite Hau in Hp. eapply zlookup_In; eauto. }
  destruct (Hseen p e' Hin) as (d & Hd & Hdne).
  - rewrite Hpto, Hprev. exact He'.
  - exact Hres.
  - rewrite Hpto in Hd. exists d, L. repeat split; auto.
    apply (Hb _ _ Hd).
Qed.

Lemma bfs_loop_final (fuel : nat) :
  forall lv gp q r,
    loop_inv a t lv q -> bfs_loop fuel a lv gp q = Ret r -> final a t (fst r).
Proof.
  induction fuel as [|fuel IH]; intros lv gp q r Hinv H; simpl in H.
  - destruct q; [|discriminate]. inversion H. exact Hinv.
  - destruct q as [|u q]; [inversion H; exact Hinv|].
    destruct Hinv as [L Hinv].
    inv_ret H. apply at_Ret in Eau.
    destruct (bfs_edges_scan u L au Eau au [] lv gp q (x0, y0, y) eq_refl Hinv)
      as [Hinv' Hseen].
    { intros e r0 []. }
    { exact Epat. }
    simpl in Hinv', Hseen.
    pose proof (seen_settled _ _ _ _ _ Eau Hinv' Hseen) as Hu.
    refine (IH _ _ _ _ _ H).
    destruct Hinv' as [Hlu HL Hq Hb Hpath Hset].
    destruct y as [|u1 q1]; simpl.
    + intros z d Hz. split; [apply (Hb _ _ Hz)|].
      intros Hd. split; [apply (Hpath _ _ Hz Hd)|].
      destruct (Hset _ _ Hz Hd) as [->|[[]|Hs]]; auto.
    + simpl in Hq. destruct Hq as (d1 & Hu1 & Hd1 & Hq1).
      exists d1. constructor; auto.
      * lia.
      * intros z d Hz. pose proof (Hb _ _ Hz). lia.
      * intros z d Hz Hd.
        destruct (Hset _ _ Hz Hd) as [->|[[->|Hin]|Hs]]; auto.
Qed.

Lemma final_distance (lv : list Z) :
  final a t lv -> zlookup lv t = Some 0 ->
  forall k x, dist a k x t -> exists d, zlookup lv x = Some d /\ 0 <= d <= Z.of_nat k.
Proof.
  intros Hfin Ht k x H. unfold dist in H.
  induction H as [x|k x y z Hxy Hyz IH].
  - exists 0. split; [exact Ht|lia].
  - destruct (IH Hfin Ht) as (dy & Hdy & Hle).
    destruct (Hfin _ _ Hdy) as [_ Hy].
    destruct Hy as [_ Hs]; [lia|].
    destruct (Hs x Hxy) as (dx & dy' & Hdx & Hne & Hdy' & Hle').
    rewrite Hdy in Hdy'. inversion Hdy'. subst dy'.
    exists dx. split; [exact Hdx|].
    destruct (Hfin _ _ Hdx) as [Hm _]. lia.
Qed.

End Distances.

Lemma bfs_final (fuel : nat) (g g1 : Isap) (t : Z) :
  paired (adj g) -> bfs fuel g t = Ret g1 -> final (adj g) t (level g1).
Proof.
  intros Hp H. unfold bfs in H. inv_ret H. simpl.
  refine (bfs_loop_final _ _ Hp _ _ _ _ _ _ Epat). simpl.
  exists 0.
  assert (Ht : zlookup lv1 t = Some 0) by (eapply set_zlookup_eq; eauto).
  assert (Hall : forall z d, zlookup lv1 z = Some d ->
                             (z = t /\ d = 0) \/ d = -1).
  { intros z d Hy.
    destruct (set_zlookup _ _ _ _ _ _ _ Elv1 Hy) as [[-> ->]|[_ Hy']]; [auto|].
    apply zlookup_replicate in Hy'. auto. }
  constructor.
  - exact Ht.
  - lia.
  - exact I.
  - intros z d Hy. destruct (Hall _ _ Hy) as [[_ ->]| ->]; lia.
  - intros z d Hy Hd. destruct (Hall _ _ Hy) as [[-> ->]| ->]; [|contradiction].
    apply nsteps_O.
  - intros z d Hy Hd. destruct (Hall _ _ Hy) as [[-> ->]| ->]; [|contradiction].
    left. reflexivity.
Qed.

(** X11.  On an object a caller can hold and for a sink [t] that is a
    node, [bfs(t)] returns after at most [n] dequeues, leaves [n] and
    [adj] alone, and labels every node with the number of edges of a
    shortest residual path from it to [t]; the nodes it leaves at -1 are
    exactly those with no residual path to [t]. *)
Theorem bfs_labels_every_node_with_its_residual_distance
    (fuel : nat) (g : Isap) (t : Z) :
  reachable g -> 0 <= t < n g -> (Z.to_nat (n g) <= fuel)%nat ->
  exists g1,
    bfs fuel g t = Ret g1 /\ n g1 = n g /\ adj g1 = adj g /\
    forall x, 0 <= x < n g ->
      exists d, zlookup (level g1) x = Some d /\
        ((d = -1 /\ ~ reach (adj g) x t) \/
         (0 <= d /\ dist (adj g) (Z.to_nat d) x t /\
          forall k, dist (adj g) k x t -> (Z.to_nat d <= k)%nat)).
Proof.
  intros Hr Ht Hfuel.
  destruct (reachable_paired_flows _ Hr) as [Hp _].
  pose proof (reachable_sized _ Hr) as (Hn & Ha & Hl & Hg).
  unfold size in Ha, Hl, Hg.
  destruct (bfs_ok_total (adj g) t Hp ltac:(unfold size; lia) fuel g eq_refl)
    as (lv & gp & Hb & Hok); try lia; [unfold size; lia|].
  exists (mkIsap (n g) (adj g) lv gp).
  split; [exact Hb|]. split; [reflexivity|]. split; [reflexivity|].
  pose proof (bfs_final _ _ _ _ Hp Hb) as Hfin. simpl in Hfin.
  pose proof (bfs_sink _ _ _ _ Hb) as Hsink. simpl in Hsink.
  pose proof (final_distance _ _ _ Hfin Hsink) as Hdist.
  intros x Hx. simpl.
  destruct (zlookup_in_range lv x) as [d Hd].
  { unfold size. rewrite (bo_len_lv _ _ _ _ Hok). lia. }
  exists d. split; [exact Hd|].
  destruct (Hfin _ _ Hd) as [Hm Hlab].
  destruct (Z.eq_dec d (-1)) as [->|Hne].
  - left. split; [reflexivity|].
    intros [k Hk]%rtc_nsteps_1.
    destruct (Hdist _ _ Hk) as (d' & Hd' & Hpos). rewrite Hd in Hd'.
    inversion Hd'. lia.
  - right. destruct (Hlab Hne) as [Hpath _].
    split; [lia|]. split; [exact Hpath|].
    intros k Hk. destruct (Hdist _ _ Hk) as (d' & Hd' & Hpos). rewrite Hd in Hd'.
    inversion Hd'. lia.
Qed.

Lemma bfs_labels_every_node_with_its_residual_distance_witness :
  exists g1,
    bfs 4 graph1_built 3 = Ret g1 /\ n g1 = n graph1_built /\
    adj g1 = adj graph1_built /\
    forall x, 0 <= x < n graph1_built ->
      exists d, zlookup (level g1) x = Some d /\
        ((d = -1 /\ ~ reach (adj graph1_built) x 3) \/
         (0 <= d /\ dist (adj graph1_built) (Z.to_nat d) x 3 /\
          forall k, dist (adj graph1_built) k x 3 -> (Z.to_nat d <= k)%nat)).
Proof.
  apply (bfs_labels_every_node_with_its_residual_distance 4 graph1_built 3).
  - apply (build_reachable 4 graph1).
    + unfold INT_MIN, INT_MAX. lia.
    + unfold graph1. repeat constructor; lia.
    + vm_compute. reflexivity.
  - simpl. lia.
  - simpl. lia.
Defined.

(** ** [gap] counts the nodes of each label *)

Lemma count_insert (d : Z) (lv : list Z) (i : nat) (old new : Z) :
  lv !! i = Some old ->
  count d (<[i := new]> lv)
  = count d lv - (if old =? d then 1 else 0) + (if new =? d then 1 else 0).
Proof.
  revert i. induction lv as [|l lv IH]; intros [|i] H; simpl in *; try discriminate.
  - inversion H. subst. lia.
  - rewrite (IH _ H). lia.
Qed.

Lemma count_replicate (d x : Z) (k : nat) :
  x <> d -> count d (replicate k x) = 0.
Proof.
  intros Hne. induction k as [|k IH]; simpl; [reflexivity|].
  rewrite IH. destruct (Z.eqb_spec x d); [contradiction|reflexivity].
Qed.

(** A node leaves the label [old] for the label [new]: after [gap[new]++],
    and after [--gap[old]] when [old] is an index of [gap] at all. *)
Lemma counted_label (lv gp lv' gp' : list Z) (v old new c : Z) w :
  counted lv gp -> zlookup lv v = Some old -> old <> new ->
  (forall c0, zlookup gp old = Some c0 -> False) ->
  set_ Vlevel lv v new = Ret lv' ->
  zlookup gp new = Some c -> set_ w gp new (c + 1) = Ret gp' ->
  counted lv' gp'.
Proof.
  intros Hc Hv Hne Hold Hlv Hg Hgp d c' Hd.
  apply set_Ret in Hlv as [Hvr ->].
  apply zlookup_Some in Hv as [_ Hv'].
  rewrite (count_insert _ _ _ _ new Hv').
  destruct (set_zlookup _ _ _ _ _ _ _ Hgp Hd) as [[-> ->]|[Hdn Hd']].
  - rewrite (Hc _ _ Hg), Z.eqb_refl.
    destruct (Z.eqb_spec old new); [contradiction|lia].
  - rewrite (Hc _ _ Hd').
    destruct (Z.eqb_spec new d); [congruence|].
    destruct (Z.eqb_spec old d) as [->|]; [|lia].
    exfalso. eapply Hold; eauto.
Qed.

Lemma bfs_edges_counted a x es :
  forall lv gp q r,
    counted lv gp -> bfs_edges a x es lv gp q = Ret r ->
    counted (fst (fst r)) (snd (fst r)).
Proof.
  induction es as [|e es IH]; intros lv gp q r Hc H; simpl in H.
  - inversion H. exact Hc.
  - inv_ret H. destruct (Z.eqb_spec lvv (-1)) as [->|Hne]; [|eauto].
    inv_ret H. destruct (flow r0 <? cap r0); [|eauto].
    inv_ret H. refine (IH _ _ _ _ _ H).
    apply at_Ret in Elvv, Egd. apply int_Ret in Egd' as [-> _].
    pose proof (zlookup_lt _ _ _ Egd) as Hd.
    refine (counted_label _ _ _ _ _ _ _ _ _ Hc Elvv _ _ Elv' Egd Egp'); [lia|].
    intros c0 Hc0. apply zlookup_lt in Hc0. lia.
Qed.

Lemma bfs_loop_counted a fuel :
  forall lv gp q r,
    counted lv gp -> bfs_loop fuel a lv gp q = Ret r -> counted (fst r) (snd r).
Proof.
  induction fuel as [|fuel IH]; intros lv gp q r Hc H; simpl in H.
  - destruct q; [|discriminate]. inversion H. exact Hc.
  - destruct q as [|x q]; [inversion H; exact Hc|].
    inv_ret H. refine (IH _ _ _ _ _ H).
    exact (bfs_edges_counted _ _ _ _ _ _ _ Hc Epat).
Qed.

Lemma bfs_counted fuel g t g1 :
  bfs fuel g t = Ret g1 -> counted (level g1) (gap g1).
Proof.
  unfold bfs. intros H. inv_ret H. simpl.
  refine (bfs_loop_counted _ _ _ _ _ _ _ Epat).
  assert (Ht : zlookup (replicate (length (level g)) (-1)) t = Some (-1)).
  { apply set_Ret in Elv1 as [Hr _].
    destruct (zlookup_in_range _ _ Hr) as [z Hz].
    rewrite Hz. f_equal. eapply zlookup_replicate; eauto. }
  assert (H0 : zlookup (replicate (length (gap g)) 0) 0 = Some 0).
  { apply set_Ret in Egp1 as [Hr _].
    destruct (zlookup_in_range _ _ Hr) as [z Hz].
    rewrite Hz. f_equal. eapply zlookup_replicate; eauto. }
  refine (counted_label _ _ _ _ _ _ _ 0 _ _ Ht _ _ Elv1 H0 Egp1); [|lia|].
  - intros d c Hd. pose proof (zlookup_lt _ _ _ Hd).
    apply zlookup_replicate in Hd. subst c.
    symmetry. apply count_replicate. lia.
  - intros c0 Hc0. apply zlookup_lt in Hc0. lia.
Qed.

(** X12.  When [bfs] returns, [gap[d]] is the number of nodes whose label
    is [d], for every index [d] of [gap]. *)
Theorem bfs_leaves_gap_counting_the_labels
    (fuel : nat) (g g1 : Isap) (t d c : Z) :
  bfs fuel g t = Ret g1 -> zlookup (gap g1) d = Some c ->
  c = count d (level g1).
Proof. intros H. apply (bfs_counted _ _ _ _ H). Qed.

Lemma bfs_leaves_gap_counting_the_labels_witness :
  2 = count 1 (level graph1_labelled).
Proof.
  exact (bfs_leaves_gap_counting_the_labels 100 graph1_built graph1_labelled 3 1 2
           eq_refl eq_refl).
Defined.

Lemma counted_relabel (lv gp gp1 lv1 gp2 : list Z) (x lu gl nl g2 : Z) :
  counted lv gp -> zlookup lv x = Some lu -> zlookup gp lu = Some gl ->
  set_ Vgap gp lu (gl - 1) = Ret gp1 ->
  set_ Vlevel lv x nl = Ret lv1 ->
  zlookup gp1 nl = Some g2 -> set_ Vgap gp1 nl (g2 + 1) = Ret gp2 ->
  counted lv1 gp2.
Proof.
  intros Hc Hx Hgl Hgp1 Hlv1 Hg2 Hgp2 d c Hd.
  apply set_Ret in Hlv1 as [_ ->].
  apply zlookup_Some in Hx as [_ Hx'].
  rewrite (count_insert _ _ _ _ nl Hx').
  destruct (set_zlookup _ _ _ _ _ _ _ Hgp2 Hd) as [[-> ->]|[Hdn Hd1]].
  - rewrite Z.eqb_refl.
    destruct (set_zlookup _ _ _ _ _ _ _ Hgp1 Hg2) as [[-> ->]|[Hne Hg]].
    + rewrite Z.eqb_refl, <- (Hc _ _ Hgl). lia.
    + rewrite <- (Hc _ _ Hg).
      destruct (Z.eqb_spec lu nl); [congruence|lia].
  - destruct (Z.eqb_spec nl d); [congruence|].
    destruct (set_zlookup _ _ _ _ _ _ _ Hgp1 Hd1) as [[-> ->]|[Hne Hg]].
    + rewrite Z.eqb_refl, <- (Hc _ _ Hgl). lia.
    + rewrite <- (Hc _ _ Hg).
      destruct (Z.eqb_spec lu d); [congruence|lia].
Qed.

(** The loop goes on with [gap] still counting; it breaks at a node that
    was the last one carrying its label. *)
Lemma step_counted s t nn w nx :
  counted (w_level w) (w_gap w) -> step s t nn w = Ret nx ->
  match nx with
  | Continue w' => counted (w_level w') (w_gap w')
  | Break w' =>
    w_level w' = w_level w /\
    exists l, zlookup (w_level w') (w_u w') = Some l /\
              count l (w_level w') = 1 /\ zlookup (w_gap w') l = Some 0 /\
              forall d c, d <> l -> zlookup (w_gap w') d = Some c ->
                          c = count d (w_level w')
  end.
Proof.
  intros Hc H. unfold step in H. inv_ret H.
  destruct (augment_length _ _ _ _ Ew) as [H1 H2]. rewrite <- H1, <- H2 in Hc.
  destruct y as [e|]; [inversion H; exact Hc|].
  destruct (retreat_Ret _ _ _ H)
    as (au' & ml & lu & gl & gp1 & _ & _ & Hlu & Hgl & Hgp1 & Hcase).
  simpl in *.
  destruct Hcase as [[H0 ->]|(_ & lv1 & g2 & gp2 & cur2 & Hlv1 & Hg2 & Hgp2 & _ & ->)].
  - simpl. split; [exact H1|]. exists lu. split; [exact Hlu|].
    split; [rewrite <- (Hc _ _ Hgl); lia|].
    split; [rewrite <- H0; eapply set_zlookup_eq; eauto|].
    intros d c Hne Hd. apply Hc.
    rewrite <- (set_zlookup_ne _ _ _ _ _ _ Hgp1); [exact Hd|congruence].
  - pose proof (counted_relabel _ _ _ _ _ _ _ _ _ _ Hc Hlu Hgl Hgp1 Hlv1 Hg2 Hgp2).
    destruct (last (w_path w0)); simpl; assumption.
Qed.

Lemma run_counted s t nn fuel :
  forall w r,
    counted (w_level w) (w_gap w) -> run fuel s t nn w = Ret r ->
    match fst r with
    | LabelOverflow => counted (w_level (snd r)) (w_gap (snd r))
    | GapEmpty =>
      exists l, zlookup (w_level (snd r)) (w_u (snd r)) = Some l /\
                count l (w_level (snd r)) = 1 /\
                zlookup (w_gap (snd r)) l = Some 0 /\
                forall d c, d <> l -> zlookup (w_gap (snd r)) d = Some c ->
                            c = count d (w_level (snd r))
    end.
Proof.
  induction fuel as [|fuel IH]; intros w r Hc H; simpl in H; inv_ret H.
  - destruct (ls <? nn); [discriminate|]. inversion H. exact Hc.
  - destruct (ls <? nn); [|inversion H; exact Hc].
    inv_ret H. pose proof (step_counted _ _ _ _ _ Hc Enx) as Hs.
    destruct nx as [w'|w'].
    + apply (IH _ _ Hs H).
    + inversion H. simpl. apply Hs.
Qed.

(** X13.  While the main loop goes on, [gap] keeps counting the nodes of
    each label; when it is left through the [break], the current node was
    the last node carrying its label [l]: [gap[l]] is 0, one node (the
    current one) still has the label [l], and every other entry of [gap]
    is the number of nodes with that label. *)
Theorem main_loop_breaks_at_the_last_node_of_a_label
    (fuel : nat) (s t nn : Z) (w w' : Walk) :
  counted (w_level w) (w_gap w) ->
  run fuel s t nn w = Ret (GapEmpty, w') ->
  exists l, zlookup (w_level w') (w_u w') = Some l /\
            count l (w_level w') = 1 /\ zlookup (w_gap w') l = Some 0 /\
            forall d c, d <> l -> zlookup (w_gap w') d = Some c ->
                        c = count d (w_level w').
Proof. intros Hc H. exact (run_counted _ _ _ _ _ _ Hc H). Qed.

Lemma main_loop_breaks_at_the_last_node_of_a_label_witness :
  exists l, zlookup (w_level graph1_left) (w_u graph1_left) = Some l /\
            count l (w_level graph1_left) = 1 /\
            zlookup (w_gap graph1_left) l = Some 0 /\
            forall d c, d <> l -> zlookup (w_gap graph1_left) d = Some c ->
                        c = count d (w_level graph1_left).
Proof.
  apply (main_loop_breaks_at_the_last_node_of_a_label 100 0 3 4 graph1_start).
  - exact (bfs_counted 100 graph1_built 3 graph1_labelled eq_refl).
  - vm_compute. reflexivity.
Defined.

(** ** [has_feasible_flow]: the inputs it answers for *)

Lemma add_edge_size (g : Isap) (x y c : Z) (g' : Isap) :
  add_edge g x y c = Ret g' -> size (adj g') = size (adj g).
Proof.
  intros H. apply (add_edges_size [(x, y, c)] g g'). simpl. rewrite H. reflexivity.
Qed.

Lemma demand_edges_size SS TT demand nodes :
  forall g total r,
    demand_edges g SS TT demand nodes total = Ret r ->
    size (adj (fst r)) = size (adj g).
Proof.
  intros g total r H. apply demand_edges_calls in H as [H _].
  apply (add_edges_size _ _ _ H).
Qed.

Lemma slack_edges_size edges g g' :
  slack_edges g edges = Ret g' -> size (adj g') = size (adj g).
Proof.
  intros H. apply slack_edges_calls in H. apply (add_edges_size _ _ _ H).
Qed.

(** X14.  [has_feasible_flow] gives an answer only in two cases: some edge
    has [lower > upper] and the answer is [false] (nothing else is looked
    at); or every edge has [lower <= upper], [n] is not negative, every
    edge joins two of the nodes [0 .. n-1] (the [demand] vector has [n]
    elements), and [s] and [t] are indices of the auxiliary graph, which
    has [n + 2] nodes. *)
Theorem has_feasible_flow_answers_only_for_valid_inputs
    (fuel : nat) (nn s t : Z) (edges : list OriginalEdge) (b : bool) :
  has_feasible_flow fuel nn s t edges = Ret b ->
  (Exists (fun e => upper e < lower e) edges /\ b = false) \/
  (Forall (fun e => lower e <= upper e) edges /\ 0 <= nn /\
   Forall (fun e => 0 <= u e < nn /\ 0 <= v e < nn) edges /\
   0 <= s < nn + 2 /\ 0 <= t < nn + 2).
Proof.
  unfold has_feasible_flow, has_feasible_flow_with. intros H.
  destruct (existsb _ edges) eqn:Hex.
  - left. split; [|congruence].
    apply existsb_exists in Hex as (e & Hin & He).
    apply Exists_exists. exists e.
    split; [apply list_elem_of_In; exact Hin|]. apply Z.ltb_lt. exact He.
  - right. split; [apply existsb_false_Forall; exact Hex|].
    inv_ret H.
    apply vector_Ret in Edemand0 as [Hnn ->].
    destruct (demands_Ret _ _ _ Edemand) as (_ & Hends & _).
    unfold size in Hends. rewrite length_replicate, Z2Nat.id in Hends by exact Hnn.
    apply int_Ret in Ek as [-> _].
    pose proof (slack_edges_size _ _ _ Eg1) as Hs1.
    pose proof (demand_edges_size _ _ _ _ _ _ _ Er) as Hs2.
    apply create_Ret in Eg0 as (_ & _ & Ha & _).
    rewrite Ha in Hs1. unfold size in Hs1 at 2. rewrite length_replicate in Hs1.
    destruct (add_edge_Ret _ _ _ _ _ Eg2) as (au & av & _ & _ & Hau & Hav & _).
    apply zlookup_lt in Hau, Hav.
    split; [exact Hnn|]. split; [exact Hends|]. lia.
Qed.

Lemma has_feasible_flow_answers_only_for_valid_inputs_witness :
  (Exists (fun e => upper e < lower e) bounded_test1 /\ true = false) \/
  (Forall (fun e => lower e <= upper e) bounded_test1 /\ 0 <= 4 /\
   Forall (fun e => 0 <= u e < 4 /\ 0 <= v e < 4) bounded_test1 /\
   0 <= 0 < 4 + 2 /\ 0 <= 3 < 4 + 2).
Proof.
  apply (has_feasible_flow_answers_only_for_valid_inputs 100 4 0 3 bounded_test1 true).
  vm_compute. reflexivity.
Defined.

(** *** No lower bounds *)

Lemma Forall_existsb_false (edges : list OriginalEdge) :
  Forall (fun e => lower e <= upper e) edges ->
  existsb (fun e => upper e <? lower e) edges = false.
Proof.
  induction 1 as [|e es He _ IH]; simpl; [reflexivity|].
  rewrite IH. destruct (Z.ltb_spec (upper e) (lower e)); [lia|reflexivity].
Qed.

Lemma demands_zero (k : nat) (edges : list OriginalEdge) :
  Forall (fun e => lower e = 0 /\ 0 <= u e < Z.of_nat k /\ 0 <= v e < Z.of_nat k) edges ->
  demands edges (replicate k 0) = Ret (replicate k 0).
Proof.
  induction 1 as [|e es (Hl & Hu & Hv) _ IH]; simpl; [reflexivity|].
  assert (Hz : forall i, 0 <= i < Z.of_nat k -> zlookup (replicate k 0) i = Some 0).
  { intros i Hi. apply zlookup_Some. split; [lia|].
    apply lookup_replicate. split; [reflexivity|lia]. }
  assert (Hs : forall i, 0 <= i < Z.of_nat k ->
               set_ Vdemand (replicate k 0) i 0 = Ret (replicate k 0)).
  { intros i Hi. rewrite set_in_range
      by (unfold size; rewrite length_replicate; exact Hi).
    f_equal. apply list_eq. intros j.
    destruct (decide (j = Z.to_nat i)) as [->|Hne].
    - rewrite list_lookup_insert_eq by (rewrite length_replicate; lia).
      symmetry. apply lookup_replicate. split; [reflexivity|lia].
    - rewrite list_lookup_insert_ne by auto. reflexivity. }
  rewrite Hl, (at_zlookup _ _ _ _ (Hz _ Hu)). simpl.
  change (0 - 0) with 0. rewrite (Hs _ Hu). simpl.
  rewrite (at_zlookup _ _ _ _ (Hz _ Hv)). simpl.
  change (0 + 0) with 0. rewrite (Hs _ Hv). simpl. exact IH.
Qed.

Lemma demand_edges_zero (k : nat) (SS TT : Z) (g : Isap) (total : Z) (nodes : list Z) :
  Forall (fun i => 0 <= i < Z.of_nat k) nodes ->
  demand_edges g SS TT (replicate k 0) nodes total = Ret (g, total).
Proof.
  induction 1 as [|i nodes Hi _ IH]; simpl; [reflexivity|].
  assert (Hz : zlookup (replicate k 0) i = Some 0).
  { apply zlookup_Some. split; [lia|].
    apply lookup_replicate. split; [reflexivity|lia]. }
  rewrite (at_zlookup _ _ _ _ Hz). simpl. exact IH.
Qed.

(** An auxiliary graph in which nothing touches the supersink yet. *)
Lemma slack_edges_free (k TT : Z) (edges : list OriginalEdge) :
  Forall (fun e => lower e = 0 /\ 0 <= upper e <= INT_MAX /\
                   0 <= u e < TT /\ 0 <= v e < TT) edges ->
  forall g,
    size (adj g) = k -> TT < k -> rowlen (adj g) TT = 0%nat ->
    exists g', slack_edges g edges = Ret g' /\
               size (adj g') = k /\ rowlen (adj g') TT = 0%nat /\
               n g' = n g /\ level g' = level g /\ gap g' = gap g.
Proof.
  induction 1 as [|e es (Hl & Hup & Hu & Hv) _ IH]; intros g Hk HT Hrow; simpl.
  - exists g. repeat split; auto.
  - rewrite Hl, Z.sub_0_r, int_in_range by (unfold INT_MIN; lia). simpl.
    destruct (0 <? upper e); [|apply IH; auto].
    destruct (add_edge_in_range g (u e) (v e) (upper e)) as [g1 Hg1]; [lia|lia|].
    rewrite Hg1. simpl.
    destruct (IH g1) as (g' & Hrun & Hk' & Hrow' & Hn' & Hl' & Hg').
    4: { exists g'. split; [exact Hrun|].
         destruct (add_edge_Ret _ _ _ _ _ Hg1)
           as (? & ? & ? & ? & _ & _ & _ & _ & _ & _ & Hn1 & Hl1 & Hgp1).
         repeat split; congruence. }
    + rewrite (add_edge_size _ _ _ _ _ Hg1). exact Hk.
    + exact HT.
    + rewrite (rowlen_add_edge _ _ _ _ _ TT Hg1), Hrow.
      destruct (Z.eqb_spec TT (u e)); [lia|].
      destruct (Z.eqb_spec TT (v e)); [lia|reflexivity].
Qed.

(** A sink without records: [bfs] labels the sink only, and [isap]
    returns 0 at once. *)
Lemma isap_isolated_sink (fuel : nat) (g : Isap) (s t : Z) :
  zlookup (adj g) t = Some [] ->
  0 <= t < size (level g) -> 0 <= s < size (level g) -> s <> t ->
  0 < size (gap g) ->
  exists lv gp, isap (S fuel) g s t = Ret (0, mkIsap (n g) (adj g) lv gp).
Proof.
  intros Hrow Ht Hs Hst Hg. unfold isap, bfs.
  rewrite set_in_range by (unfold size in *; rewrite length_replicate; lia).
  rewrite set_in_range by (unfold size in *; rewrite length_replicate; lia).
  simpl. rewrite (at_zlookup _ _ _ _ Hrow). simpl.
  destruct fuel; simpl.
  all: rewrite (at_zlookup Vlevel _ s (-1)); [simpl; eauto|].
  all: rewrite zlookup_insert_ne by lia.
  all: apply zlookup_Some; split; [lia|].
  all: apply lookup_replicate; split; [reflexivity|unfold size in *; lia].
Qed.

(** X15.  Without lower bounds there is nothing to meet: if every edge has
    [lower = 0 <= upper] and joins two nodes below [n], and [s] and [t]
    are nodes below [n], [has_feasible_flow] answers [true] (the empty
    edge list included).  No demand is positive, so the supersink gets no
    record and the max-flow call returns 0, the sum of the positive
    demands. *)
Theorem has_feasible_flow_is_true_without_lower_bounds
    (fuel : nat) (nn s t : Z) (edges : list OriginalEdge) :
  nn + 2 <= INT_MAX -> 0 <= s < nn -> 0 <= t < nn ->
  Forall (fun e => lower e = 0 /\ 0 <= upper e <= INT_MAX /\
                   0 <= u e < nn /\ 0 <= v e < nn) edges ->
  has_feasible_flow (S fuel) nn s t edges = Ret true.
Proof.
  intros Hmax Hs Ht Hedges.
  assert (Hnn : 0 <= nn) by lia.
  unfold has_feasible_flow, has_feasible_flow_with.
  rewrite Forall_existsb_false
    by (eapply Forall_impl; [exact Hedges|]; simpl; intros e He; lia).
  unfold vector at 1. destruct (Z.leb_spec 0 nn) as [_|]; [|lia]. simpl.
  rewrite demands_zero
    by (eapply Forall_impl; [exact Hedges|]; simpl; intros e He; lia).
  simpl. rewrite !int_in_range by (unfold INT_MIN; lia). simpl.
  destruct (create (nn + 2)) as [g0| |] eqn:Hg0;
    try (unfold create, vector in Hg0;
         destruct (Z.leb_spec 0 (nn + 2)); [discriminate|lia]).
  simpl. apply create_Ret in Hg0 as (_ & Hn0 & Ha0 & Hl0 & Hgp0).
  assert (Hsz0 : size (adj g0) = nn + 2)
    by (rewrite Ha0; unfold size; rewrite length_replicate; lia).
  assert (Hrow0 : rowlen (adj g0) (nn + 1) = 0%nat).
  { unfold rowlen. rewrite Ha0.
    destruct (zlookup _ (nn + 1)) as [row|] eqn:Hrow; [|reflexivity].
    apply zlookup_replicate in Hrow. subst row. reflexivity. }
  destruct (slack_edges_free (nn + 2) (nn + 1) edges) with (g := g0)
    as (g1 & Hg1 & Hsz1 & Hrow1 & Hn1 & Hl1 & Hgp1); [|exact Hsz0|lia|exact Hrow0|].
  { eapply Forall_impl; [exact Hedges|]. simpl. intros e He. lia. }
  rewrite Hg1. simpl.
  rewrite (demand_edges_zero (Z.to_nat nn))
    by (apply Forall_forall; intros i Hi%list_elem_of_In%in_iota; lia).
  simpl.
  destruct (add_edge_in_range g1 t s INF) as [g2 Hg2]; [lia|lia|].
  rewrite Hg2. simpl.
  destruct (add_edge_Ret _ _ _ _ _ Hg2)
    as (? & ? & ? & ? & _ & _ & _ & _ & _ & _ & Hn2 & Hl2 & Hgp2).
  pose proof (add_edge_size _ _ _ _ _ Hg2) as Hsz2.
  pose proof (rowlen_add_edge _ _ _ _ _ (nn + 1) Hg2) as Hrow2.
  rewrite Hrow1 in Hrow2.
  destruct (Z.eqb_spec (nn + 1) t); [lia|].
  destruct (Z.eqb_spec (nn + 1) s); [lia|]. simpl in Hrow2.
  assert (Hrow : zlookup (adj g2) (nn + 1) = Some []).
  { destruct (zlookup_in_range (adj g2) (nn + 1)) as [row Hr]; [lia|].
    unfold rowlen in Hrow2. rewrite Hr in Hrow2. rewrite Hr.
    destruct row; [reflexivity|discriminate]. }
  assert (Hlen : size (level g2) = nn + 2 /\ size (gap g2) = nn + 2).
  { rewrite Hl2, Hgp2, Hl1, Hgp1, Hl0, Hgp0. unfold size.
    rewrite length_replicate. lia. }
  destruct (isap_isolated_sink fuel g2 nn (nn + 1) Hrow) as (lv & gp & Hrun);
    try lia.
  rewrite Hrun. reflexivity.
Qed.

Lemma has_feasible_flow_is_true_without_lower_bounds_witness :
  has_feasible_flow 1 3 0 2 (map oe [(0,1,0,4); (1,2,0,0)]) = Ret true /\
  has_feasible_flow 1 3 0 2 [] = Ret true.
Proof.
  split.
  - apply (has_feasible_flow_is_true_without_lower_bounds 0 3 0 2).
    + unfold INT_MAX. lia.
    + lia.
    + lia.
    + unfold INT_MAX. repeat constructor; simpl; lia.
  - apply (has_feasible_flow_is_true_without_lower_bounds 0 3 0 2 []).
    + unfold INT_MAX. lia.
    + lia.
    + lia.
    + constructor.
Defined.

(** ** Valid labels and current arcs through the main loop *)

Lemma scan_skipped (lv : list Z) (x : Z) (es : list Edge) :
  forall c0 c found,
    scan lv x es c0 = Ret (c, found) ->
    (forall k e lu lt,
        Z.of_nat k < c - c0 -> es !! k = Some e -> flow e < cap e ->
        zlookup lv x = Some lu -> zlookup lv (to e) = Some lt -> lu <> lt + 1) /\
    (found = None -> c = c0 + Z.of_nat (length es)).
Proof.
  induction es as [|e es IH]; intros c0 c found H; simpl in H.
  - inversion H. subst. split; [|simpl; lia].
    intros k e lu lt Hk. lia.
  - destruct (Z.ltb_spec (flow e) (cap e)) as [Hres|Hres].
    + inv_ret H. apply at_Ret in Elu, Elt. apply int_Ret in Ed as [-> _].
      destruct (Z.eqb_spec lu (lt + 1)) as [Heq|Hne].
      * inversion H. subst. split; [|discriminate].
        intros k e' lu' lt' Hk. lia.
      * destruct (IH _ _ _ H) as [Hsk Hnone].
        split; [|intros Hf; rewrite (Hnone Hf); simpl; lia].
        intros [|k] e' lu' lt' Hk He' Hres' Hlu' Hlt'; simpl in He'.
        -- inversion He'. subst e'. congruence.
        -- apply (Hsk k e' lu' lt'); auto. lia.
    + destruct (IH _ _ _ H) as [Hsk Hnone].
      split; [|intros Hf; rewrite (Hnone Hf); simpl; lia].
      intros [|k] e' lu' lt' Hk He' Hres' Hlu' Hlt'; simpl in He'.
      * inversion He'. subst e'. lia.
      * apply (Hsk k e' lu' lt'); auto. lia.
Qed.

Lemma min_level_bounds (lv : list Z) (es : list Edge) :
  forall m ml,
    min_level lv es m = Ret ml ->
    ml <= m /\
    (forall e lt, In e es -> flow e < cap e -> zlookup lv (to e) = Some lt ->
                  ml <= lt) /\
    (forall lb, lb <= m ->
                (forall e lt, In e es -> flow e < cap e ->
                              zlookup lv (to e) = Some lt -> lb <= lt) ->
                lb <= ml).
Proof.
  induction es as [|e es IH]; intros m ml H; simpl in H.
  - inversion H. subst. split; [lia|]. split; [intros e lt []|].
    intros lb Hlb _. exact Hlb.
  - destruct (Z.ltb_spec (flow e) (cap e)) as [Hres|Hres].
    + inv_ret H. apply at_Ret in Elt.
      destruct (IH _ _ H) as (Hm & Hup & Hlow). split; [lia|]. split.
      * intros e' lt' [<-|Hin] Hres' Hlt'; [|eauto].
        rewrite Elt in Hlt'. inversion Hlt'. subst lt'. lia.
      * intros lb Hlb Hall. apply Hlow.
        -- pose proof (Hall e lt (or_introl eq_refl) Hres Elt). lia.
        -- intros e' lt' Hin. apply Hall. right. exact Hin.
    + destruct (IH _ _ H) as (Hm & Hup & Hlow). split; [exact Hm|]. split.
      * intros e' lt' [<-|Hin] Hres' Hlt'; [lia|eauto].
      * intros lb Hlb Hall. apply Hlow; [exact Hlb|].
        intros e' lt' Hin. apply Hall. right. exact Hin.
Qed.

(** *** The augmentation *)

Lemma push_step_tidy (a a1 a2 : list (list Edge)) (lv cur : list Z)
    (p c f : Z) (e r : Edge) (lp lq : Z) :
  paired a -> edge_of a p c = Some e -> to e <> p ->
  set_edge a p c (set_flow e (flow e + f)) = Ret a1 ->
  edge_of a1 (to e) (rev e) = Some r ->
  set_edge a1 (to e) (rev e) (set_flow r (flow r - f)) = Ret a2 ->
  zlookup cur p = Some c ->
  zlookup lv p = Some lp -> zlookup lv (to e) = Some lq -> lp = lq + 1 ->
  valid a lv -> arcs a lv cur -> valid a2 lv /\ arcs a2 lv cur.
Proof.
  intros Hp He Hne Hs1 Hr Hs2 Hcur Hlp Hlq Hlev Hv Ha.
  assert (Hr0 : edge_of a (to e) (rev e) = Some r).
  { rewrite <- Hr. symmetry. eapply edge_of_set_edge_ne; eauto. }
  destruct (Hp _ _ _ He) as (r' & Hr' & Hrto & _).
  rewrite Hr0 in Hr'. inversion Hr'. subst r'. clear Hr'.
  assert (Hcase : forall y j e2,
             edge_of a2 y j = Some e2 ->
             (y = to e /\ to e2 = p) \/ (y = p /\ j = c /\ to e2 = to e) \/
             edge_of a y j = Some e2).
  { intros y j e2 H2.
    destruct (edge_of_set_edge _ _ _ _ _ _ _ _ Hs2 H2) as [(<- & _ & ->)|[_ H1]];
      [left; auto|].
    destruct (edge_of_set_edge _ _ _ _ _ _ _ _ Hs1 H1) as [(<- & <- & ->)|[_ H0]];
      [right; left; auto|auto]. }
  split.
  - intros x i e2 dx dy H2 Hres Hdx Hdy.
    destruct (Hcase _ _ _ H2) as [[-> Hto]|[(-> & -> & Hto)|H0]].
    + rewrite Hto in Hdy. rewrite Hlq in Hdx. rewrite Hlp in Hdy.
      inversion Hdx. inversion Hdy. lia.
    + rewrite Hto in Hdy. rewrite Hlp in Hdx. rewrite Hlq in Hdy.
      inversion Hdx. inversion Hdy. lia.
    + eapply Hv; eauto.
  - intros x c0 i e2 dx dy Hc0 Hi H2 Hres Hdx Hdy.
    destruct (Hcase _ _ _ H2) as [[-> Hto]|[(-> & -> & Hto)|H0]].
    + rewrite Hto in Hdy. rewrite Hlq in Hdx. rewrite Hlp in Hdy.
      inversion Hdx. inversion Hdy. lia.
    + rewrite Hcur in Hc0. inversion Hc0. lia.
    + eapply Ha; eauto.
Qed.

Lemma push_head (f : Z) (a a1 a2 : list (list Edge)) (lv cur : list Z)
    (p : Z) (ps : list Z) (tip c : Z) (e r : Edge) :
  paired a -> flows_ok a -> 0 <= f -> chain f a lv cur (p :: ps) tip ->
  zlookup cur p = Some c -> edge_of a p c = Some e ->
  set_edge a p c (set_flow e (flow e + f)) = Ret a1 ->
  edge_of a1 (to e) (rev e) = Some r ->
  set_edge a1 (to e) (rev e) (set_flow r (flow r - f)) = Ret a2 ->
  to e <> p /\
  (exists lp lq, zlookup lv p = Some lp /\ zlookup lv (to e) = Some lq /\
                 lp = lq + 1) /\
  paired a2 /\ flows_ok a2 /\ chain f a2 lv cur ps tip.
Proof.
  intros Hp Hf Hf0 Hc Hcur He Hs1 Hr Hs2.
  pose proof Hc as [Hl Hc'].
  destruct (link_functional _ _ _ _ _ _ _ _ Hl Hcur He)
    as (Hto & Hfe & lp & lq & Hlp & Hlq & Hlev).
  assert (Hne : to e <> p).
  { intros Heq. rewrite <- Heq, Hto, Hlq in Hlp. inversion Hlp. lia. }
  destruct (push_step a p c f e a1 a2 r Hp Hf He Hne (conj Hf0 Hfe) Hs1 Hr Hs2)
    as (Hp2 & Hf2 & _ & _ & Hframe).
  assert (Hr0 : edge_of a (to e) (rev e) = Some r).
  { rewrite <- Hr. symmetry. eapply edge_of_set_edge_ne; eauto. }
  split; [exact Hne|].
  split; [exists lp, lq; rewrite Hto; auto|].
  split; [exact Hp2|]. split; [exact Hf2|].
  eapply chain_frame; [exact Hc'|auto| |auto].
  intros pi ci Hin Hci.
  destruct (chain_In _ _ _ _ _ _ _ Hc' Hin) as (y & Hly & lx & lt & Hlx & _).
  assert (Hlt : lx < lp).
  { eapply (chain_lt f a lv cur p ps tip pi); eauto.
    apply in_or_app. auto. }
  apply Hframe.
  - left. intros ->. rewrite Hlx in Hlp. inversion Hlp. lia.
  - destruct (Z.eq_dec pi (to e)) as [->|]; [|auto]. right. intros ->.
    destruct (link_functional _ _ _ _ _ _ _ _ Hly Hci Hr0)
      as (Hy & _ & lp' & ly & Hlp' & Hly' & Hlev').
    destruct (Hp _ _ _ He) as (r' & Hr' & Hrto & _).
    rewrite Hr0 in Hr'. inversion Hr'. subst r'.
    rewrite <- Hy, Hrto, Hlp in Hly'. inversion Hly'. subst ly.
    rewrite Hlx in Hlp'. inversion Hlp'. lia.
Qed.

Lemma push_tidy (f : Z) (lv cur : list Z) (tip : Z) (ps : list Z) :
  forall a a',
    paired a -> flows_ok a -> 0 <= f -> chain f a lv cur ps tip ->
    valid a lv -> arcs a lv cur ->
    push a cur ps f = Ret a' -> valid a' lv /\ arcs a' lv cur.
Proof.
  induction ps as [|p ps IH]; intros a a' Hp Hf Hf0 Hc Hv Ha Hpush.
  - simpl in Hpush. inversion Hpush. subst a'. auto.
  - apply push_cons_Ret in Hpush
      as (c & e & a1 & r & a2 & Hcur & He & Hs1 & Hr & Hs2 & Hpush).
    destruct (push_head _ _ _ _ _ _ _ _ _ _ _ _ Hp Hf Hf0 Hc Hcur He Hs1 Hr Hs2)
      as (Hne & (lp & lq & Hlp & Hlq & Hlev) & Hp2 & Hf2 & Hc2).
    destruct (push_step_tidy _ _ _ _ _ _ _ _ _ _ _ _ Hp He Hne Hs1 Hr Hs2
                Hcur Hlp Hlq Hlev Hv Ha) as [Hv2 Ha2].
    exact (IH _ _ Hp2 Hf2 Hf0 Hc2 Hv2 Ha2 Hpush).
Qed.

Lemma augment_tidy a0 s t w w' :
  walk_ok a0 s t w -> tidy t w -> augment s t w = Ret w' -> tidy t w'.
Proof.
  intros Hw Ht H. unfold augment in H.
  destruct (Z.eqb_spec (w_u w) t) as [Hu|Hu]; [|inversion H; subst w'; exact Ht].
  inv_ret H.
  destruct Hw as [Hp Hf Hc _ _ _ _ _ _].
  destruct (bottleneck_chain _ _ _ _ _ _ _ Hc INF_pos Ef) as [Hpos Hcf].
  assert (Hnn : 0 <= f) by lia.
  destruct (push_chain _ _ _ _ _ _ _ Hp Hf Hnn Hcf Ea) as (_ & _ & Hsh & _).
  destruct Ht as [Hsz Hnonneg Hsink Hv Ha].
  destruct (push_tidy _ _ _ _ _ _ _ Hp Hf Hnn Hcf Hv Ha Ea) as [Hv' Ha'].
  constructor; simpl; auto.
  rewrite Hsz. symmetry. apply shape_length. exact Hsh.
Qed.

(** *** Advance and retreat *)

Lemma edge_of_nonneg (a : list (list Edge)) (x i : Z) (e : Edge) :
  edge_of a x i = Some e -> 0 <= i.
Proof.
  intros (row & _ & Hi)%edge_of_row. apply zlookup_lt in Hi. lia.
Qed.

Lemma edge_of_In (a : list (list Edge)) (x i : Z) (e : Edge) (row : list Edge) :
  edge_of a x i = Some e -> zlookup a x = Some row -> In e row.
Proof.
  unfold edge_of. intros H Hrow. rewrite Hrow in H. eapply zlookup_In; eauto.
Qed.

Lemma arcs_advance (a : list (list Edge)) (lv cur cur1 : list Z)
    (x cu c : Z) (au : list Edge) (found : option Edge) :
  arcs a lv cur -> zlookup cur x = Some cu -> 0 <= cu -> zlookup a x = Some au ->
  scan lv x (drop (Z.to_nat cu) au) cu = Ret (c, found) ->
  set_ Vcur cur x c = Ret cur1 -> arcs a lv cur1.
Proof.
  intros Ha Hcu Hcu0 Hau Hscan Hset y c0 i e dx dy Hc0 Hi He Hres Hdx Hdy.
  destruct (set_zlookup _ _ _ _ _ _ _ Hset Hc0) as [[-> ->]|[Hne Hc0']];
    [|eapply Ha; eauto].
  destruct (Z.lt_ge_cases i cu) as [Hlt|Hge]; [eapply Ha; eauto|].
  destruct (scan_skipped _ _ _ _ _ _ Hscan) as [Hsk _].
  apply (Hsk (Z.to_nat (i - cu)) e dx dy); auto; [lia|].
  rewrite lookup_drop.
  unfold edge_of in He. rewrite Hau in He.
  apply zlookup_Some in He as [_ He]. rewrite <- He. f_equal. lia.
Qed.

Lemma augment_u s t w w' :
  s <> t -> augment s t w = Ret w' -> w_u w' <> t.
Proof.
  intros Hst H. unfold augment in H.
  destruct (Z.eqb_spec (w_u w) t) as [Hu|Hu]; [|inversion H; subst w'; exact Hu].
  inv_ret H. simpl. exact Hst.
Qed.

Lemma count_nonneg (d : Z) (lv : list Z) : 0 <= count d lv.
Proof. induction lv as [|l lv IH]; simpl; [lia|]. destruct (l =? d); lia. Qed.

Lemma retreat_tidy (t nn : Z) (w : Walk) (nx : Next) :
  tidy t w -> w_u w <> t ->
  counted (w_level w) (w_gap w) -> below (w_level w) (w_gap w) ->
  size (w_gap w) <= nn ->
  (forall row, zlookup (w_adj w) (w_u w) = Some row ->
               exists c, zlookup (w_cur w) (w_u w) = Some c /\ size row <= c) ->
  retreat nn w = Ret nx ->
  match nx with
  | Continue w' => tidy t w'
  | Break w' => stuck t w'
  end.
Proof.
  intros Ht Hu Hc Hb Hn Hdone H.
  destruct (retreat_Ret _ _ _ H)
    as (au & ml & lu & gl & gp1 & Hau & Hml & Hlu & Hgl & Hgp1 & Hcase).
  destruct Ht as [Hsz Hnonneg Hsink Hv Ha].
  destruct Hcase as [[H0 ->]|(_ & lv1 & g2 & gp2 & cur1 & Hlv1 & Hg2 & Hgp2 & Hcur1 & ->)].
  - constructor; simpl.
    + constructor; simpl; auto.
    + exact Hu.
    + exact Hdone.
    + exists lu. split; [exact Hlu|]. rewrite <- (Hc _ _ Hgl). lia.
  - destruct (min_level_bounds _ _ _ _ Hml) as (Hmn & Hup & Hlow).
    destruct (Hdone _ Hau) as (cend & Hcend & Hend).
    assert (Hlu0 : 0 <= lu) by (eapply Hnonneg; eauto).
    assert (Hle : lu <= ml).
    { apply Hlow.
      - pose proof (Hb _ _ Hlu). lia.
      - intros e lt Hin Hres Hlt.
        apply list_elem_of_In, list_elem_of_lookup in Hin as [i Hi].
        assert (He : edge_of (w_adj w) (w_u w) (Z.of_nat i) = Some e).
        { unfold edge_of. rewrite Hau. apply zlookup_Some.
          rewrite Nat2Z.id. split; [lia|exact Hi]. }
        pose proof (Hv _ _ _ _ _ He Hres Hlu Hlt).
        apply lookup_lt_Some in Hi.
        assert (Hic : Z.of_nat i < cend) by (unfold size in Hend; lia).
        pose proof (Ha _ _ _ _ _ _ Hcend Hic He Hres Hlu Hlt). lia. }
    assert (Htidy : tidy t (mkWalk (w_adj w) lv1 gp2 cur1 [] (w_u w) (w_flow w))).
    { constructor; simpl.
      - rewrite (set_length _ _ _ _ _ Hlv1). exact Hsz.
      - intros x d Hx.
        destruct (set_zlookup _ _ _ _ _ _ _ Hlv1 Hx) as [[_ ->]|[_ Hx']];
          [lia|eauto].
      - rewrite (set_zlookup_ne _ _ _ _ _ _ Hlv1); auto.
      - intros x i e dx dy He Hres Hdx Hdy.
        destruct (set_zlookup _ _ _ _ _ _ _ Hlv1 Hdx) as [[-> ->]|[Hxu Hdx']];
          destruct (set_zlookup _ _ _ _ _ _ _ Hlv1 Hdy) as [[Hyu ->]|[Hyu Hdy']].
        + lia.
        + pose proof (Hup e dy (edge_of_In _ _ _ _ _ He Hau) Hres Hdy'). lia.
        + assert (Hlu' : zlookup (w_level w) (to e) = Some lu)
            by (rewrite Hyu; exact Hlu).
          pose proof (Hv _ _ _ _ _ He Hres Hdx' Hlu'). lia.
        + eapply Hv; eauto.
      - intros x c i e dx dy Hcx Hi He Hres Hdx Hdy.
        pose proof (edge_of_nonneg _ _ _ _ He) as Hi0.
        destruct (set_zlookup _ _ _ _ _ _ _ Hcur1 Hcx) as [[-> ->]|[Hxu Hcx']];
          [lia|].
        destruct (set_zlookup _ _ _ _ _ _ _ Hlv1 Hdx) as [[-> _]|[_ Hdx']];
          [contradiction|].
        destruct (set_zlookup _ _ _ _ _ _ _ Hlv1 Hdy) as [[Hyu ->]|[Hyu Hdy']].
        + assert (Hlu' : zlookup (w_level w) (to e) = Some lu)
            by (rewrite Hyu; exact Hlu).
          pose proof (Hv _ _ _ _ _ He Hres Hdx' Hlu').
          pose proof (Ha _ _ _ _ _ _ Hcx' Hi He Hres Hdx' Hlu'). lia.
        + eapply Ha; eauto. }
    destruct Htidy as [T1 T2 T3 T4 T5]. simpl in *.
    destruct (last (w_path w)); constructor; simpl; auto.
Qed.

Lemma step_tidy a0 s t nn w nx :
  walk_ok a0 s t w -> tidy t w ->
  counted (w_level w) (w_gap w) -> below (w_level w) (w_gap w) ->
  size (w_gap w) <= nn -> s <> t ->
  step s t nn w = Ret nx ->
  match nx with
  | Continue w' => tidy t w'
  | Break w' => stuck t w'
  end.
Proof.
  intros Hw Ht Hc Hb Hn Hst H. unfold step in H. inv_ret H.
  pose proof (augment_ok _ _ _ _ _ Hw Ew) as Hw1.
  pose proof (augment_tidy _ _ _ _ _ Hw Ht Ew) as Ht1.
  pose proof (augment_u _ _ _ _ Hst Ew) as Hu.
  destruct (augment_length _ _ _ _ Ew) as [H1 H2].
  rewrite <- H1, <- H2 in Hc, Hb. rewrite <- H2 in Hn.
  apply at_Ret in Ecu, Eau.
  pose proof (wk_cur _ _ _ _ Hw1 _ _ Ecu) as Hcu0.
  destruct Ht1 as [Hsz Hnonneg Hsink Hv Ha].
  pose proof (arcs_advance _ _ _ _ _ _ _ _ _ Ha Ecu Hcu0 Eau Epat Ecur1) as Ha1.
  destruct y as [e|].
  - inversion H. subst nx. constructor; simpl; auto.
  - refine (retreat_tidy t nn
              (mkWalk (w_adj w0) (w_level w0) (w_gap w0) cur1 (w_path w0)
                      (w_u w0) (w_flow w0)) nx _ Hu Hc Hb Hn _ H).
    + constructor; simpl; auto.
    + simpl. intros row Hrow. rewrite Eau in Hrow. inversion Hrow. subst row.
      exists x. split; [eapply set_zlookup_eq; eauto|].
      destruct (scan_skipped _ _ _ _ _ _ Epat) as [_ Hnone].
      rewrite (Hnone eq_refl), length_drop. unfold size. lia.
Qed.

(** ** The cut at the [break] *)

Lemma count_one (l : Z) (lv : list Z) (i : nat) :
  lv !! i = Some l -> 1 <= count l lv.
Proof.
  revert i. induction lv as [|d lv IH]; intros [|i] H; simpl in *; try discriminate.
  - inversion H. subst. rewrite Z.eqb_refl. pose proof (count_nonneg l lv). lia.
  - pose proof (IH _ H). destruct (d =? l); lia.
Qed.

Lemma count_two (l : Z) (lv : list Z) (i j : nat) :
  i <> j -> lv !! i = Some l -> lv !! j = Some l -> 2 <= count l lv.
Proof.
  revert i j. induction lv as [|d lv IH]; intros [|i] [|j] Hne Hi Hj;
    simpl in *; try discriminate; try congruence.
  - inversion Hi. subst. rewrite Z.eqb_refl. pose proof (count_one _ _ _ Hj). lia.
  - inversion Hj. subst. rewrite Z.eqb_refl. pose proof (count_one _ _ _ Hi). lia.
  - assert (2 <= count l lv) by (apply (IH i j); auto).
    destruct (d =? l); lia.
Qed.

Lemma count_unique (l : Z) (lv : list Z) (x y : Z) :
  count l lv = 1 -> zlookup lv x = Some l -> zlookup lv y = Some l -> x = y.
Proof.
  intros Hc [Hx0 Hx]%zlookup_Some [Hy0 Hy]%zlookup_Some.
  destruct (Z.eq_dec x y) as [|Hne]; [assumption|].
  assert (Z.to_nat x <> Z.to_nat y) by lia.
  pose proof (count_two l lv _ _ H Hx Hy). lia.
Qed.

Lemma run_tidy a0 s t nn fuel :
  forall w r,
    walk_ok a0 s t w -> tidy t w ->
    counted (w_level w) (w_gap w) -> below (w_level w) (w_gap w) ->
    size (w_gap w) <= nn -> s <> t ->
    run fuel s t nn w = Ret r ->
    walk_ok a0 s t (snd r) /\ stuck t (snd r).
Proof.
  induction fuel as [|fuel IH]; intros w r Hw Ht Hc Hb Hn Hst H; simpl in H;
    inv_ret H; apply at_Ret in Els; pose proof (Hb _ _ Els) as Hls.
  - destruct (Z.ltb_spec ls nn); [discriminate|lia].
  - destruct (Z.ltb_spec ls nn); [|lia].
    inv_ret H.
    pose proof (step_ok _ _ _ _ _ _ Hw Enx) as Hw'.
    pose proof (step_tidy _ _ _ _ _ _ Hw Ht Hc Hb Hn Hst Enx) as Ht'.
    pose proof (step_counted _ _ _ _ _ Hc Enx) as Hc'.
    pose proof (step_below _ _ _ _ _ Hb Enx) as Hb'.
    destruct (step_length _ _ _ _ _ Enx) as [_ Hg].
    destruct nx as [w'|w']; simpl in *.
    + apply (IH _ _ Hw' Ht' Hc' Hb'); [unfold size in *; lia|exact Hst|exact H].
    + inversion H. simpl. auto.
Qed.

(** At the [break] the nodes above the emptied label, with the current
    node, hold the source, not the sink, and no residual edge leaves
    them. *)
Lemma stuck_cut a0 s t w :
  walk_ok a0 s t w -> stuck t w -> s <> t ->
  exists S : Z -> bool,
    S s = true /\ S t = false /\ closed_cut (w_adj w) S.
Proof.
  intros Hw [[Hsz Hnonneg Hsink Hv Ha] Hu Hdone (l & Hl & Hcount)] Hst.
  exists (above (w_level w) (w_u w) l).
  assert (Hl0 : 0 <= l) by (eapply Hnonneg; eauto).
  split; [|split].
  - unfold above. destruct (Z.eqb_spec s (w_u w)) as [|Hne]; [reflexivity|]. simpl.
    pose proof (wk_start _ _ _ _ Hw) as Hstart.
    pose proof (wk_chain _ _ _ _ Hw) as Hc.
    destruct (w_path w) as [|p ps] eqn:Hpath; simpl in Hstart; [congruence|].
    subst p.
    pose proof Hc as [(c & e & lp & lq & _ & _ & _ & _ & Hlp & _) _].
    rewrite Hlp.
    assert (l < lp).
    { eapply (chain_lt 1 (w_adj w) (w_level w) (w_cur w) s ps (w_u w) (w_u w));
        eauto. apply in_or_app. right. left. reflexivity. }
    apply Z.ltb_lt. assumption.
  - unfold above. destruct (Z.eqb_spec t (w_u w)) as [Heq|_]; [congruence|].
    simpl. rewrite Hsink. apply Z.ltb_ge. exact Hl0.
  - intros x y (i & e & He & <- & Hres) HSx.
    destruct (wk_paired _ _ _ _ Hw _ _ _ He) as (r & Hr & _).
    destruct (edge_of_row _ _ _ _ He) as (row & Hrow & Hi).
    destruct (edge_of_row _ _ _ _ Hr) as (rowy & Hrowy & _).
    destruct (zlookup_length_eq _ (w_level w) _ _ Hsz Hrow) as [dx Hdx].
    destruct (zlookup_length_eq _ (w_level w) _ _ Hsz Hrowy) as [dy Hdy].
    pose proof (Hv _ _ _ _ _ He Hres Hdx Hdy) as Hval.
    unfold above in *. rewrite Hdx in HSx. rewrite Hdy.
    destruct (Z.eqb_spec (to e) (w_u w)) as [|Hyu]; [reflexivity|]. simpl.
    apply Z.ltb_lt.
    assert (Hdyl : dy <> l).
    { intros ->. apply Hyu. exact (count_unique _ _ _ _ Hcount Hdy Hl). }
    destruct (Z.eqb_spec x (w_u w)) as [->|Hxu]; simpl in HSx.
    + rewrite Hl in Hdx. inversion Hdx. subst dx.
      destruct (Hdone _ Hrow) as (c & Hc & Hend).
      apply zlookup_lt in Hi.
      assert (Hic : i < c) by lia.
      pose proof (Ha _ _ _ _ _ _ Hc Hic He Hres Hl Hdy). lia.
    + apply Z.ltb_lt in HSx. lia.
Qed.

Lemma closed_cut_reach (a : list (list Edge)) (S : Z -> bool) (x y : Z) :
  closed_cut a S -> reach a x y -> S x = true -> S y = true.
Proof.
  intros Hc H. induction H as [x|x y z Hxy _ IH]; [auto|].
  intros Hx. apply IH. exact (Hc _ _ Hxy Hx).
Qed.

Lemma cursors_start (a0 : list (list Edge)) :
  cursors_ok a0 (replicate (length a0) 0).
Proof.
  unfold cursors_ok. induction a0 as [|row a0 IH]; simpl; constructor; auto.
  unfold size. lia.
Qed.

(** When every node can reach the sink, the main loop starts from a
    steady walk. *)
Lemma isap_start (fuel : nat) (g g1 : Isap) (s t : Z) :
  reachable g ->
  (forall x, 0 <= x < n g -> reach (adj g) x t) ->
  bfs fuel g t = Ret g1 ->
  steady (adj g) s t (n g1)
         (mkWalk (adj g1) (level g1) (gap g1)
                 (replicate (Z.to_nat (n g1)) 0) [] s 0).
Proof.
  intros Hr Hall Eg1.
  destruct (reachable_paired_flows _ Hr) as [Hp Hf].
  pose proof (reachable_sized _ Hr) as (Hn & Hsa & Hsl & Hsg).
  destruct (bfs_Ret _ _ _ _ Eg1) as [Hn1 Ha1].
  destruct (bfs_length _ _ _ _ Eg1) as [Hl1 Hg1].
  pose proof (bfs_final _ _ _ _ Hp Eg1) as Hfin.
  pose proof (bfs_sink _ _ _ _ Eg1) as Hsink.
  pose proof (final_distance _ _ _ Hfin Hsink) as Hdist.
  assert (Hlab : forall x d, zlookup (level g1) x = Some d -> 0 <= d).
  { intros x d Hx. pose proof (zlookup_lt _ _ _ Hx) as Hxr.
    unfold size in *. rewrite Hl1 in Hxr.
    destruct (rtc_nsteps_1 _ _ (Hall x ltac:(lia))) as [k Hk].
    destruct (Hdist _ _ Hk) as (d' & Hd' & Hpos). rewrite Hx in Hd'.
    inversion Hd'. lia. }
  constructor; simpl.
  - rewrite Ha1. constructor; simpl; auto.
    + intros x c Hx. apply zlookup_replicate in Hx. lia.
    + intros. lia.
    + intros. lia.
  - constructor; simpl.
    + rewrite Ha1. unfold size in *. lia.
    + exact Hlab.
    + exact Hsink.
    + rewrite Ha1. intros x i e dx dy He Hres Hdx Hdy.
      destruct (Hfin _ _ Hdy) as [_ Hset].
      destruct Hset as [_ Hset]; [pose proof (Hlab _ _ Hdy); lia|].
      destruct (Hset x) as (dx' & dy' & Hdx' & _ & Hdy' & Hle).
      { exists i, e. auto. }
      rewrite Hdx in Hdx'. rewrite Hdy in Hdy'.
      inversion Hdx'. inversion Hdy'. lia.
    + intros x c i e dx dy Hc Hi He _ _ _.
      apply zlookup_replicate in Hc. apply edge_of_nonneg in He. lia.
  - exact (bfs_counted _ _ _ _ Eg1).
  - exact (bfs_below _ _ _ _ Eg1).
  - unfold size in *. lia.
  - replace (Z.to_nat (n g1)) with (length (adj g)) by (unfold size in *; lia).
    apply cursors_start.
Qed.

(** When every node can reach the sink, a call of [isap] that returns
    leaves a set of nodes with the source inside, the sink outside and no
    residual edge going out. *)
Lemma isap_cut (fuel : nat) (g : Isap) (s t : Z) (r : Z * Isap) :
  reachable g -> s <> t ->
  (forall x, 0 <= x < n g -> reach (adj g) x t) ->
  isap fuel g s t = Ret r ->
  exists S : Z -> bool,
    S s = true /\ S t = false /\ closed_cut (adj (snd r)) S.
Proof.
  intros Hr Hst Hall H.
  unfold isap in H. inv_ret H.
  pose proof (isap_start fuel g g1 s t Hr Hall Eg1) as [Hw Ht Hc Hb Hg _].
  apply at_Ret in Els. pose proof (td_nonneg _ _ Ht _ _ Els) as Hls.
  simpl in Hls.
  destruct (Z.eqb_spec ls (-1)) as [|_]; [lia|].
  inv_ret H. simpl.
  apply vector_Ret in Ecur as [_ ->].
  destruct (run_tidy _ _ _ _ _ _ _ Hw Ht Hc Hb Hg Hst Er) as [Hw' Hstuck].
  exact (stuck_cut _ _ _ _ Hw' Hstuck Hst).
Qed.

(** X16.  When every node has a residual path to the sink before the
    call (so that [bfs] leaves no node at -1), a call [isap(s, t)] with
    [s <> t] that returns leaves no augmenting path: in the residual graph
    of the flows it stored the sink cannot be reached from the source. *)
Theorem isap_leaves_no_augmenting_path_when_every_node_reaches_the_sink
    (fuel : nat) (g : Isap) (s t : Z) (r : Z * Isap) :
  reachable g -> s <> t ->
  (forall x, 0 <= x < n g -> reach (adj g) x t) ->
  isap fuel g s t = Ret r ->
  ~ reach (adj (snd r)) s t.
Proof.
  intros Hr Hst Hall H Hreach.
  destruct (isap_cut _ _ _ _ _ Hr Hst Hall H) as (S & Hs & Ht & Hc).
  pose proof (closed_cut_reach _ _ _ _ Hc Hreach Hs). congruence.
Qed.

Lemma graph1_all_reach x :
  0 <= x < n graph1_built -> reach (adj graph1_built) x 3.
Proof.
  intros Hx. simpl in Hx.
  assert (H13 : residual_edge (adj graph1_built) 1 3).
  { exists 2, (mkEdge 3 8 0 0). split; [reflexivity|]. split; [reflexivity|].
    simpl. lia. }
  assert (H23 : residual_edge (adj graph1_built) 2 3).
  { exists 2, (mkEdge 3 10 0 1). split; [reflexivity|]. split; [reflexivity|].
    simpl. lia. }
  assert (H01 : residual_edge (adj graph1_built) 0 1).
  { exists 0, (mkEdge 1 10 0 0). split; [reflexivity|]. split; [reflexivity|].
    simpl. lia. }
  assert (Hcases : x = 0 \/ x = 1 \/ x = 2 \/ x = 3) by lia.
  destruct Hcases as [ -> | [ -> | [ -> | -> ] ] ].
  - eapply rtc_l; [exact H01|]. eapply rtc_l; [exact H13|]. apply rtc_refl.
  - eapply rtc_l; [exact H13|]. apply rtc_refl.
  - eapply rtc_l; [exact H23|]. apply rtc_refl.
  - apply rtc_refl.
Qed.

Lemma isap_leaves_no_augmenting_path_when_every_node_reaches_the_sink_witness :
  ~ reach (adj graph1_after) 0 3.
Proof.
  apply (isap_leaves_no_augmenting_path_when_every_node_reaches_the_sink
           100 graph1_built 0 3 (12, graph1_after)).
  - apply (build_reachable 4 graph1).
    + unfold INT_MIN, INT_MAX. lia.
    + unfold graph1. repeat constructor; lia.
    + vm_compute. reflexivity.
  - lia.
  - exact graph1_all_reach.
  - vm_compute. reflexivity.
Defined.

(** ** The value returned against every flow of the network *)

(** Every call [(x, y, c)] of [add_edge] left a forward record whose flow
    [f] is within [0 .. c]; capacity left on it is a residual edge
    [x -> y], and flow on it is a residual edge [y -> x] (the reverse
    record, of capacity 0, holds [-f]). *)
Lemma calls_residual cs :
  forall g0 g a3,
    paired a3 -> flows_ok a3 ->
    add_edges g0 cs = Ret g -> shape a3 = shape (adj g) ->
    exists xs,
      Forall2 (fun '(x, y, c) f =>
                 0 <= f <= c /\ (f < c -> residual_edge a3 x y) /\
                 (0 < f -> residual_edge a3 y x)) cs xs /\
      forall w, excess a3 w
                = pre a3 w (rowlen (adj g0) w) + net_out (assign cs xs) w.
Proof.
  induction cs as [|[[x y] c] cs IH]; intros g0 g a3 Hp Hf H Hsh; simpl in H.
  - inversion H. subst g0. exists []. split; [constructor|].
    intros w. rewrite pre_all by (rewrite (rowlen_shape _ _ w Hsh); lia).
    unfold net_out, sumZ. simpl. lia.
  - inv_ret H. rename g' into g1, Eg' into Hadd.
    destruct (IH _ _ _ Hp Hf H Hsh) as (xs & Hxs & Hex).
    destruct (add_edge_edges _ _ _ _ _ Hadd)
      as (su & sv & (au & Hau & ->) & (av & Hav & ->) & Hspec).
    assert (Hfwd1 : edge_of (adj g1) x (size au) = Some (mkEdge y c 0 (size av)))
      by (apply Hspec; auto).
    assert (Hbwd1 : edge_of (adj g1) y (size av + (if x =? y then 1 else 0))
                    = Some (mkEdge x 0 0 (size au)))
      by (apply Hspec; auto).
    apply (add_edges_edge_mono _ _ _ _ _ _ H) in Hfwd1, Hbwd1.
    destruct (shape_edge _ _ _ _ _ (eq_sym Hsh) Hfwd1)
      as (ef & Hef & Hfto & Hfcap & Hfrev).
    destruct (shape_edge _ _ _ _ _ (eq_sym Hsh) Hbwd1)
      as (eb & Heb & Hbto & Hbcap & Hbrev).
    simpl in *.
    assert (Hpart' : edge_of a3 (to eb) (rev eb) = Some ef)
      by (rewrite Hbto, Hbrev; exact Hef).
    destruct (Hf _ _ _ _ Heb Hpart') as [H3 H4].
    destruct (Hp _ _ _ Hef) as (rf & Hrf & _).
    destruct (Hf _ _ _ _ Hef Hrf) as [_ H2].
    exists (flow ef :: xs). split.
    + constructor; [|exact Hxs].
      split; [lia|]. split.
      * intros Hlt. exists (size au), ef. split; [exact Hef|].
        split; [exact Hfto|lia].
      * intros Hpos. exists (size av + (if x =? y then 1 else 0)), eb.
        split; [exact Heb|]. split; [exact Hbto|lia].
    + intros w. rewrite Hex. simpl. rewrite net_out_cons.
      rewrite (rowlen_add_edge _ _ _ _ _ w Hadd).
      pose proof (rowlen_size _ _ _ Hau) as Hlu.
      pose proof (rowlen_size _ _ _ Hav) as Hlv.
      rewrite <- Hlu in Hef. rewrite <- Hlv in Heb.
      destruct (Z.eq_dec w x) as [Hwx|Hwx]; destruct (Z.eq_dec w y) as [Hwy|Hwy].
      * destruct Hwx. destruct Hwy. rewrite ?Z.eqb_refl in *.
        replace (rowlen (adj g0) w + 1 + 1)%nat with (S (S (rowlen (adj g0) w)))
          by lia.
        rewrite (pre_S a3 w (S (rowlen (adj g0) w)) eb)
          by (rewrite Nat2Z.inj_succ; unfold Z.succ; exact Heb).
        rewrite (pre_S a3 w _ ef Hef). lia.
      * destruct Hwx. rewrite ?Z.eqb_refl in *.
        destruct (Z.eqb_spec w y); [congruence|].
        destruct (Z.eqb_spec y w); [congruence|].
        replace (rowlen (adj g0) w + 1 + 0)%nat with (S (rowlen (adj g0) w)) by lia.
        rewrite (pre_S a3 w _ ef Hef). lia.
      * destruct Hwy. rewrite ?Z.eqb_refl in *.
        destruct (Z.eqb_spec w x); [congruence|].
        destruct (Z.eqb_spec x w); [congruence|].
        replace (rowlen (adj g0) w + 0 + 1)%nat with (S (rowlen (adj g0) w)) by lia.
        rewrite Z.add_0_r in Heb. rewrite (pre_S a3 w _ eb Heb). lia.
      * destruct (Z.eqb_spec w x); [congruence|].
        destruct (Z.eqb_spec w y); [congruence|].
        destruct (Z.eqb_spec x w); [congruence|].
        destruct (Z.eqb_spec y w); [congruence|].
        replace (rowlen (adj g0) w + 0 + 0)%nat with (rowlen (adj g0) w) by lia.
        lia.
Qed.

Lemma cut_net_cons (S : Z -> bool) (a b x : Z) (l : list (Z * Z * Z)) :
  cut_net S ((a, b, x) :: l)
  = (if S a then x else 0) - (if S b then x else 0) + cut_net S l.
Proof. reflexivity. Qed.

(** Summing the net outflow over the nodes of [S] leaves what crosses the
    boundary of [S]. *)
Lemma cut_net_nodes (S : Z -> bool) (k : Z) (l : list (Z * Z * Z)) :
  Forall (fun '(a, b, _) => 0 <= a < k /\ 0 <= b < k) l ->
  sumZ (map (fun w => if S w then net_out l w else 0) (iota k)) = cut_net S l.
Proof.
  induction 1 as [|[[a b] x] l [Ha Hb] Hl IH].
  - unfold net_out, cut_net, sumZ. simpl.
    induction (iota k) as [|w ws IHw]; simpl; [reflexivity|].
    rewrite IHw. destruct (S w); reflexivity.
  - rewrite cut_net_cons, <- IH.
    rewrite (sumZ_map_ext _ (fun w => ((if w =? a then (if S w then x else 0) else 0)
                                        + - (if w =? b then (if S w then x else 0) else 0))
                                       + (if S w then net_out l w else 0))).
    + rewrite sumZ_map_add, sumZ_map_add, sumZ_map_opp.
      rewrite (sum_indicator (fun i => if S i then x else 0) a k Ha).
      rewrite (sum_indicator (fun i => if S i then x else 0) b k Hb). lia.
    + intros w _. rewrite net_out_cons, (Z.eqb_sym a w), (Z.eqb_sym b w).
      destruct (S w), (w =? a), (w =? b); lia.
Qed.

(** With the source in [S], the sink outside and conservation elsewhere,
    that sum is the net outflow of the source. *)
Lemma cut_net_source (S : Z -> bool) (k s t : Z) (l : list (Z * Z * Z)) :
  0 <= s < k -> S s = true -> S t = false ->
  (forall w, w <> s -> w <> t -> net_out l w = 0) ->
  sumZ (map (fun w => if S w then net_out l w else 0) (iota k)) = net_out l s.
Proof.
  intros Hs HSs HSt Hcons.
  rewrite (sumZ_map_ext _ (fun w => if w =? s then net_out l w else 0)).
  - apply (sum_indicator (net_out l) s k Hs).
  - intros w _. destruct (Z.eqb_spec w s) as [->|Hws]; [rewrite HSs; reflexivity|].
    destruct (Z.eq_dec w t) as [->|Hwt]; [rewrite HSt; reflexivity|].
    rewrite (Hcons w Hws Hwt). destruct (S w); reflexivity.
Qed.

Lemma assign_ends (P : Z -> Z -> Prop) (es : list (Z * Z * Z)) :
  Forall (fun '(a, b, _) => P a b) es ->
  forall xs, Forall (fun '(a, b, _) => P a b) (assign es xs).
Proof.
  induction 1 as [|[[a b] c] es Hab _ IH]; intros [|x xs]; simpl;
    constructor; auto.
Qed.

Lemma cut_net_le_cap (S : Z -> bool) (es : list (Z * Z * Z)) (xs : list Z) :
  Forall2 (fun '(_, _, c) x => 0 <= x <= c) es xs ->
  cut_net S (assign es xs) <= cut_cap S es.
Proof.
  induction 1 as [|[[a b] c] x es xs Hx _ IH]; [reflexivity|].
  change (assign ((a, b, c) :: es) (x :: xs)) with ((a, b, x) :: assign es xs).
  rewrite cut_net_cons. unfold cut_cap in *. simpl. unfold sumZ in *. simpl.
  destruct (S a), (S b); simpl; lia.
Qed.

Lemma cut_net_saturated (S : Z -> bool) (es : list (Z * Z * Z)) (xs : list Z) :
  Forall2 (fun '(a, b, c) x =>
             (S a = true -> S b = false -> x = c) /\
             (S a = false -> S b = true -> x = 0)) es xs ->
  cut_net S (assign es xs) = cut_cap S es.
Proof.
  induction 1 as [|[[a b] c] x es xs [H1 H2] _ IH]; [reflexivity|].
  change (assign ((a, b, c) :: es) (x :: xs)) with ((a, b, x) :: assign es xs).
  rewrite cut_net_cons. unfold cut_cap in *. simpl. unfold sumZ in *. simpl.
  destruct (S a), (S b); simpl.
  - lia.
  - rewrite (H1 eq_refl eq_refl). lia.
  - rewrite (H2 eq_refl eq_refl). lia.
  - lia.
Qed.

(** X17.  The max-flow answer is right whenever the labelling has no hole:
    on a graph built from the triples [es] (capacities not negative),
    with [s <> t], if every node has a path to [t] along edges with
    capacity left, a call [isap(s, t)] that returns gives the value of a
    flow of the network, and no flow of the network has a larger value. *)
Theorem isap_returns_the_maximum_flow_when_every_node_reaches_the_sink
    (fuel : nat) (k : Z) (es : list (Z * Z * Z)) (g g' : Isap) (s t f : Z) :
  INT_MIN <= k <= INT_MAX ->
  Forall (fun '(_, _, c) => 0 <= c) es ->
  build k es = Ret g -> s <> t ->
  (forall x, 0 <= x < k -> reach (adj g) x t) ->
  isap fuel g s t = Ret (f, g') ->
  (exists xs, is_flow es s t xs /\ flow_value es s xs = f) /\
  (forall xs, is_flow es s t xs -> flow_value es s xs <= f).
Proof.
  intros Hk Hcs Hb Hst Hall Hi.
  pose proof (build_reachable _ _ _ Hk Hcs Hb) as Hr.
  destruct (reachable_paired_flows _ Hr) as [Hp Hf].
  pose proof (reachable_sized _ Hr) as (_ & _ & Hsl & _).
  destruct (isap_indices _ _ _ _ _ Hi) as [Hs _].
  unfold build in Hb. inv_ret Hb. rename g0 into gc, Eg into Hc.
  pose proof (create_Ret _ _ Hc) as (Hk0 & Hnc & Hac & _).
  assert (Hng : n g = k).
  { clear -Hb Hnc. revert gc Hb Hnc. induction es as [|[[x y] c] es IH];
      intros gc Hb Hnc; simpl in Hb.
    - inversion Hb as [Heq]. rewrite <- Heq. exact Hnc.
    - inv_ret Hb. apply (IH _ Hb).
      destruct (add_edge_Ret _ _ _ _ _ Eg')
        as (? & ? & ? & ? & _ & _ & _ & _ & _ & _ & Hn1 & _). congruence. }
  rewrite Hsl, Hng in Hs.
  assert (Hends : Forall (fun '(x, y, _) => 0 <= x < k /\ 0 <= y < k) es).
  { pose proof (proj1 (add_edges_returns es gc) (ex_intro _ g Hb)) as He.
    rewrite Hac in He. unfold size in He. rewrite length_replicate in He.
    rewrite Z2Nat.id in He by exact Hk0. exact He. }
  assert (H0 : forall w, excess (adj g) w = 0).
  { intros w. rewrite (add_edges_excess _ _ _ w Hb). eapply create_excess; eauto. }
  destruct (isap_ok _ _ _ _ _ Hp Hf Hi) as (Hp' & Hf' & Hsh & _ & Hin & Hsrc & _).
  simpl in *.
  destruct (isap_cut _ _ _ _ _ Hr Hst ltac:(rewrite Hng; exact Hall) Hi)
    as (S & HSs & HSt & Hcut).
  simpl in Hcut.
  destruct (calls_residual _ _ _ _ Hp' Hf' Hb Hsh) as (phi & Hphi & Hdec).
  assert (Hnet : forall w, excess (adj g') w = net_out (assign es phi) w).
  { intros w. rewrite Hdec, (rowlen_create _ _ w Hc). unfold pre.
    destruct (zlookup (adj g') w); simpl; unfold sumZ; simpl; lia. }
  assert (Hflow : is_flow es s t phi).
  { split.
    - eapply Forall2_impl; [exact Hphi|]. intros [[a b] c] x Hx. tauto.
    - intros w Hws Hwt. rewrite <- Hnet, Hin, H0 by auto. reflexivity. }
  assert (Hval : flow_value es s phi = f).
  { unfold flow_value. rewrite <- Hnet, (Hsrc Hst), H0. lia. }
  split; [exists phi; auto|].
  intros xs [Hxs Hcons]. unfold flow_value.
  rewrite <- (cut_net_source S k s t _ Hs HSs HSt Hcons).
  rewrite (cut_net_nodes S k) by (apply assign_ends; exact Hends).
  rewrite <- Hval. unfold flow_value.
  rewrite <- (cut_net_source S k s t _ Hs HSs HSt (proj2 Hflow)).
  rewrite (cut_net_nodes S k) by (apply assign_ends; exact Hends).
  rewrite (cut_net_saturated S es phi).
  - apply cut_net_le_cap. exact Hxs.
  - eapply Forall2_impl; [exact Hphi|]. intros [[a b] c] x (Hx & Hfw & Hbw).
    split.
    + intros Ha Hb'. destruct (Z.eq_dec x c) as [|Hne]; [assumption|].
      pose proof (Hcut _ _ (Hfw ltac:(lia)) Ha). congruence.
    + intros Ha Hb'. destruct (Z.eq_dec x 0) as [|Hne]; [assumption|].
      pose proof (Hcut _ _ (Hbw ltac:(lia)) Hb'). congruence.
Qed.

Lemma isap_returns_the_maximum_flow_when_every_node_reaches_the_sink_witness :
  (exists xs, is_flow graph1 0 3 xs /\ flow_value graph1 0 xs = 12) /\
  (forall xs, is_flow graph1 0 3 xs -> flow_value graph1 0 xs <= 12).
Proof.
  apply (isap_returns_the_maximum_flow_when_every_node_reaches_the_sink
           100 4 graph1 graph1_built graph1_after 0 3 12).
  - unfold INT_MIN, INT_MAX. lia.
  - unfold graph1. repeat constructor; lia.
  - vm_compute. reflexivity.
  - lia.
  - exact graph1_all_reach.
  - vm_compute. reflexivity.
Defined.

(** ** The only vector the engine can overrun is [gap] *)

Lemma in_range_only_gap {A} (m : Res A) : in_range m -> only_gap m.
Proof. intros H w i Hm. exfalso. exact (H w i Hm). Qed.

Lemma in_range_Ret {A} (a : A) : in_range (Ret a).
Proof. intros w i H. discriminate H. Qed.

Lemma in_range_bind {A B} (m : Res A) (k : A -> Res B) :
  in_range m -> (forall a, m = Ret a -> in_range (k a)) -> in_range (bind m k).
Proof.
  intros Hm Hk w i H. destruct m as [a|e|]; simpl in H.
  - exact (Hk a eq_refl w i H).
  - inversion H. subst e. exact (Hm w i eq_refl).
  - discriminate H.
Qed.

Lemma only_gap_bind {A B} (m : Res A) (k : A -> Res B) :
  only_gap m -> (forall a, m = Ret a -> only_gap (k a)) -> only_gap (bind m k).
Proof.
  intros Hm Hk w i H. destruct m as [a|e|]; simpl in H.
  - exact (Hk a eq_refl w i H).
  - inversion H. subst e. exact (Hm w i eq_refl).
  - discriminate H.
Qed.

Lemma in_range_int (z : Z) : in_range (int z).
Proof.
  intros w i H. unfold int in H.
  destruct ((INT_MIN <=? z) && (z <=? INT_MAX)); discriminate H.
Qed.

Lemma only_gap_at_gap {A} (gp : list A) (i : Z) : only_gap (at_ Vgap gp i).
Proof.
  intros w j H. unfold at_ in H.
  destruct (0 <=? i); [destruct (gp !! Z.to_nat i)|]; inversion H; reflexivity.
Qed.

Lemma only_gap_set_gap {A} (gp : list A) (i : Z) (x : A) :
  only_gap (set_ Vgap gp i x).
Proof.
  intros w j H. unfold set_ in H.
  destruct ((0 <=? i) && (i <? size gp)); inversion H; reflexivity.
Qed.

Lemma set_edge_total (a : list (list Edge)) (x i : Z) (e e' : Edge) :
  edge_of a x i = Some e -> exists a', set_edge a x i e' = Ret a'.
Proof.
  intros (row & Hrow & Hi)%edge_of_row. unfold set_edge.
  rewrite (at_zlookup _ _ _ _ Hrow). simpl.
  rewrite (set_in_range Vrow row i e' (zlookup_lt _ _ _ Hi)). simpl.
  rewrite (set_in_range Vadj a x _ (zlookup_lt _ _ _ Hrow)). eauto.
Qed.

Lemma bottleneck_in_range (f : Z) (a : list (list Edge)) (lv cur : list Z)
    (tip : Z) (ps : list Z) :
  forall f0, chain f a lv cur ps tip -> in_range (bottleneck a cur ps f0).
Proof.
  induction ps as [|p ps IH]; intros f0 Hc; simpl; [apply in_range_Ret|].
  destruct Hc as [(c & e & lp & lq & Hcur & He & _) Hc].
  rewrite (at_zlookup _ _ _ _ Hcur). simpl.
  rewrite (proj2 (edge_at_Ret _ _ _ _) He). simpl.
  apply in_range_bind; [apply in_range_int|]. intros r _. apply IH. exact Hc.
Qed.

Lemma push_in_range (f : Z) (lv cur : list Z) (tip : Z) (ps : list Z) :
  forall a,
    paired a -> flows_ok a -> 0 <= f -> chain f a lv cur ps tip ->
    in_range (push a cur ps f).
Proof.
  induction ps as [|p ps IH]; intros a Hp Hf Hf0 Hc; simpl; [apply in_range_Ret|].
  pose proof Hc as [(c & e & lp & lq & Hcur & He & Hto & _ & Hlp & Hlq & Hlev) _].
  rewrite (at_zlookup _ _ _ _ Hcur). simpl.
  rewrite (proj2 (edge_at_Ret _ _ _ _) He). simpl.
  apply in_range_bind; [apply in_range_int|]. intros fl Hfl.
  apply int_Ret in Hfl as [-> _].
  destruct (set_edge_total a p c e (set_flow e (flow e + f)) He) as [a1 Hs1].
  rewrite Hs1. simpl.
  rewrite (proj2 (edge_at_Ret _ _ _ _) (edge_of_set_edge_eq _ _ _ _ _ Hs1)).
  simpl.
  assert (Hne : to e <> p).
  { intros Heq. rewrite <- Heq, Hto, Hlq in Hlp. inversion Hlp. lia. }
  destruct (Hp _ _ _ He) as (r & Hr & _).
  assert (Hr1 : edge_of a1 (to e) (rev e) = Some r).
  { rewrite <- Hr. eapply edge_of_set_edge_ne; eauto. }
  rewrite (proj2 (edge_at_Ret _ _ _ _) Hr1). simpl.
  apply in_range_bind; [apply in_range_int|]. intros fr Hfr.
  apply int_Ret in Hfr as [-> _].
  destruct (set_edge_total a1 (to e) (rev e) r (set_flow r (flow r - f)) Hr1)
    as [a2 Hs2].
  rewrite Hs2. simpl.
  destruct (push_head _ _ _ _ _ _ _ _ _ _ _ _ Hp Hf Hf0 Hc Hcur He Hs1 Hr1 Hs2)
    as (_ & _ & Hp2 & Hf2 & Hc2).
  exact (IH _ Hp2 Hf2 Hf0 Hc2).
Qed.

Lemma scan_in_range (lv : list Z) (x lx : Z) (es : list Edge) :
  zlookup lv x = Some lx ->
  (forall e, In e es -> exists lt, zlookup lv (to e) = Some lt) ->
  forall c, in_range (scan lv x es c).
Proof.
  intros Hx. induction es as [|e es IH]; intros Hes c; simpl;
    [apply in_range_Ret|].
  assert (Hes' : forall e', In e' es -> exists lt, zlookup lv (to e') = Some lt)
    by (intros; apply Hes; right; assumption).
  destruct (flow e <? cap e); [|apply IH; exact Hes'].
  rewrite (at_zlookup _ _ _ _ Hx). simpl.
  destruct (Hes e (or_introl eq_refl)) as [lt Hlt].
  rewrite (at_zlookup _ _ _ _ Hlt). simpl.
  apply in_range_bind; [apply in_range_int|]. intros d _.
  destruct (lx =? d); [apply in_range_Ret|apply IH; exact Hes'].
Qed.

Lemma min_level_in_range (lv : list Z) (es : list Edge) :
  (forall e, In e es -> exists lt, zlookup lv (to e) = Some lt) ->
  forall m, in_range (min_level lv es m).
Proof.
  induction es as [|e es IH]; intros Hes m; simpl; [apply in_range_Ret|].
  assert (Hes' : forall e', In e' es -> exists lt, zlookup lv (to e') = Some lt)
    by (intros; apply Hes; right; assumption).
  destruct (flow e <? cap e); [|apply IH; exact Hes'].
  destruct (Hes e (or_introl eq_refl)) as [lt Hlt].
  rewrite (at_zlookup _ _ _ _ Hlt). simpl. apply IH. exact Hes'.
Qed.

Lemma targets_labelled (a : list (list Edge)) (lv : list Z) (x : Z) (row : list Edge) :
  paired a -> length lv = length a -> zlookup a x = Some row ->
  forall e, In e row -> exists lt, zlookup lv (to e) = Some lt.
Proof.
  intros Hp Hlen Hrow e Hin.
  apply list_elem_of_In, list_elem_of_lookup in Hin as [i Hi].
  assert (He : edge_of a x (Z.of_nat i) = Some e).
  { unfold edge_of. rewrite Hrow. apply zlookup_Some.
    rewrite Nat2Z.id. split; [lia|exact Hi]. }
  destruct (Hp _ _ _ He) as (r & Hr & _).
  destruct (edge_of_row _ _ _ _ Hr) as (rowy & Hrowy & _).
  exact (zlookup_length_eq _ lv _ _ Hlen Hrowy).
Qed.

Lemma retreat_only_gap (nn : Z) (w : Walk) :
  paired (w_adj w) -> roomy w -> 0 <= w_u w < size (w_adj w) ->
  only_gap (retreat nn w).
Proof.
  intros Hp [Hl Hc] Hu. unfold retreat.
  destruct (zlookup_in_range _ _ Hu) as [au Hau].
  rewrite (at_zlookup _ _ _ _ Hau). simpl.
  apply only_gap_bind.
  { apply in_range_only_gap, min_level_in_range.
    exact (targets_labelled _ _ _ _ Hp Hl Hau). }
  intros ml _.
  destruct (zlookup_in_range (w_level w) (w_u w)) as [lu Hlu];
    [unfold size in *; lia|].
  rewrite (at_zlookup _ _ _ _ Hlu). simpl.
  apply only_gap_bind; [apply only_gap_at_gap|]. intros gl _.
  apply only_gap_bind; [apply in_range_only_gap, in_range_int|]. intros gl' _.
  apply only_gap_bind; [apply only_gap_set_gap|]. intros gp1 _.
  destruct (gl' =? 0); [apply in_range_only_gap, in_range_Ret|].
  apply only_gap_bind; [apply in_range_only_gap, in_range_int|]. intros nl _.
  rewrite (set_in_range Vlevel (w_level w) (w_u w) nl)
    by (unfold size in *; lia).
  simpl.
  apply only_gap_bind; [apply only_gap_at_gap|]. intros g2 _.
  apply only_gap_bind; [apply in_range_only_gap, in_range_int|]. intros g2' _.
  apply only_gap_bind; [apply only_gap_set_gap|]. intros gp2 _.
  rewrite (set_in_range Vcur (w_cur w) (w_u w) 0) by (unfold size in *; lia).
  simpl. apply in_range_only_gap.
  destruct (last (w_path w)); apply in_range_Ret.
Qed.

Lemma walk_u_range a0 s t w :
  walk_ok a0 s t w -> length (w_level w) = length (w_adj w) ->
  0 <= s < size (w_adj w) -> 0 <= w_u w < size (w_adj w).
Proof.
  intros Hw Hl Hs. pose proof (wk_start _ _ _ _ Hw) as Hst.
  pose proof (wk_chain _ _ _ _ Hw) as Hc.
  destruct (w_path w) as [|p ps]; simpl in Hst; [rewrite Hst; exact Hs|].
  destruct (chain_tip_level _ _ _ _ _ _ _ Hc) as [lt Hlt].
  apply zlookup_lt in Hlt. unfold size in *. lia.
Qed.

Lemma walk_adj_length a0 s t w :
  walk_ok a0 s t w -> length (w_adj w) = length a0.
Proof. intros Hw. apply shape_length. exact (wk_shape _ _ _ _ Hw). Qed.

Lemma augment_cur s t w w' : augment s t w = Ret w' -> w_cur w' = w_cur w.
Proof.
  unfold augment. destruct (w_u w =? t); intros H; inv_ret H; reflexivity.
Qed.

Lemma In_drop {A} (k : nat) (l : list A) (x : A) : In x (drop k l) -> In x l.
Proof.
  intros H. apply list_elem_of_In, list_elem_of_lookup in H as [i Hi].
  rewrite lookup_drop in Hi.
  apply list_elem_of_In, list_elem_of_lookup. eauto.
Qed.

Lemma step_only_gap a0 s t nn w :
  walk_ok a0 s t w -> roomy w -> 0 <= s < size a0 -> only_gap (step s t nn w).
Proof.
  intros Hw [Hl Hc] Hs. unfold step. apply only_gap_bind.
  - unfold augment. destruct (w_u w =? t); [|apply in_range_only_gap, in_range_Ret].
    apply in_range_only_gap.
    apply in_range_bind;
      [apply (bottleneck_in_range 1 _ (w_level w) _ (w_u w)); apply Hw|].
    intros f Hf.
    destruct (bottleneck_chain _ _ _ _ _ _ _ (wk_chain _ _ _ _ Hw) INF_pos Hf)
      as [Hpos Hcf].
    apply in_range_bind.
    { apply (push_in_range f (w_level w) _ (w_u w)); try apply Hw; [lia|exact Hcf]. }
    intros a' _. apply in_range_bind; [apply in_range_int|].
    intros fl _. apply in_range_Ret.
  - intros w0 Ew.
    pose proof (augment_ok _ _ _ _ _ Hw Ew) as Hw0.
    destruct (augment_length _ _ _ _ Ew) as [H1 _].
    pose proof (augment_cur _ _ _ _ Ew) as H2.
    pose proof (walk_adj_length _ _ _ _ Hw) as Ha.
    pose proof (walk_adj_length _ _ _ _ Hw0) as Ha0.
    assert (Hl0 : length (w_level w0) = length (w_adj w0)) by congruence.
    assert (Hc0 : length (w_cur w0) = length (w_adj w0)) by congruence.
    assert (Hu : 0 <= w_u w0 < size (w_adj w0)).
    { apply (walk_u_range _ _ _ _ Hw0 Hl0). unfold size in *. lia. }
    destruct (zlookup_in_range (w_cur w0) (w_u w0)) as [cu Hcu];
      [unfold size in *; lia|].
    destruct (zlookup_in_range _ _ Hu) as [au Hau].
    destruct (zlookup_in_range (w_level w0) (w_u w0)) as [lu Hlu];
      [unfold size in *; lia|].
    rewrite (at_zlookup _ _ _ _ Hcu). simpl.
    rewrite (at_zlookup _ _ _ _ Hau). simpl.
    apply only_gap_bind.
    { apply in_range_only_gap. apply (scan_in_range _ _ lu); [exact Hlu|].
      intros e He%In_drop.
      exact (targets_labelled _ _ _ _ (wk_paired _ _ _ _ Hw0) Hl0 Hau e He). }
    intros [c found] _.
    rewrite (set_in_range Vcur (w_cur w0) (w_u w0) c) by (unfold size in *; lia).
    simpl. destruct found as [e|]; [apply in_range_only_gap, in_range_Ret|].
    apply retreat_only_gap; simpl.
    + exact (wk_paired _ _ _ _ Hw0).
    + split; simpl; [exact Hl0|]. rewrite length_insert. exact Hc0.
    + exact Hu.
Qed.

Lemma step_cur_length s t nn w nx :
  step s t nn w = Ret nx -> length (w_cur (next_walk nx)) = length (w_cur w).
Proof.
  unfold step. intros H. inv_ret H.
  rewrite <- (augment_cur _ _ _ _ Ew).
  pose proof (set_length _ _ _ _ _ Ecur1) as Hc1.
  destruct y as [e|]; [inversion H; simpl; exact Hc1|].
  destruct (retreat_Ret _ _ _ H) as (au' & ml & lu & gl & gp1 & _ & _ & _ & _ & _ & Hcase).
  simpl in Hcase.
  destruct Hcase as [[_ ->]|(_ & lv1 & g2 & gp2 & cur2 & _ & _ & _ & Hcur2 & ->)];
    simpl; [exact Hc1|].
  pose proof (set_length _ _ _ _ _ Hcur2) as Hc2.
  destruct (last (w_path w0)); simpl; congruence.
Qed.

Lemma run_only_gap a0 s t nn fuel :
  forall w, walk_ok a0 s t w -> roomy w -> 0 <= s < size a0 ->
            only_gap (run fuel s t nn w).
Proof.
  induction fuel as [|fuel IH]; intros w Hw [Hl Hc] Hs; simpl.
  all: pose proof (walk_adj_length _ _ _ _ Hw) as Ha.
  all: destruct (zlookup_in_range (w_level w) s) as [ls Hls];
    [unfold size in *; lia|].
  all: rewrite (at_zlookup _ _ _ _ Hls); simpl.
  all: destruct (ls <? nn); [|apply in_range_only_gap, in_range_Ret].
  - intros v i H. discriminate H.
  - apply only_gap_bind; [apply (step_only_gap a0); auto; split; auto|].
    intros nx Hnx.
    destruct nx as [w'|w']; [|apply in_range_only_gap, in_range_Ret].
    pose proof (step_ok _ _ _ _ _ _ Hw Hnx) as Hw'.
    pose proof (walk_adj_length _ _ _ _ Hw') as Ha'.
    destruct (step_length _ _ _ _ _ Hnx) as [Hl' _].
    pose proof (step_cur_length _ _ _ _ _ Hnx) as Hc'.
    simpl in *. apply IH; [exact Hw'| |exact Hs].
    split; congruence.
Qed.

(** *** [bfs] indexes nothing out of range *)

Lemma bfs_loop_fault a fuel :
  forall lv gp q e fuel',
    bfs_loop fuel a lv gp q = Fault e -> (fuel <= fuel')%nat ->
    bfs_loop fuel' a lv gp q = Fault e.
Proof.
  induction fuel as [|fuel IH]; intros lv gp q e fuel' H Hle; simpl in H.
  - destruct q; discriminate H.
  - destruct q as [|x q]; [discriminate H|].
    destruct fuel' as [|fuel']; [lia|]. simpl.
    destruct (at_ Vadj a x) as [au|e'|]; simpl in *; [|exact H|discriminate H].
    destruct (bfs_edges a x au lv gp q) as [[[lv' gp'] q']|e'|]; simpl in *;
      [|exact H|discriminate H].
    apply (IH _ _ _ _ _ H). lia.
Qed.

Lemma bfs_in_range (fuel : nat) (g : Isap) (t : Z) :
  reachable g -> 0 <= t < n g -> in_range (bfs fuel g t).
Proof.
  intros Hr Ht w i H.
  destruct (reachable_paired_flows _ Hr) as [Hp _].
  pose proof (reachable_sized _ Hr) as (Hn & Ha & Hl & Hg).
  unfold size in Ha, Hl, Hg.
  destruct (bfs_ok_total (adj g) t Hp ltac:(unfold size; lia)
              (fuel + length (adj g)) g eq_refl)
    as (lv & gp & Hb & _); try lia; [unfold size; lia|].
  unfold bfs in H, Hb.
  destruct (set_ Vlevel _ t 0) as [lv1| |]; simpl in *; try discriminate Hb.
  destruct (set_ Vgap _ 0 1) as [gp1| |]; simpl in *; try discriminate Hb.
  destruct (bfs_loop fuel (adj g) lv1 gp1 [t]) as [[lv' gp']|e|] eqn:Hloop;
    simpl in H; try discriminate H.
  rewrite (bfs_loop_fault _ _ _ _ _ _ (fuel + length (adj g)) Hloop) in Hb by lia.
  discriminate Hb.
Qed.

Lemma isap_only_gap (fuel : nat) (g : Isap) (s t : Z) :
  reachable g -> 0 <= s < n g -> 0 <= t < n g -> only_gap (isap fuel g s t).
Proof.
  intros Hr Hs Ht.
  destruct (reachable_paired_flows _ Hr) as [Hp Hf].
  pose proof (reachable_sized _ Hr) as (Hn & Ha & Hl & Hg).
  unfold isap. apply only_gap_bind.
  { apply in_range_only_gap, bfs_in_range; assumption. }
  intros g1 Eg1.
  destruct (bfs_Ret _ _ _ _ Eg1) as [Hn1 Ha1].
  destruct (bfs_length _ _ _ _ Eg1) as [Hl1 _].
  destruct (zlookup_in_range (level g1) s) as [ls Hls];
    [unfold size in *; lia|].
  rewrite (at_zlookup _ _ _ _ Hls). simpl.
  destruct (ls =? -1); [apply in_range_only_gap, in_range_Ret|].
  unfold vector. destruct (Z.leb_spec 0 (n g1)) as [_|]; [|lia]. simpl.
  apply only_gap_bind; [|intros r _; apply in_range_only_gap, in_range_Ret].
  apply (run_only_gap (adj g)).
  - rewrite Ha1. constructor; simpl; auto.
    + intros x c Hx. apply zlookup_replicate in Hx. lia.
    + intros. lia.
    + intros. lia.
  - split; simpl; rewrite Ha1; [unfold size in *; lia|].
    rewrite length_replicate. unfold size in *. lia.
  - lia.
Qed.

(** X18.  On an object a caller can hold and for nodes [s] and [t],
    [isap(s, t)] indexes [adj], the rows of [adj], [level] and [cur]
    within range throughout; the only vector it can index out of range is
    [gap]. *)
Theorem isap_can_overrun_no_vector_but_gap
    (fuel : nat) (g : Isap) (s t : Z) (w : Vec) (i : Z) :
  reachable g -> 0 <= s < n g -> 0 <= t < n g ->
  isap fuel g s t = Fault (OutOfRange w i) -> w = Vgap.
Proof. intros Hr Hs Ht. apply isap_only_gap; assumption. Qed.

Lemma isap_can_overrun_no_vector_but_gap_witness :
  isap 100 two_feeders_built 0 2 = Fault (OutOfRange Vgap 4) /\ Vgap = Vgap.
Proof.
  assert (H : isap 100 two_feeders_built 0 2 = Fault (OutOfRange Vgap 4))
    by (vm_compute; reflexivity).
  split; [exact H|].
  apply (isap_can_overrun_no_vector_but_gap 100 two_feeders_built 0 2 Vgap 4).
  - apply (build_reachable 3 two_feeders).
    + unfold INT_MIN, INT_MAX. lia.
    + unfold two_feeders. repeat constructor; lia.
    + vm_compute. reflexivity.
  - simpl. lia.
  - simpl. lia.
  - exact H.
Defined.

(** *** The reduction *)

Lemma demands_in_range (edges : list OriginalEdge) :
  forall d,
    Forall (fun e => 0 <= u e < size d /\ 0 <= v e < size d) edges ->
    in_range (demands edges d).
Proof.
  induction edges as [|e es IH]; intros d Hends; simpl; [apply in_range_Ret|].
  inversion Hends as [|? ? [Hu Hv] Hes]. subst.
  destruct (zlookup_in_range _ _ Hu) as [du Hdu].
  rewrite (at_zlookup _ _ _ _ Hdu). simpl.
  apply in_range_bind; [apply in_range_int|]. intros x _.
  rewrite (set_in_range Vdemand d (u e) x Hu). simpl.
  destruct (zlookup_in_range (<[Z.to_nat (u e) := x]> d) (v e)) as [dv Hdv];
    [rewrite size_insert; exact Hv|].
  rewrite (at_zlookup _ _ _ _ Hdv). simpl.
  apply in_range_bind; [apply in_range_int|]. intros y _.
  rewrite (set_in_range Vdemand _ (v e) y) by (rewrite size_insert; exact Hv).
  simpl. apply IH.
  eapply Forall_impl; [exact Hes|]. intros e' He'. simpl in *.
  rewrite !size_insert. exact He'.
Qed.

Lemma slack_edges_in_range (edges : list OriginalEdge) :
  forall g,
    Forall (fun e => 0 <= u e < size (adj g) /\ 0 <= v e < size (adj g)) edges ->
    in_range (slack_edges g edges).
Proof.
  induction edges as [|e es IH]; intros g Hends; simpl; [apply in_range_Ret|].
  inversion Hends as [|? ? [Hu Hv] Hes]. subst.
  apply in_range_bind; [apply in_range_int|]. intros c _.
  destruct (0 <? c); [|apply IH; exact Hes].
  destruct (add_edge_in_range g (u e) (v e) c Hu Hv) as [g1 Hg1].
  rewrite Hg1. simpl. apply IH.
  rewrite (add_edge_size _ _ _ _ _ Hg1). exact Hes.
Qed.

Lemma demand_edges_in_range (SS TT : Z) (demand : list Z) (nodes : list Z) :
  forall g total,
    0 <= SS < size (adj g) -> 0 <= TT < size (adj g) ->
    Forall (fun i => 0 <= i < size demand /\ 0 <= i < size (adj g)) nodes ->
    in_range (demand_edges g SS TT demand nodes total).
Proof.
  induction nodes as [|i nodes IH]; intros g total HS HT Hn; simpl;
    [apply in_range_Ret|].
  inversion Hn as [|? ? [Hid Hia] Hns]. subst.
  destruct (zlookup_in_range _ _ Hid) as [d Hd].
  rewrite (at_zlookup _ _ _ _ Hd). simpl.
  destruct (0 <? d).
  - destruct (add_edge_in_range g SS i d HS Hia) as [g1 Hg1].
    rewrite Hg1. simpl.
    apply in_range_bind; [apply in_range_int|]. intros total' _.
    apply IH; rewrite (add_edge_size _ _ _ _ _ Hg1); assumption.
  - destruct (d <? 0); [|apply IH; assumption].
    apply in_range_bind; [apply in_range_int|]. intros m _.
    destruct (add_edge_in_range g i TT m Hia HT) as [g1 Hg1].
    rewrite Hg1. simpl.
    apply IH; rewrite (add_edge_size _ _ _ _ _ Hg1); assumption.
Qed.

(** X19.  For an input with [n >= 0], every edge between two of the nodes
    [0 .. n-1], and [s] and [t] among the [n + 2] nodes of the auxiliary
    graph, [has_feasible_flow] indexes [demand], [adj], [level] and [cur]
    within range; the only vector it can index out of range is the [gap]
    of the max-flow engine. *)
Theorem has_feasible_flow_can_overrun_no_vector_but_gap
    (fuel : nat) (nn s t : Z) (edges : list OriginalEdge) (w : Vec) (i : Z) :
  0 <= nn ->
  Forall (fun e => 0 <= u e < nn /\ 0 <= v e < nn) edges ->
  0 <= s < nn + 2 -> 0 <= t < nn + 2 ->
  has_feasible_flow fuel nn s t edges = Fault (OutOfRange w i) -> w = Vgap.
Proof.
  intros Hnn Hends Hs Ht. revert w i.
  change (only_gap (has_feasible_flow fuel nn s t edges)).
  unfold has_feasible_flow, has_feasible_flow_with.
  destruct (existsb _ edges); [apply in_range_only_gap, in_range_Ret|].
  unfold vector at 1. destruct (Z.leb_spec 0 nn) as [_|]; [|lia]. simpl.
  apply only_gap_bind.
  { apply in_range_only_gap, demands_in_range. unfold size.
    rewrite length_replicate, Z2Nat.id by exact Hnn. exact Hends. }
  intros demand Hd.
  pose proof (demands_Ret _ _ _ Hd) as (Hdlen & _ & _).
  rewrite length_replicate in Hdlen.
  apply only_gap_bind; [apply in_range_only_gap, in_range_int|]. intros TT HTT.
  apply int_Ret in HTT as [-> _].
  apply only_gap_bind; [apply in_range_only_gap, in_range_int|]. intros k Hk.
  apply int_Ret in Hk as [-> Hk].
  destruct (create (nn + 2)) as [g0| |] eqn:Hg0;
    try (unfold create, vector in Hg0;
         destruct (Z.leb_spec 0 (nn + 2)); [discriminate|lia]).
  simpl. pose proof (create_Ret _ _ Hg0) as (_ & Hn0 & Ha0 & _).
  assert (Hsz0 : size (adj g0) = nn + 2)
    by (rewrite Ha0; unfold size; rewrite length_replicate; lia).
  apply only_gap_bind.
  { apply in_range_only_gap, slack_edges_in_range.
    eapply Forall_impl; [exact Hends|]. simpl. intros e He. lia. }
  intros g1 Hg1.
  pose proof (slack_edges_size _ _ _ Hg1) as Hsz1.
  apply only_gap_bind.
  { apply in_range_only_gap, demand_edges_in_range; try lia.
    apply Forall_forall. intros j Hj%list_elem_of_In%in_iota.
    unfold size in *. lia. }
  intros r Hr.
  pose proof (demand_edges_size _ _ _ _ _ _ _ Hr) as Hsz2.
  destruct (add_edge_in_range (fst r) t s INF) as [g2 Hg2]; [lia|lia|].
  rewrite Hg2. simpl.
  apply only_gap_bind; [|intros mf _; apply in_range_only_gap, in_range_Ret].
  apply slack_edges_calls in Hg1.
  destruct (demand_edges_calls _ _ _ _ _ _ _ Hr) as [Hdem _].
  assert (Hreach : reachable g2).
  { apply (reach_add_edge (fst r) t s INF g2); [|unfold INF; lia|exact Hg2].
    eapply add_edges_reachable; [|apply demand_calls_nonneg|exact Hdem].
    eapply add_edges_reachable; [|apply slack_calls_nonneg|exact Hg1].
    eapply reach_create; eauto. }
  pose proof (reachable_sized _ Hreach) as (_ & Ha2 & _).
  pose proof (add_edge_size _ _ _ _ _ Hg2) as Hsz3.
  apply isap_only_gap; [exact Hreach|lia|lia].
Qed.

Lemma has_feasible_flow_can_overrun_no_vector_but_gap_witness :
  has_feasible_flow 100 3 0 2 (map oe [(0,1,0,1); (1,0,1,1)])
  = Fault (OutOfRange Vgap 6) /\ Vgap = Vgap.
Proof.
  assert (H : has_feasible_flow 100 3 0 2 (map oe [(0,1,0,1); (1,0,1,1)])
              = Fault (OutOfRange Vgap 6)) by (vm_compute; reflexivity).
  split; [exact H|].
  apply (has_feasible_flow_can_overrun_no_vector_but_gap
           100 3 0 2 (map oe [(0,1,0,1); (1,0,1,1)]) Vgap 6).
  - lia.
  - repeat constructor; simpl; lia.
  - lia.
  - lia.
  - exact H.
Defined.

(** ** The main loop ends *)

Lemma halts_Ret {A} (a : A) : halts (Ret a).
Proof. discriminate. Qed.

Lemma halts_bind {A B} (m : Res A) (k : A -> Res B) :
  halts m -> (forall a, m = Ret a -> halts (k a)) -> halts (bind m k).
Proof.
  intros Hm Hk. destruct m as [a|e|]; simpl.
  - apply Hk. reflexivity.
  - discriminate.
  - exfalso. apply Hm. reflexivity.
Qed.

Lemma halts_at {A} w (l : list A) i : halts (at_ w l i).
Proof.
  unfold at_. destruct (0 <=? i); [destruct (l !! Z.to_nat i)|]; discriminate.
Qed.

Lemma halts_set {A} w (l : list A) i x : halts (set_ w l i x).
Proof. unfold set_. destruct ((0 <=? i) && (i <? size l)); discriminate. Qed.

Lemma halts_int z : halts (int z).
Proof. unfold int. destruct ((INT_MIN <=? z) && (z <=? INT_MAX)); discriminate. Qed.

Lemma halts_edge_at a x i : halts (edge_at a x i).
Proof. apply halts_bind; [apply halts_at|]. intros row _. apply halts_at. Qed.

Lemma halts_set_edge a x i e : halts (set_edge a x i e).
Proof.
  apply halts_bind; [apply halts_at|]. intros row _.
  apply halts_bind; [apply halts_set|]. intros row' _. apply halts_set.
Qed.

Lemma halts_bottleneck a cur ps : forall f, halts (bottleneck a cur ps f).
Proof.
  induction ps as [|p ps IH]; intros f; simpl; [apply halts_Ret|].
  apply halts_bind; [apply halts_at|]. intros c _.
  apply halts_bind; [apply halts_edge_at|]. intros e _.
  apply halts_bind; [apply halts_int|]. intros r _. apply IH.
Qed.

Lemma halts_push cur ps f : forall a, halts (push a cur ps f).
Proof.
  induction ps as [|p ps IH]; intros a; simpl; [apply halts_Ret|].
  apply halts_bind; [apply halts_at|]. intros c _.
  apply halts_bind; [apply halts_edge_at|]. intros e _.
  apply halts_bind; [apply halts_int|]. intros fl _.
  apply halts_bind; [apply halts_set_edge|]. intros a1 _.
  apply halts_bind; [apply halts_edge_at|]. intros e1 _.
  apply halts_bind; [apply halts_edge_at|]. intros r _.
  apply halts_bind; [apply halts_int|]. intros fr _.
  apply halts_bind; [apply halts_set_edge|]. intros a2 _. apply IH.
Qed.

Lemma halts_scan lv x es : forall c, halts (scan lv x es c).
Proof.
  induction es as [|e es IH]; intros c; simpl; [apply halts_Ret|].
  destruct (flow e <? cap e); [|apply IH].
  apply halts_bind; [apply halts_at|]. intros lu _.
  apply halts_bind; [apply halts_at|]. intros lt _.
  apply halts_bind; [apply halts_int|]. intros d _.
  destruct (lu =? d); [apply halts_Ret|apply IH].
Qed.

Lemma halts_min_level lv es : forall m, halts (min_level lv es m).
Proof.
  induction es as [|e es IH]; intros m; simpl; [apply halts_Ret|].
  destruct (flow e <? cap e); [|apply IH].
  apply halts_bind; [apply halts_at|]. intros lt _. apply IH.
Qed.

Lemma halts_retreat nn w : halts (retreat nn w).
Proof.
  unfold retreat.
  apply halts_bind; [apply halts_at|]. intros au _.
  apply halts_bind; [apply halts_min_level|]. intros ml _.
  apply halts_bind; [apply halts_at|]. intros lu _.
  apply halts_bind; [apply halts_at|]. intros gl _.
  apply halts_bind; [apply halts_int|]. intros gl' _.
  apply halts_bind; [apply halts_set|]. intros gp1 _.
  destruct (gl' =? 0); [apply halts_Ret|].
  apply halts_bind; [apply halts_int|]. intros nl _.
  apply halts_bind; [apply halts_set|]. intros lv1 _.
  apply halts_bind; [apply halts_at|]. intros g2 _.
  apply halts_bind; [apply halts_int|]. intros g2' _.
  apply halts_bind; [apply halts_set|]. intros gp2 _.
  apply halts_bind; [apply halts_set|]. intros cur1 _.
  destruct (last (w_path w)); apply halts_Ret.
Qed.

Lemma halts_step s t nn w : halts (step s t nn w).
Proof.
  unfold step. apply halts_bind.
  - unfold augment. destruct (w_u w =? t); [|apply halts_Ret].
    apply halts_bind; [apply halts_bottleneck|]. intros f _.
    apply halts_bind; [apply halts_push|]. intros a _.
    apply halts_bind; [apply halts_int|]. intros fl _. apply halts_Ret.
  - intros w0 _.
    apply halts_bind; [apply halts_at|]. intros cu _.
    apply halts_bind; [apply halts_at|]. intros au _.
    apply halts_bind; [apply halts_scan|]. intros [c found] _.
    apply halts_bind; [apply halts_set|]. intros cur1 _.
    destruct found; [apply halts_Ret|apply halts_retreat].
Qed.

(** *** Sums *)

Lemma sumZ_cons (x : Z) (l : list Z) : sumZ (x :: l) = x + sumZ l.
Proof. reflexivity. Qed.

Lemma sumZ_insert (l : list Z) (k : nat) (old new : Z) :
  l !! k = Some old -> sumZ (<[k := new]> l) = sumZ l - old + new.
Proof.
  unfold sumZ.
  revert k. induction l as [|x l IH]; intros [|k] H; simpl in *; try discriminate.
  - inversion H. subst. lia.
  - rewrite (IH _ H). lia.
Qed.

Lemma set_sumZ w (l : list Z) (i old new : Z) (l' : list Z) :
  zlookup l i = Some old -> set_ w l i new = Ret l' ->
  sumZ l' = sumZ l - old + new.
Proof.
  intros [_ Hi]%zlookup_Some [_ ->]%set_Ret. apply sumZ_insert. exact Hi.
Qed.

Lemma Forall_zlookup {A} (P : A -> Prop) (l : list A) :
  (forall x d, zlookup l x = Some d -> P d) -> Forall P l.
Proof.
  intros H. apply Forall_lookup. intros i x Hi.
  apply (H (Z.of_nat i)). apply zlookup_Some. rewrite Nat2Z.id.
  split; [lia|exact Hi].
Qed.

Lemma sumZ_bounds (lo hi : Z) (l : list Z) :
  Forall (fun d => lo <= d <= hi) l -> size l * lo <= sumZ l <= size l * hi.
Proof.
  unfold size, sumZ. induction 1 as [|x l Hx _ IH]; simpl length; simpl foldr.
  - lia.
  - rewrite Nat2Z.inj_succ. lia.
Qed.

Lemma records_nonneg (a : list (list Edge)) : 0 <= records a.
Proof.
  unfold records, sumZ, size. induction a as [|row a IH]; simpl; lia.
Qed.

Lemma row_le_records (a : list (list Edge)) (x : Z) (row : list Edge) :
  zlookup a x = Some row -> size row <= records a.
Proof.
  intros [_ H]%zlookup_Some. revert H. generalize (Z.to_nat x) as k.
  induction a as [|r a IH]; intros [|k] H; simpl in *; try discriminate.
  - inversion H. subst. pose proof (records_nonneg a).
    unfold records, sumZ, size in *. simpl. lia.
  - pose proof (IH _ H). unfold records, sumZ, size in *. simpl. lia.
Qed.

(** *** The cursors *)

Lemma cursors_lookup a0 cur x c row :
  cursors_ok a0 cur -> zlookup cur x = Some c -> zlookup a0 x = Some row ->
  0 <= c <= size row.
Proof.
  intros H [_ Hc]%zlookup_Some [_ Hr]%zlookup_Some.
  exact (Forall2_lookup_lr _ _ _ _ _ _ H Hc Hr).
Qed.

Lemma cursors_set a0 cur x c cur1 :
  cursors_ok a0 cur -> set_ Vcur cur x c = Ret cur1 ->
  (forall row, zlookup a0 x = Some row -> 0 <= c <= size row) ->
  cursors_ok a0 cur1.
Proof.
  intros H [Hx ->]%set_Ret Hc. unfold cursors_ok in *.
  pose proof (Forall2_length _ _ _ H) as Hlen.
  destruct (zlookup_in_range a0 x) as [row Hrow]; [unfold size in *; lia|].
  pose proof Hrow as [_ Hrow']%zlookup_Some.
  rewrite <- (list_insert_id a0 (Z.to_nat x) row Hrow').
  apply Forall2_insert; [exact H|]. apply Hc. exact Hrow.
Qed.

Lemma cursors_sum a0 cur : cursors_ok a0 cur -> 0 <= sumZ cur <= records a0.
Proof.
  unfold cursors_ok, records, sumZ.
  induction 1 as [|c row cur a0 Hc _ IH]; simpl; lia.
Qed.

Lemma shape_row (a a0 : list (list Edge)) (x : Z) (row : list Edge) :
  shape a = shape a0 -> zlookup a x = Some row ->
  exists row0, zlookup a0 x = Some row0 /\ size row0 = size row.
Proof.
  intros Hsh Hrow.
  destruct (zlookup_length_eq a a0 x row (eq_sym (shape_length _ _ Hsh)) Hrow)
    as [row0 Hrow0].
  exists row0. split; [exact Hrow0|].
  rewrite <- (rowlen_size _ _ _ Hrow), <- (rowlen_size _ _ _ Hrow0).
  rewrite (rowlen_shape _ _ x Hsh). reflexivity.
Qed.

(** *** The path *)

Lemma chain_length f a lv cur ps :
  forall tip lh lt,
    chain f a lv cur ps tip ->
    zlookup lv (hd tip ps) = Some lh -> zlookup lv tip = Some lt ->
    lh = lt + size ps.
Proof.
  unfold size. induction ps as [|p ps IH]; intros tip lh lt Hc Hh Ht; simpl in *.
  - rewrite Hh in Ht. inversion Ht. lia.
  - destruct Hc as [(c & e & lp & lq & _ & _ & _ & _ & Hlp & Hlq & Hlev) Hc].
    rewrite Hh in Hlp. inversion Hlp. subst lp.
    pose proof (IH _ _ _ Hc Hlq Ht). lia.
Qed.

Lemma path_bound a0 s t nn w :
  walk_ok a0 s t w ->
  (forall x d, zlookup (w_level w) x = Some d -> 0 <= d < nn) -> 0 <= nn ->
  size (w_path w) <= nn.
Proof.
  intros Hw Hlab Hnn. pose proof (wk_chain _ _ _ _ Hw) as Hc.
  destruct (w_path w) as [|p ps] eqn:Hp; [unfold size; simpl; lia|].
  destruct (chain_tip_level _ _ _ _ _ _ _ Hc) as [lt Hlt].
  pose proof Hc as [(c & e & lp & lq & _ & _ & _ & _ & Hlp & _) _].
  pose proof (chain_length _ _ _ _ _ _ _ _ Hc Hlp Hlt).
  pose proof (Hlab _ _ Hlp). pose proof (Hlab _ _ Hlt). lia.
Qed.

Lemma scan_bound (lv : list Z) (x : Z) (es : list Edge) (c0 c : Z)
    (found : option Edge) :
  scan lv x es c0 = Ret (c, found) -> c0 <= c <= c0 + Z.of_nat (length es).
Proof.
  intros H. destruct (scan_Ret _ _ _ _ _ _ H) as [Hle Hf].
  destruct (scan_skipped _ _ _ _ _ _ H) as [_ Hnone].
  destruct found as [e|]; [|rewrite (Hnone eq_refl); lia].
  destruct Hf as (k & Hk & -> & _). apply lookup_lt_Some in Hk. lia.
Qed.

Lemma relabel_raises (a : list (list Edge)) (lv cur : list Z)
    (x : Z) (au : list Edge) (nn ml lu cend : Z) :
  valid a lv -> arcs a lv cur -> zlookup a x = Some au ->
  zlookup cur x = Some cend -> size au <= cend ->
  zlookup lv x = Some lu -> lu <= nn -> min_level lv au nn = Ret ml ->
  lu <= ml.
Proof.
  intros Hv Ha Hau Hcend Hend Hlu Hnn Hml.
  destruct (min_level_bounds _ _ _ _ Hml) as (_ & _ & Hlow).
  apply Hlow; [exact Hnn|].
  intros e lt Hin Hres Hlt.
  apply list_elem_of_In, list_elem_of_lookup in Hin as [i Hi].
  assert (He : edge_of a x (Z.of_nat i) = Some e).
  { unfold edge_of. rewrite Hau. apply zlookup_Some.
    rewrite Nat2Z.id. split; [lia|exact Hi]. }
  pose proof (Hv _ _ _ _ _ He Hres Hlu Hlt).
  apply lookup_lt_Some in Hi.
  assert (Hic : Z.of_nat i < cend) by (unfold size in Hend; lia).
  pose proof (Ha _ _ _ _ _ _ Hcend Hic He Hres Hlu Hlt). lia.
Qed.

(** *** Every iteration that goes on raises [progress] *)

Lemma steady_labels a0 s t nn w :
  steady a0 s t nn w ->
  forall x d, zlookup (w_level w) x = Some d -> 0 <= d < nn.
Proof.
  intros [_ Ht _ Hb Hg _] x d Hx.
  pose proof (td_nonneg _ _ Ht _ _ Hx). pose proof (Hb _ _ Hx). lia.
Qed.

Lemma augment_progress a0 s t nn w w0 :
  steady a0 s t nn w -> augment s t w = Ret w0 ->
  w_level w0 = w_level w /\ w_cur w0 = w_cur w /\
  progress a0 nn w <= progress a0 nn w0.
Proof.
  intros Hst H. pose proof (steady_labels _ _ _ _ _ Hst) as Hlab.
  pose proof (st_walk _ _ _ _ _ Hst) as Hw.
  assert (Hnn : 0 <= nn).
  { pose proof (st_gap _ _ _ _ _ Hst). unfold size in *. lia. }
  pose proof (path_bound _ _ _ _ _ Hw Hlab Hnn) as Hpath.
  unfold augment in H.
  destruct (Z.eqb_spec (w_u w) t) as [Hu|Hu];
    [|inversion H; subst w0; repeat split; lia].
  inv_ret H. apply int_Ret in Efl as [-> _].
  destruct (bottleneck_chain _ _ _ _ _ _ _ (wk_chain _ _ _ _ Hw) INF_pos Ef)
    as [Hpos _].
  split; [reflexivity|]. split; [reflexivity|].
  unfold progress. simpl. unfold size at 2. simpl. nia.
Qed.

Lemma step_steady a0 s t nn w w' :
  steady a0 s t nn w -> s <> t ->
  step s t nn w = Ret (Continue w') ->
  steady a0 s t nn w' /\ progress a0 nn w + 1 <= progress a0 nn w'.
Proof.
  intros Hst Hne H.
  pose proof Hst as [Hw Ht Hc Hb Hg Hcur].
  pose proof (step_ok _ _ _ _ _ _ Hw H) as Hw'.
  pose proof (step_tidy _ _ _ _ _ _ Hw Ht Hc Hb Hg Hne H) as Ht'.
  pose proof (step_counted _ _ _ _ _ Hc H) as Hc'.
  pose proof (step_below _ _ _ _ _ Hb H) as Hb'.
  destruct (step_length _ _ _ _ _ H) as [_ Hg'].
  simpl in Hw', Ht', Hc', Hb', Hg'.
  assert (Hgoal : cursors_ok a0 (w_cur w') /\
                  progress a0 nn w + 1 <= progress a0 nn w').
  2: { destruct Hgoal as [Hcur' Hprog]. split; [|exact Hprog].
       constructor; auto. unfold size in *. lia. }
  pose proof (steady_labels _ _ _ _ _ Hst) as Hlab.
  unfold step in H. inv_ret H.
  destruct (augment_progress _ _ _ _ _ _ Hst Ew) as (Hlv0 & Hcur0 & Hprog0).
  pose proof (augment_ok _ _ _ _ _ Hw Ew) as Hw0.
  pose proof (augment_tidy _ _ _ _ _ Hw Ht Ew) as Ht0.
  apply at_Ret in Ecu, Eau.
  destruct (shape_row _ _ _ _ (wk_shape _ _ _ _ Hw0) Eau) as (row0 & Hrow0 & Hsz0).
  rewrite Hcur0 in Ecu, Ecur1.
  pose proof (cursors_lookup _ _ _ _ _ Hcur Ecu Hrow0) as Hcu.
  pose proof (scan_bound _ _ _ _ _ _ Epat) as Hx.
  rewrite length_drop in Hx.
  assert (Hxr : 0 <= x <= size row0) by (unfold size in *; lia).
  assert (Hcur1 : cursors_ok a0 cur1).
  { apply (cursors_set _ _ _ _ _ Hcur Ecur1). intros row Hrow.
    rewrite Hrow0 in Hrow. inversion Hrow. subst row. exact Hxr. }
  pose proof (set_sumZ _ _ _ _ _ _ Ecu Ecur1) as Hsum1.
  destruct y as [e|].
  - inversion H. subst w'. simpl. split; [exact Hcur1|].
    unfold progress in *. simpl. rewrite Hcur0 in Hprog0.
    unfold size in *. rewrite length_app. simpl. lia.
  - destruct (retreat_Ret _ _ _ H)
      as (au' & ml & lu & gl & gp1 & Hau' & Hml & Hlu & Hgl & Hgp1 & Hcase).
    simpl in *.
    destruct Hcase as [[_ Heq]|(_ & lv1 & g2 & gp2 & cur2 & Hlv1 & Hg2 & Hgp2 & Hcur2 & Heq)];
      [discriminate Heq|].
    rewrite Eau in Hau'. inversion Hau'. subst au'.
    assert (Hle : lu <= ml).
    { apply (relabel_raises (w_adj w0) (w_level w0) cur1 (w_u w0) au nn ml lu x);
        auto.
      - apply Ht0.
      - exact (arcs_advance _ _ _ _ _ _ _ _ _ (td_arcs _ _ Ht0)
                 ltac:(rewrite Hcur0; exact Ecu) (proj1 Hcu) Eau Epat
                 ltac:(rewrite Hcur0; exact Ecur1)).
      - eapply set_zlookup_eq; eauto.
      - destruct (scan_skipped _ _ _ _ _ _ Epat) as [_ Hnone].
        rewrite (Hnone eq_refl), length_drop. unfold size. lia.
      - rewrite Hlv0 in Hlu. pose proof (Hlab _ _ Hlu). lia. }
    assert (Hcur2' : cursors_ok a0 cur2).
    { apply (cursors_set _ _ _ _ _ Hcur1 Hcur2). intros row Hrow.
      unfold size. lia. }
    assert (Hx1 : zlookup cur1 (w_u w0) = Some x)
      by (eapply set_zlookup_eq; eauto).
    pose proof (set_sumZ _ _ _ _ _ _ Hx1 Hcur2) as Hsum2.
    pose proof (set_sumZ _ _ _ _ _ _ Hlu Hlv1) as Hsumlv.
    pose proof (row_le_records _ _ _ Hrow0) as Hrec.
    pose proof (records_nonneg a0) as Hrec0.
    rewrite Hlv0 in Hsumlv.
    assert (Hplen : size (w_path w0) - 1
                    <= size (w_path (match last (w_path w0) with
                                     | Some p => mkWalk (w_adj w0) lv1 gp2 cur2
                                                   (removelast (w_path w0)) p (w_flow w0)
                                     | None => mkWalk (w_adj w0) lv1 gp2 cur2 []
                                                 (w_u w0) (w_flow w0)
                                     end))).
    { destruct (last (w_path w0)) as [p|] eqn:Hlast; simpl.
      - rewrite (last_removelast _ _ Hlast) at 1. unfold size.
        rewrite length_app. simpl. lia.
      - apply last_None in Hlast. rewrite Hlast. unfold size. simpl. lia. }
    inversion Heq as [Hw'eq]. clear Heq.
    assert (Hfields : w_level w' = lv1 /\ w_cur w' = cur2 /\ w_flow w' = w_flow w0)
      by (rewrite Hw'eq; destruct (last (w_path w0)); auto).
    destruct Hfields as (Hf1 & Hf2 & Hf3).
    rewrite <- Hw'eq in Hplen. rewrite <- Hw'eq.
    split; [rewrite Hf2; exact Hcur2'|].
    unfold progress in *. rewrite Hlv0, Hcur0 in Hprog0.
    rewrite Hf1, Hf2, Hf3, Hsumlv, Hsum2, Hsum1.
    assert (Hk : records a0 + 2 <= (records a0 + 2) * (ml + 1 - lu)) by nia.
    lia.
Qed.

(** *** The bound *)

Lemma progress_bound a0 s t nn w :
  steady a0 s t nn w -> s <> t ->
  progress a0 nn w
  <= (records a0 + 2) * (size a0 * nn) + records a0
     + nn * residual_out a0 s + nn.
Proof.
  intros Hst Hne. pose proof (steady_labels _ _ _ _ _ Hst) as Hlab.
  pose proof Hst as [Hw Ht _ _ Hg Hcur].
  assert (Hnn : 0 <= nn) by (unfold size in *; lia).
  pose proof (path_bound _ _ _ _ _ Hw Hlab Hnn) as Hpath.
  pose proof (cursors_sum _ _ Hcur) as Hcs.
  pose proof (records_nonneg a0) as Hrec.
  assert (Hsum : 0 <= sumZ (w_level w) <= size a0 * nn).
  { assert (HF : Forall (fun d => 0 <= d <= nn) (w_level w)).
    { apply Forall_zlookup. intros x d Hx. pose proof (Hlab _ _ Hx). lia. }
    pose proof (sumZ_bounds 0 nn _ HF) as Hb.
    replace (size (w_level w)) with (size a0) in Hb; [lia|].
    unfold size. rewrite (td_size _ _ Ht), (walk_adj_length _ _ _ _ Hw).
    reflexivity. }
  assert (Hflow : w_flow w <= residual_out a0 s).
  { pose proof (residual_out_excess _ _ s (wk_shape _ _ _ _ Hw)) as Hres.
    rewrite (wk_value _ _ _ _ Hw Hne) in Hres.
    assert (H0 : 0 <= residual_out (w_adj w) s).
    { unfold residual_out.
      destruct (zlookup (w_adj w) s) as [row|] eqn:Erow; [|lia].
      exact (row_flow_le_cap _ _ _ (wk_paired _ _ _ _ Hw) (wk_flows _ _ _ _ Hw) Erow). }
    lia. }
  unfold progress. nia.
Qed.

Lemma run_halts a0 s t nn fuel :
  forall w,
    steady a0 s t nn w -> s <> t ->
    (records a0 + 2) * (size a0 * nn) + records a0
    + nn * residual_out a0 s + nn - progress a0 nn w < Z.of_nat fuel ->
    halts (run fuel s t nn w).
Proof.
  induction fuel as [|fuel IH]; intros w Hst Hne Hfuel.
  - pose proof (progress_bound _ _ _ _ _ Hst Hne). lia.
  - simpl. apply halts_bind; [apply halts_at|]. intros ls _.
    destruct (ls <? nn); [|apply halts_Ret].
    apply halts_bind; [apply halts_step|]. intros nx Hnx.
    destruct nx as [w'|w']; [|apply halts_Ret].
    destruct (step_steady _ _ _ _ _ _ Hst Hne Hnx) as [Hst' Hprog].
    apply (IH _ Hst' Hne). lia.
Qed.

(** X20.  When every node has a residual path to the sink before the
    call, the loops of [isap(s, t)] end: [bfs] dequeues at most [n]
    nodes, and every iteration of the main loop that does not leave it
    raises a label, moves a cursor, lengthens the path or adds to the
    flow, so that at most [iterations] of them take place before the call
    returns, overruns [gap] or overflows an [int]. *)
Theorem isap_ends_when_every_node_reaches_the_sink
    (fuel : nat) (g : Isap) (s t : Z) :
  reachable g -> s <> t -> 0 <= t < n g ->
  (forall x, 0 <= x < n g -> reach (adj g) x t) ->
  n g <= Z.of_nat fuel -> iterations g s <= Z.of_nat fuel ->
  isap fuel g s t <> OutOfFuel.
Proof.
  intros Hr Hne Ht Hall Hf1 Hf2.
  destruct (reachable_paired_flows _ Hr) as [Hp _].
  pose proof (reachable_sized _ Hr) as (Hn & Ha & Hl & Hg).
  unfold size in Ha, Hl, Hg.
  destruct (bfs_ok_total (adj g) t Hp ltac:(unfold size; lia) fuel g eq_refl)
    as (lv & gp & Hb & _); try lia; [unfold size; lia|].
  change (halts (isap fuel g s t)). unfold isap. rewrite Hb. simpl.
  apply halts_bind; [apply halts_at|]. intros ls _.
  destruct (ls =? -1); [apply halts_Ret|].
  unfold vector. destruct (Z.leb_spec 0 (n g)) as [_|]; [|lia]. simpl.
  apply halts_bind; [|intros r _; apply halts_Ret].
  pose proof (isap_start fuel g _ s t Hr Hall Hb) as Hst. simpl in Hst.
  apply (run_halts (adj g) s t (n g) fuel _ Hst Hne).
  pose proof Hst as [_ Htd _ _ _ Hcur]. simpl in *.
  pose proof (cursors_sum _ _ Hcur) as Hcs.
  pose proof (records_nonneg (adj g)) as Hrec.
  assert (Hsum : 0 <= sumZ lv).
  { assert (HF : Forall (fun d => 0 <= d <= n g) lv).
    { apply Forall_zlookup. intros x d Hx.
      pose proof (st_below _ _ _ _ _ Hst _ _ Hx) as Hlt.
      pose proof (st_gap _ _ _ _ _ Hst) as Hgs.
      pose proof (td_nonneg _ _ Htd _ _ Hx). simpl in *. lia. }
    pose proof (sumZ_bounds 0 (n g) _ HF). lia. }
  unfold iterations in Hf2. unfold progress, size. simpl.
  replace (Z.of_nat (length (adj g))) with (n g) by lia.
  nia.
Qed.

Lemma isap_ends_when_every_node_reaches_the_sink_witness :
  isap 300 graph1_built 0 3 <> OutOfFuel.
Proof.
  apply (isap_ends_when_every_node_reaches_the_sink 300 graph1_built 0 3).
  - apply (build_reachable 4 graph1).
    + unfold INT_MIN, INT_MAX. lia.
    + unfold graph1. repeat constructor; lia.
    + vm_compute. reflexivity.
  - lia.
  - simpl. lia.
  - exact graph1_all_reach.
  - simpl. lia.
  - vm_compute. discriminate.
Defined.

(** ** The main loop ends on any labeling *)








(** *** The augmentation runs among the nodes outside *)






(** *** The relabel of a node outside *)





(** *** Every iteration that goes on raises [progress_all] *)


(** *** The bound *)



(** *** The walk the main loop starts from *)



(** *** Source and sink the same node *)





(** *** The call *)




